(** * Weather alert pipeline: a shallow embedding and its properties

    The development follows the backend of the weather alert relay:
    - [Js]: the fragment of the JavaScript runtime the services rely on
      (dynamic values, truthiness, string conversion, [parseInt],
      [Date.prototype.toISOString], base64, a regular-expression matcher);
    - [Db]: the JSON-file store of [backend/database/db.js], seen as a
      key-value store, together with the monad the services run in;
    - [DuplicateProtection], [AlertFormatter], [WeatherConditionFetcher],
      [WeatherConditionProcessor], [ForecastScheduler]: the services;
    - [Reference]: one concrete environment and sample data, to run the
      services on;
    - [Spec]: the vocabulary of the statements, followed by the properties of
      the dedup ledger, the classifier, the delivery gate for conditions, the
      forecast time of day, timestamps, severities and alert ids;
    - [DuplicateProtectionMore], [ForecastSchedulerMore], [Scheduler],
      [WebhookService], [Locations], [AlertProcessor]: further functions of
      the services, the store and the schedulers, with [Vocabulary] for the
      statements about them; their properties follow those of [Spec].

    Modelling conventions.
    - Strings are byte strings (UTF-8); letter case is changed on ASCII letters.
    - Numbers inside alert payloads are integers ([Z]); sensor readings are
      rationals, with [None] standing for [NaN] and [undefined].
    - A JavaScript object used as a lookup table is a finite map over its own
      properties.
    - An exception is a value of [exn]; a function that may throw returns in
      [Exc], and a function that also reads or writes the store runs in [M]. *)

From Stdlib Require Import ZArith QArith Qabs Ascii String List Lia Bool.
From stdpp Require Import base option list gmap strings pretty.

Set Warnings "-register-all".
Open Scope Z_scope.

(* ===================================================================== *)
(** ** The JavaScript runtime fragment *)
(* ===================================================================== *)

Module Js.

(** *** Exceptions *)

Inductive exn :=
| TypeError
| RangeError
| Error (msg : string).

Inductive Exc (A : Type) :=
| Ok (a : A)
| Throw (e : exn).
Arguments Ok {A} a.
Arguments Throw {A} e.

#[export] Instance Exc_ret : MRet Exc := fun _ a => Ok a.
#[export] Instance Exc_bind : MBind Exc := fun _ _ f m =>
  match m with
  | Ok a => f a
  | Throw e => Throw e
  end.

(** [try { m } catch { h }] for a computation without store effects. *)
Definition try_catch {A} (m : Exc A) (h : exn → Exc A) : Exc A :=
  match m with
  | Ok a => Ok a
  | Throw e => h e
  end.

(** *** Dynamic values *)

Inductive value :=
| VUndef
| VNull
| VBool (b : bool)
| VNum (n : Z)
| VStr (s : string)
| VArr (xs : list value)
| VObj (fields : list (string * value)).

Definition object := list (string * value).

(** ToBoolean. *)
Definition truthy (v : value) : bool :=
  match v with
  | VUndef | VNull => false
  | VBool b => b
  | VNum n => negb (n =? 0)
  | VStr s => negb (String.eqb s "")
  | VArr _ | VObj _ => true
  end.

(** [v === null || v === undefined]. *)
Definition nullish (v : value) : bool :=
  match v with
  | VUndef | VNull => true
  | _ => false
  end.

(** [a || b]. *)
Definition or_else (a b : value) : value := if truthy a then a else b.
Infix "|||" := or_else (at level 50, left associativity).

(** Own-property lookup in an object literal; a missing key is [undefined]. *)
Fixpoint lookup_field (k : string) (fs : object) : value :=
  match fs with
  | [] => VUndef
  | (k', v) :: fs' => if String.eqb k k' then v else lookup_field k fs'
  end.

(** [v.k] where [v] is known not to be [null] or [undefined]: primitives and
    arrays have none of the properties the services read. *)
Definition get (k : string) (v : value) : value :=
  match v with
  | VObj fs => lookup_field k fs
  | _ => VUndef
  end.

(** [v.k] in general: reading a property of [null] or [undefined] throws. *)
Definition getE (k : string) (v : value) : Exc value :=
  match v with
  | VUndef | VNull => Throw TypeError
  | _ => Ok (get k v)
  end.

(** SameValueZero, the comparison of [Array.prototype.includes].  Objects and
    arrays compare by reference; a value read back from the store is never the
    same reference as one held by the caller. *)
Definition same_value_zero (a b : value) : bool :=
  match a, b with
  | VUndef, VUndef | VNull, VNull => true
  | VBool x, VBool y => Bool.eqb x y
  | VNum x, VNum y => x =? y
  | VStr x, VStr y => String.eqb x y
  | _, _ => false
  end.

Definition includes (l : list value) (x : value) : bool :=
  existsb (fun y => same_value_zero y x) l.

(** *** Strings *)

Fixpoint join (sep : string) (parts : list string) : string :=
  match parts with
  | [] => ""
  | [p] => p
  | p :: rest => p +:+ sep +:+ join sep rest
  end.

(** ToString; array elements that are [null] or [undefined] print as empty. *)
Fixpoint to_string (v : value) : string :=
  match v with
  | VUndef => "undefined"
  | VNull => "null"
  | VBool true => "true"
  | VBool false => "false"
  | VNum n => pretty n
  | VStr s => s
  | VArr xs =>
      join "," (List.map (fun x => match x with
                                   | VUndef | VNull => ""
                                   | _ => to_string x
                                   end) xs)
  | VObj _ => "[object Object]"
  end.

(** [Array.prototype.join]. *)
Definition array_join (sep : string) (xs : list value) : string :=
  join sep (List.map (fun x => match x with
                               | VUndef | VNull => ""
                               | _ => to_string x
                               end) xs).

Definition is_upper (c : ascii) : bool :=
  let n := nat_of_ascii c in ((65 <=? n) && (n <=? 90))%nat.

Definition lower_ascii (c : ascii) : ascii :=
  if is_upper c then ascii_of_nat (nat_of_ascii c + 32) else c.

Fixpoint toLowerCase (s : string) : string :=
  match s with
  | EmptyString => EmptyString
  | String c s' => String (lower_ascii c) (toLowerCase s')
  end.




(** [hay.includes(needle)]. *)
Fixpoint str_includes (needle hay : string) : bool :=
  String.prefix needle hay ||
  match hay with
  | EmptyString => false
  | String _ hay' => str_includes needle hay'
  end.

(** [s.split(c)] for a one-character separator. *)
Fixpoint split_on (sep : ascii) (s : string) : list string :=
  match s with
  | EmptyString => [EmptyString]
  | String c s' =>
      if Ascii.eqb c sep then EmptyString :: split_on sep s'
      else match split_on sep s' with
           | [] => [String c EmptyString]
           | p :: ps => String c p :: ps
           end
  end.

Fixpoint take_str (n : nat) (s : string) : string :=
  match n, s with
  | S n', String c s' => String c (take_str n' s')
  | _, _ => EmptyString
  end.

(** [s.padStart(2, '0')]. *)
Definition padStart2 (s : string) : string :=
  match String.length s with
  | 0%nat => "00"
  | 1%nat => "0" +:+ s
  | _ => s
  end.

(** *** Array slicing *)

(** [l.slice(start)] for an integer [start]. *)
Definition slice_from {A} (start : Z) (l : list A) : list A :=
  let len := Z.of_nat (length l) in
  if start <? 0 then drop (Z.to_nat (Z.max (len + start) 0)) l
  else drop (Z.to_nat (Z.min start len)) l.

(** *** [parseInt] *)

Definition is_space (c : ascii) : bool :=
  let n := nat_of_ascii c in
  ((n =? 32) || ((9 <=? n) && (n <=? 13)))%nat.

Fixpoint skip_space (s : string) : string :=
  match s with
  | String c s' => if is_space c then skip_space s' else s
  | EmptyString => EmptyString
  end.

(** Value of a character as a digit in base 10 or 16. *)
Definition digit_of (radix : Z) (c : ascii) : option Z :=
  let n := Z.of_nat (nat_of_ascii c) in
  let d := if (48 <=? n) && (n <=? 57) then Some (n - 48)
           else if (97 <=? n) && (n <=? 102) then Some (n - 87)
           else if (65 <=? n) && (n <=? 70) then Some (n - 55)
           else None in
  match d with
  | Some k => if k <? radix then Some k else None
  | None => None
  end.

(** Longest prefix of digits, read left to right; [None] when there is none. *)
Fixpoint read_digits (radix : Z) (acc : option Z) (s : string) : option Z :=
  match s with
  | EmptyString => acc
  | String c s' =>
      match digit_of radix c with
      | Some d => read_digits radix (Some (radix * default 0 acc + d)) s'
      | None => acc
      end
  end.

Definition parse_unsigned (s : string) : option Z :=
  match s with
  | String "0" (String "x" s') | String "0" (String "X" s') =>
      read_digits 16 None s'
  | _ => read_digits 10 None s
  end.

(** [parseInt(s)] without a radix argument; [None] is [NaN]. *)
Definition parseInt (s : string) : option Z :=
  match skip_space s with
  | String "-" s' => Z.opp <$> parse_unsigned s'
  | String "+" s' => parse_unsigned s'
  | s' => parse_unsigned s'
  end.

(** [isNaN] on the result of [parseInt] (or on a missing array element). *)
Definition isNaN (n : option Z) : bool :=
  match n with
  | None => true
  | Some _ => false
  end.

(** *** Dates *)

(** Largest time value of a [Date], in milliseconds from the epoch. *)
Definition max_time : Z := 8640000000000000.

Definition time_in_range (t : Z) : bool := (- max_time <=? t) && (t <=? max_time).

Definition digit_char (d : Z) : ascii := ascii_of_nat (48 + Z.to_nat d).

Definition pad2 (n : Z) : string :=
  String (digit_char (n / 10 mod 10)) (String (digit_char (n mod 10)) EmptyString).

Definition pad3 (n : Z) : string :=
  String (digit_char (n / 100 mod 10)) (pad2 n).

Definition pad4 (n : Z) : string :=
  String (digit_char (n / 1000 mod 10)) (pad3 n).

Definition pad6 (n : Z) : string :=
  String (digit_char (n / 100000 mod 10))
    (String (digit_char (n / 10000 mod 10)) (pad4 n)).

(** Year, month and day of the proleptic Gregorian calendar from the number of
    days since 1970-01-01. *)
Definition civil_from_days (days : Z) : Z * Z * Z :=
  let z := days + 719468 in
  let era := z / 146097 in
  let doe := z mod 146097 in
  let yoe := (doe - doe / 1460 + doe / 36524 - doe / 146096) / 365 in
  let doy := doe - (365 * yoe + yoe / 4 - yoe / 100) in
  let mp := (5 * doy + 2) / 153 in
  let d := doy - (153 * mp + 2) / 5 + 1 in
  let m := if mp <? 10 then mp + 3 else mp - 9 in
  let y := yoe + era * 400 in
  (if m <=? 2 then y + 1 else y, m, d).

Definition days_from_civil (y m d : Z) : Z :=
  let y' := if m <=? 2 then y - 1 else y in
  let era := y' / 400 in
  let yoe := y' - era * 400 in
  let doy := (153 * (if 2 <? m then m - 3 else m + 9) + 2) / 5 + d - 1 in
  let doe := yoe * 365 + yoe / 4 - yoe / 100 + doy in
  era * 146097 + doe - 719468.

Definition year_string (y : Z) : string :=
  if (0 <=? y) && (y <=? 9999) then pad4 y
  else if y <? 0 then String "-" (pad6 (- y))
  else String "+" (pad6 y).

(** The text [toISOString] prints for a time value: [YYYY-MM-DDTHH:mm:ss.sssZ],
    the year widened to a sign and six digits outside 0..9999. *)
Definition iso_string (t : Z) : string :=
  let day := t / 86400000 in
  let ms := t mod 86400000 in
  let '(y, m, d) := civil_from_days day in
  year_string y +:+ "-" +:+ pad2 m +:+ "-" +:+ pad2 d +:+ "T" +:+
  pad2 (ms / 3600000) +:+ ":" +:+ pad2 (ms / 60000 mod 60) +:+ ":" +:+
  pad2 (ms / 1000 mod 60) +:+ "." +:+ pad3 (ms mod 1000) +:+ "Z".

(** [new Date(t).toISOString()]: an invalid date ([NaN], or a time outside the
    range of [Date]) throws. *)
Definition toISOString (t : option Z) : Exc string :=
  match t with
  | Some t => if time_in_range t then Ok (iso_string t) else Throw RangeError
  | None => Throw RangeError
  end.

(** [new Date(t).getTime()] for a number: TimeClip. *)
Definition time_clip (t : option Z) : option Z :=
  match t with
  | Some t => if time_in_range t then Some t else None
  | None => None
  end.

Definition is_digit (c : ascii) : bool :=
  let n := nat_of_ascii c in ((48 <=? n) && (n <=? 57))%nat.

Definition digit_val (c : ascii) : Z := Z.of_nat (nat_of_ascii c) - 48.

Definition two_digits (a b : ascii) (lo hi : Z) : bool :=
  is_digit a && is_digit b &&
  (lo <=? 10 * digit_val a + digit_val b) && (10 * digit_val a + digit_val b <=? hi).

(** The part of an ISO-8601 UTC date-time after the year. *)
Definition iso_after_year (s : string) : bool :=
  match list_ascii_of_string s with
  | [dash1; mo1; mo0; dash2; d1; d0; tee; h1; h0; col1; mi1; mi0; col2;
     s1; s0; dot; f2; f1; f0; zed] =>
      Ascii.eqb dash1 "-" && two_digits mo1 mo0 1 12 &&
      Ascii.eqb dash2 "-" && two_digits d1 d0 1 31 &&
      Ascii.eqb tee "T" && two_digits h1 h0 0 23 &&
      Ascii.eqb col1 ":" && two_digits mi1 mi0 0 59 &&
      Ascii.eqb col2 ":" && two_digits s1 s0 0 59 &&
      Ascii.eqb dot "." && is_digit f2 && is_digit f1 && is_digit f0 &&
      Ascii.eqb zed "Z"
  | _ => false
  end.

(** Recogniser of ISO-8601 UTC date-times: a four-digit year, or a sign and a
    six-digit year, then [-MM-DDTHH:mm:ss.sssZ] with every field in range. *)
Definition is_iso8601 (s : string) : bool :=
  match s with
  | String sg (String y5 (String y4 (String y3 (String y2 (String y1 (String y0 rest)))))) =>
      if Ascii.eqb sg "+" || Ascii.eqb sg "-" then
        is_digit y5 && is_digit y4 && is_digit y3 && is_digit y2 &&
        is_digit y1 && is_digit y0 && iso_after_year rest
      else
        is_digit sg && is_digit y5 && is_digit y4 && is_digit y3 &&
        iso_after_year (String y2 (String y1 (String y0 rest)))
  | _ => false
  end.

(** Reader of the exact text [iso_string] prints for years 0..9999; used by the
    reference runtime below. *)
Definition parse_iso (s : string) : option Z :=
  if is_iso8601 s then
    match list_ascii_of_string s with
    | [y3; y2; y1; y0; _; mo1; mo0; _; d1; d0; _; h1; h0; _; mi1; mi0; _;
       s1; s0; _; f2; f1; f0; _] =>
        let two a b := 10 * digit_val a + digit_val b in
        let y := 100 * two y3 y2 + two y1 y0 in
        Some (days_from_civil y (two mo1 mo0) (two d1 d0) * 86400000
              + two h1 h0 * 3600000 + two mi1 mi0 * 60000 + two s1 s0 * 1000
              + 100 * digit_val f2 + two f1 f0)
    | _ => None
    end
  else None.

(** *** Base64 *)

Definition base64_alphabet : string :=
  "ABCDEFGHIJKLMNOPQRSTUVWXYZabcdefghijklmnopqrstuvwxyz0123456789+/".

Definition base64_char (i : Z) : ascii :=
  default "="%char (String.get (Z.to_nat i) base64_alphabet).

Definition byte_of (c : ascii) : Z := Z.of_nat (nat_of_ascii c).

(** [Buffer.from(s).toString('base64')]. *)
Fixpoint base64 (s : string) : string :=
  match s with
  | String a (String b (String c rest)) =>
      let n := Z.shiftl (byte_of a) 16 + Z.shiftl (byte_of b) 8 + byte_of c in
      String (base64_char (Z.shiftr n 18))
        (String (base64_char (Z.land (Z.shiftr n 12) 63))
           (String (base64_char (Z.land (Z.shiftr n 6) 63))
              (String (base64_char (Z.land n 63)) (base64 rest))))
  | String a (String b EmptyString) =>
      let n := Z.shiftl (byte_of a) 16 + Z.shiftl (byte_of b) 8 in
      String (base64_char (Z.shiftr n 18))
        (String (base64_char (Z.land (Z.shiftr n 12) 63))
           (String (base64_char (Z.land (Z.shiftr n 6) 63)) "="))
  | String a EmptyString =>
      let n := Z.shiftl (byte_of a) 16 in
      String (base64_char (Z.shiftr n 18))
        (String (base64_char (Z.land (Z.shiftr n 12) 63)) "==")
  | EmptyString => EmptyString
  end.

(** *** Regular expressions (the anchored, star-free fragment) *)

Inductive regex :=
| Chr (c : ascii)
| Cls (lo hi : ascii)
| Seq (r1 r2 : regex)
| Alt (r1 r2 : regex)
| Opt (r : regex).

Definition in_class (lo hi c : ascii) : bool :=
  ((nat_of_ascii lo <=? nat_of_ascii c) && (nat_of_ascii c <=? nat_of_ascii hi))%nat.

(** Backtracking matcher: [k] receives what is left of the input. *)
Fixpoint re_match (r : regex) (s : string) (k : string → bool) : bool :=
  match r with
  | Chr c =>
      match s with
      | String x s' => Ascii.eqb x c && k s'
      | EmptyString => false
      end
  | Cls lo hi =>
      match s with
      | String x s' => in_class lo hi x && k s'
      | EmptyString => false
      end
  | Seq r1 r2 => re_match r1 s (fun s' => re_match r2 s' k)
  | Alt r1 r2 => re_match r1 s k || re_match r2 s k
  | Opt r1 => re_match r1 s k || k s
  end.

(** [/^r$/.test(s)]. *)
Definition regex_test (r : regex) (s : string) : bool :=
  re_match r s (fun rest => match rest with EmptyString => true | _ => false end).

(** *** What the environment supplies *)

Class Runtime := {
  (** the [k]-th reading of the wall clock, in milliseconds from the epoch *)
  date_now : nat → Z;
  (** the [k]-th identifier drawn from [uuidv4] *)
  uuidv4 : nat → string;
  (** [Date.parse]; [None] is [NaN] *)
  date_parse : string → option Z;
  (** the time value [Date.parse] returns is a valid one *)
  date_parse_range : ∀ s t, date_parse s = Some t → time_in_range t = true;
  (** ToNumber on a string, for integral results; [None] is [NaN] *)
  string_to_number : string → option Z;
  (** [cron.validate] of node-cron *)
  cron_validate : string → bool;
  (** Number::toString on a sensor reading *)
  number_to_string : Q → string;
}.

(** ToNumber. *)
Definition to_number `{Runtime} (v : value) : option Z :=
  match v with
  | VUndef => None
  | VNull => Some 0
  | VBool b => Some (if b then 1 else 0)
  | VNum n => Some n
  | VStr s => string_to_number s
  | VArr _ | VObj _ => string_to_number (to_string v)
  end.

(** [new Date(v).getTime()] for a value that is not a number. *)
Definition date_of_value `{Runtime} (v : value) : option Z :=
  match v with
  | VStr s => date_parse s
  | VArr _ | VObj _ => date_parse (to_string v)
  | _ => time_clip (to_number v)
  end.

End Js.

(* ===================================================================== *)
(** ** Condition snapshots *)
(* ===================================================================== *)

Module Conditions.

(** A sensor reading: a rational, or [None] for [NaN] and [undefined]. *)
Definition num := option Q.


Definition ge (a : num) (b : Q) : bool := from_option (fun x => Qle_bool b x) false a.

(** [Math.abs(a - b)]. *)
Definition abs_diff (a b : num) : num :=
  match a, b with
  | Some x, Some y => Some (Qabs (x - y)%Q)
  | _, _ => None
  end.


Inductive Level := good | fair | bad | severe.

#[export] Instance Level_eq_dec : EqDecision Level.
Proof. solve_decision. Defined.


(** The fields of a formatted condition notification that the delivery gate
    reads: [classification], [isBadWeather], [weather.temperature] and
    [timestamp]. *)
Record Condition := {
  classification : Level;
  isBadWeather : bool;
  temperature : num;
  timestamp : string;
}.

End Conditions.

(* ===================================================================== *)
(** ** The store ([backend/database/db.js]) and the program state *)
(* ===================================================================== *)

Module Db.
Import Js Conditions.

(** The settings the services read, defaults merged in.  A field that is not
    set is the empty string, or [0] for a number: the values [x || default]
    replaces. *)
Record Settings := {
  apiProvider : string;
  maxLogsToKeep : Z;
  forecastEnabled : bool;
  forecastTime : string;
  (** minutes *)
  weatherConditionGoodWeatherInterval : Z;
  updatedAt : string;
}.

(** The partial settings objects the services pass to [updateSettings]. *)
Inductive SettingsPatch :=
| PatchForecastTime (t : string)
| PatchForecastEnabled (b : bool).

Definition patch_keys (p : SettingsPatch) : list string :=
  match p with
  | PatchForecastTime _ => ["forecastTime"]
  | PatchForecastEnabled _ => ["forecastEnabled"]
  end.

(** [{...current, ...patch, updatedAt}]. *)
Definition apply_patch (p : SettingsPatch) (now : string) (s : Settings) : Settings :=
  match p with
  | PatchForecastTime t =>
      {| apiProvider := apiProvider s; maxLogsToKeep := maxLogsToKeep s;
         forecastEnabled := forecastEnabled s; forecastTime := t;
         weatherConditionGoodWeatherInterval := weatherConditionGoodWeatherInterval s;
         updatedAt := now |}
  | PatchForecastEnabled b =>
      {| apiProvider := apiProvider s; maxLogsToKeep := maxLogsToKeep s;
         forecastEnabled := b; forecastTime := forecastTime s;
         weatherConditionGoodWeatherInterval := weatherConditionGoodWeatherInterval s;
         updatedAt := now |}
  end.

(** An entry of [last-alerts.json]. *)
Record LastAlerts := {
  alertIds : list value;
  la_updatedAt : string;
}.

Record LogEntry := {
  log_id : string;
  log_timestamp : string;
  log_type : string;
  log_action : string;
  log_message : string;
  log_details : value;
}.

(** The program state: the JSON files, the two module-level variables of the
    forecast scheduler, and how often the clock and [uuidv4] were consulted. *)
Record World := {
  settings : Settings;
  lastAlerts : gmap string LastAlerts;
  lastConditions : gmap string Condition;
  logs : list LogEntry;
  forecastTask : option string;
  currentForecastCron : option string;
  clock_reads : nat;
  uuid_draws : nat;
}.

Definition with_settings (s : Settings) (w : World) : World :=
  {| settings := s; lastAlerts := lastAlerts w; lastConditions := lastConditions w;
     logs := logs w; forecastTask := forecastTask w;
     currentForecastCron := currentForecastCron w;
     clock_reads := clock_reads w; uuid_draws := uuid_draws w |}.

Definition with_lastAlerts (m : gmap string LastAlerts) (w : World) : World :=
  {| settings := settings w; lastAlerts := m; lastConditions := lastConditions w;
     logs := logs w; forecastTask := forecastTask w;
     currentForecastCron := currentForecastCron w;
     clock_reads := clock_reads w; uuid_draws := uuid_draws w |}.

Definition with_lastConditions (m : gmap string Condition) (w : World) : World :=
  {| settings := settings w; lastAlerts := lastAlerts w; lastConditions := m;
     logs := logs w; forecastTask := forecastTask w;
     currentForecastCron := currentForecastCron w;
     clock_reads := clock_reads w; uuid_draws := uuid_draws w |}.

Definition with_logs (l : list LogEntry) (w : World) : World :=
  {| settings := settings w; lastAlerts := lastAlerts w;
     lastConditions := lastConditions w;
     logs := l; forecastTask := forecastTask w;
     currentForecastCron := currentForecastCron w;
     clock_reads := clock_reads w; uuid_draws := uuid_draws w |}.

Definition with_forecast (task cron : option string) (w : World) : World :=
  {| settings := settings w; lastAlerts := lastAlerts w;
     lastConditions := lastConditions w;
     logs := logs w; forecastTask := task; currentForecastCron := cron;
     clock_reads := clock_reads w; uuid_draws := uuid_draws w |}.

Definition tick_clock (w : World) : World :=
  {| settings := settings w; lastAlerts := lastAlerts w;
     lastConditions := lastConditions w;
     logs := logs w; forecastTask := forecastTask w;
     currentForecastCron := currentForecastCron w;
     clock_reads := S (clock_reads w); uuid_draws := uuid_draws w |}.

Definition tick_uuid (w : World) : World :=
  {| settings := settings w; lastAlerts := lastAlerts w;
     lastConditions := lastConditions w;
     logs := logs w; forecastTask := forecastTask w;
     currentForecastCron := currentForecastCron w;
     clock_reads := clock_reads w; uuid_draws := S (uuid_draws w) |}.

(** *** The monad of the services: state, and exceptions that keep the state *)

Definition M (A : Type) : Type := World → Exc A * World.

#[export] Instance M_ret : MRet M := fun _ a w => (Ok a, w).
#[export] Instance M_bind : MBind M := fun _ _ f m w =>
  match m w with
  | (Ok a, w') => f a w'
  | (Throw e, w') => (Throw e, w')
  end.

Definition throw {A} (e : exn) : M A := fun w => (Throw e, w).
Definition lift {A} (m : Exc A) : M A := fun w => (m, w).
Definition read {A} (f : World → A) : M A := fun w => (Ok (f w), w).
Definition write (f : World → World) : M unit := fun w => (Ok tt, f w).

(** [try { m } catch (e) { h e }]. *)
Definition try_catchM {A} (m : M A) (h : exn → M A) : M A := fun w =>
  match m w with
  | (Ok a, w') => (Ok a, w')
  | (Throw e, w') => h e w'
  end.

(** [Date.now()]. *)
Definition now `{Runtime} : M Z := fun w =>
  (Ok (date_now (clock_reads w)), tick_clock w).

(** [new Date().toISOString()]. *)
Definition now_iso `{Runtime} : M string := t ← now; mret (iso_string t).

Definition fresh_uuid `{Runtime} : M string := fun w =>
  (Ok (uuidv4 (uuid_draws w)), tick_uuid w).

(** *** Settings *)

Definition getSettings : M Settings := read settings.

(** *** Logs *)

Definition getLogs (limit : Z) : M (list LogEntry) :=
  read (fun w => slice_from (- limit) (logs w)).

(** The argument of [addLog]; an empty string stands for a field left out. *)
Record LogInput := {
  in_type : string;
  in_action : string;
  in_message : string;
  in_details : value;
}.

Definition addLog `{Runtime} (logEntry : LogInput) : M LogEntry :=
  st ← getSettings;
  old ← getLogs (maxLogsToKeep st * 2);
  id ← fresh_uuid;
  ts ← now_iso;
  let newLog :=
    {| log_id := id;
       log_timestamp := ts;
       log_type := if String.eqb (in_type logEntry) "" then "info" else in_type logEntry;
       log_action := in_action logEntry;
       log_message := in_message logEntry;
       log_details := in_details logEntry ||| VNull |} in
  let trimmed := slice_from (- maxLogsToKeep st) (old ++ [newLog]) in
  write (with_logs trimmed);;
  mret newLog.

Definition updateSettings `{Runtime} (p : SettingsPatch) : M Settings :=
  current ← getSettings;
  ts ← now_iso;
  let updated := apply_patch p ts current in
  write (with_settings updated);;
  addLog {| in_type := "info"; in_action := "settings_update";
            in_message := "Settings updated via UI: " +:+ join ", " (patch_keys p);
            in_details := VObj [("updatedFields", VArr (VStr <$> patch_keys p))] |};;
  mret updated.

(** *** Last alerts (duplicate prevention) *)

Definition getLastAlerts : M (gmap string LastAlerts) := read lastAlerts.

Definition setLastAlertForLocation `{Runtime}
    (locationId : string) (ids : list value) : M unit :=
  la ← getLastAlerts;
  ts ← now_iso;
  write (with_lastAlerts (<[locationId := {| alertIds := ids; la_updatedAt := ts |}]> la)).

Definition getLastAlertIdsForLocation (locationId : string) : M (list value) :=
  la ← getLastAlerts;
  mret (match la !! locationId with
        | Some e => alertIds e
        | None => []
        end).

Definition isAlertNew (locationId : string) (alertId : value) : M bool :=
  ids ← getLastAlertIdsForLocation locationId;
  mret (negb (includes ids alertId)).

Definition clearLastAlerts : M unit := write (with_lastAlerts ∅).

(** *** Last delivered conditions *)

(** Modelled from the spec: [db.getLastConditions] and
    [db.updateLastConditions] are called by the condition processor but are not
    defined in [db.js]; following the data model ("the last delivered snapshot
    for that location", a key-value store with get/set semantics) they read and
    replace a map from location id to the last delivered condition. *)
Definition getLastConditions : M (gmap string Condition) := read lastConditions.

Definition updateLastConditions (m : gmap string Condition) : M unit :=
  write (with_lastConditions m).

End Db.

(* ===================================================================== *)
(** ** [backend/services/duplicateProtection.js] *)
(* ===================================================================== *)

Module DuplicateProtection.
Import Js Db.

Definition alert_id (a : object) : value := lookup_field "alert_id" a.

(** The parameter [alerts] is [None] when the caller passes [null] or
    [undefined]. *)
Definition filterNewAlerts (locationId : string) (alerts : option (list object))
    : M (list object) :=
  match alerts with
  | None | Some [] => mret []
  | Some alerts =>
      lastAlertIds ← getLastAlertIdsForLocation locationId;
      let newAlerts :=
        List.filter (fun alert => negb (includes lastAlertIds (alert_id alert))) alerts in
      mret newAlerts
  end.

Definition markAlertsSent `{Runtime} (locationId : string)
    (alerts : option (list object)) : M unit :=
  match alerts with
  | None | Some [] => mret tt
  | Some alerts =>
      existingIds ← getLastAlertIdsForLocation locationId;
      let newIds := alert_id <$> alerts in
      (* Combine and keep last 100 IDs to prevent unbounded growth *)
      let allIds := existingIds ++ newIds in
      let trimmedIds := slice_from (-100) allIds in
      setLastAlertForLocation locationId trimmedIds;;
      addLog {| in_type := "info"; in_action := "duplicate_protection";
                in_message := "Marked " +:+ pretty (length alerts) +:+
                              " alerts as sent for location " +:+ locationId;
                in_details := VObj [("locationId", VStr locationId);
                                    ("alertIds", VArr newIds)] |};;
      mret tt
  end.

Definition isAlertNew (locationId : string) (alertId : value) : M bool :=
  Db.isAlertNew locationId alertId.

Definition clearAll `{Runtime} : M unit :=
  clearLastAlerts;;
  addLog {| in_type := "warning"; in_action := "duplicate_protection";
            in_message := "All stored alert IDs cleared - duplicate protection reset";
            in_details := VUndef |};;
  mret tt.

Definition clearForLocation `{Runtime} (locationId : string) : M unit :=
  setLastAlertForLocation locationId [];;
  addLog {| in_type := "info"; in_action := "duplicate_protection";
            in_message := "Cleared stored alert IDs for location " +:+ locationId;
            in_details := VObj [("locationId", VStr locationId)] |};;
  mret tt.

End DuplicateProtection.

(* ===================================================================== *)
(** ** [backend/services/alertFormatter.js] *)
(* ===================================================================== *)

Module AlertFormatter.
Import Js Db.

(** [a || m] where the right operand has effects and runs only when needed. *)
Definition or_elseM (a : value) (m : M value) : M value :=
  if truthy a then mret a else m.

Definition is_string (v : value) : bool :=
  match v with VStr _ => true | _ => false end.

Definition is_array (v : value) : bool :=
  match v with VArr _ => true | _ => false end.

(** Format location name from location object. *)
Definition formatLocationName (location : value) : Exc value :=
  name ← getE "name" location;
  let parts := if truthy name then [name] else [] in
  let parts :=
    if truthy (get "zipCode" location)
    then parts ++ [VStr ("ZIP: " +:+ to_string (get "zipCode" location))]
    else parts in
  let parts :=
    if truthy (get "latitude" location) && truthy (get "longitude" location)
    then parts ++ [VStr ("(" +:+ to_string (get "latitude" location) +:+ ", " +:+
                         to_string (get "longitude" location) +:+ ")")]
    else parts in
  mret (VStr (array_join " " parts) ||| VStr "Unknown Location").

(** Map NWS event names to severity levels; [event.toLowerCase()] exists on
    strings only. *)
Definition mapNWSSeverity (event : value) : Exc value :=
  if negb (truthy event) then mret (VStr "Unknown") else
  match event with
  | VStr e =>
      let eventLower := toLowerCase e in
      if str_includes "warning" eventLower then mret (VStr "Warning")
      else if str_includes "watch" eventLower then mret (VStr "Watch")
      else if str_includes "advisory" eventLower then mret (VStr "Advisory")
      else if str_includes "statement" eventLower then mret (VStr "Statement")
      else if str_includes "emergency" eventLower then mret (VStr "Extreme")
      else mret (VStr "Unknown")
  | _ => Throw TypeError
  end.

(** Map OpenWeatherMap tags to severity. *)
Definition mapOpenWeatherSeverity (tags : value) : value :=
  match tags with
  | VArr ts =>
      let tagStr := toLowerCase (array_join " " ts) in
      if str_includes "extreme" tagStr then VStr "Extreme"
      else if str_includes "severe" tagStr then VStr "Severe"
      else if str_includes "warning" tagStr then VStr "Warning"
      else if str_includes "watch" tagStr then VStr "Watch"
      else if str_includes "advisory" tagStr then VStr "Advisory"
      else if str_includes "moderate" tagStr then VStr "Moderate"
      else VStr "Unknown"
  | _ => VStr "Unknown"
  end.

(** Generate a unique alert ID if none provided. *)
Definition generateAlertId `{Runtime} (alert : value) : M value :=
  let details := get "details" alert ||| alert in
  let type := get "type" details ||| VStr "unknown" in
  stamp ← or_elseM (get "timestamp" details) (t ← now; mret (VNum t));
  let zone := get "zone" details ||| VStr "" in
  let parts := [type; stamp; zone] in
  mret (VStr (take_str 24 (base64 (array_join "-" parts)))).

Definition severityMap : object :=
  [("w", VStr "Warning"); ("a", VStr "Watch"); ("y", VStr "Advisory");
   ("s", VStr "Statement"); ("f", VStr "Forecast"); ("o", VStr "Outlook");
   ("n", VStr "Synopsis")].

Definition textMap : object :=
  [("extreme", VStr "Extreme"); ("severe", VStr "Severe");
   ("moderate", VStr "Moderate"); ("minor", VStr "Minor");
   ("warning", VStr "Warning"); ("watch", VStr "Watch");
   ("advisory", VStr "Advisory")].

(** Map API severity/priority to standardized severity levels. *)
Definition mapSeverity (v : value) : value :=
  if negb (truthy v) then VStr "Unknown" else
  let valueStr := toLowerCase (to_string v) in
  if truthy (lookup_field valueStr severityMap) then lookup_field valueStr severityMap
  else
    let priorityNum := parseInt (to_string v) in
    match priorityNum with
    | Some n =>
        if n <=? 2 then VStr "Extreme"
        else if n <=? 4 then VStr "Severe"
        else if n <=? 6 then VStr "Moderate"
        else if n <=? 8 then VStr "Minor"
        else VStr "Unknown"
    | None => lookup_field valueStr textMap ||| v
    end.

(** Format area/zone information. *)
Definition formatArea (zones location : value) : Exc value :=
  match zones with
  | VArr (_ :: _ as zs) =>
      names ← mapM (fun z =>
                 if is_string z then mret z
                 else
                   name ← getE "name" z;
                   mret (name ||| get "county" z ||| get "zone" z ||| z)) zs;
      mret (VStr (array_join ", " names))
  | _ =>
      if is_string zones && truthy zones then mret zones
      else
        name ← getE "name" location;
        mret (name ||| get "zipCode" location ||| VStr "Unknown Area")
  end.

(** Format timestamp to ISO string. *)
Definition formatTimestamp `{Runtime} (timestamp : value) : Exc value :=
  if negb (truthy timestamp) then mret VNull else
  try_catch
    (match timestamp with
     | VNum n =>
         let ts := if n <? 10000000000 then n * 1000 else n in
         iso ← toISOString (Some ts);
         mret (VStr iso)
     | _ =>
         let date := date_of_value timestamp in
         if negb (isNaN date) then
           iso ← toISOString date;
           mret (VStr iso)
         else mret VNull
     end)
    (fun _ => mret VNull).

(** Format a single alert from NWS (National Weather Service) API response.
    The caller has already read a property of [rawAlert]. *)
Definition formatNWSAlert `{Runtime} (rawAlert location : value) : M object :=
  alert_id ← or_elseM (get "id" rawAlert) (generateAlertId rawAlert);
  severity ← or_elseM (get "severity" rawAlert)
                       (lift (mapNWSSeverity (get "event" rawAlert)));
  area ← or_elseM (get "areaDesc" rawAlert) (lift (formatLocationName location));
  loc ← or_elseM (get "locationName" rawAlert) (lift (formatLocationName location));
  location_id ← lift (getE "id" location);
  mret [("alert_id", alert_id);
        ("event", get "event" rawAlert ||| VStr "Weather Alert");
        ("severity", severity);
        ("description", get "description" rawAlert ||| VStr "");
        ("headline", get "headline" rawAlert ||| get "event" rawAlert ||| VStr "");
        ("area", area);
        ("starts_at", get "onset" rawAlert ||| get "effective" rawAlert ||| VNull);
        ("ends_at", get "expires" rawAlert ||| get "ends" rawAlert ||| VNull);
        ("issued_at", get "sent" rawAlert ||| get "effective" rawAlert ||| VNull);
        ("location", loc);
        ("location_id", location_id);
        ("source", VStr "National Weather Service");
        ("raw_type", get "event" rawAlert ||| VStr "");
        ("certainty", get "certainty" rawAlert ||| VStr "");
        ("urgency", get "urgency" rawAlert ||| VStr "");
        ("instruction", get "instruction" rawAlert ||| VStr "");
        ("sender", get "senderName" rawAlert ||| VStr "NWS")].

(** [x ? new Date(x * 1000).toISOString() : null]. *)
Definition seconds_to_iso `{Runtime} (x : value) : Exc value :=
  if truthy x then
    iso ← toISOString (time_clip ((fun n => n * 1000) <$> to_number x));
    mret (VStr iso)
  else mret VNull.

(** Format a single alert from OpenWeatherMap API response. *)
Definition formatOpenWeatherMapAlert `{Runtime} (rawAlert location : value) : M object :=
  event ← lift (getE "event" rawAlert);
  (* Check if this is actually an NWS alert (our hybrid approach) *)
  if truthy event &&
     truthy (get "headline" rawAlert ||| get "areaDesc" rawAlert |||
             get "senderName" rawAlert)
  then formatNWSAlert rawAlert location
  else
    startTime ← lift (seconds_to_iso (get "start" rawAlert));
    endTime ← lift (seconds_to_iso (get "end" rawAlert));
    alert_id ← generateAlertId rawAlert;
    area ← or_elseM (get "sender_name" rawAlert) (lift (formatLocationName location));
    loc ← lift (formatLocationName location);
    location_id ← lift (getE "id" location);
    mret [("alert_id", alert_id);
          ("event", event ||| VStr "Weather Alert");
          ("severity", mapOpenWeatherSeverity (get "tags" rawAlert));
          ("description", get "description" rawAlert ||| VStr "");
          ("headline", event ||| VStr "");
          ("area", area);
          ("starts_at", startTime);
          ("ends_at", endTime);
          ("issued_at", startTime);
          ("location", loc);
          ("location_id", location_id);
          ("source", VStr "OpenWeatherMap");
          ("raw_type", event ||| VStr "");
          ("certainty", VStr "");
          ("urgency", VStr "");
          ("tags", get "tags" rawAlert ||| VArr [])].

(** Format a single alert from XWeather API response. *)
Definition formatXWeatherAlert `{Runtime} (rawAlert location : value) : M object :=
  (* Handle nested details structure from XWeather *)
  nested ← lift (getE "details" rawAlert);
  let details := nested ||| rawAlert in
  let timestamps := get "timestamps" rawAlert ||| VObj [] in
  alert_id ← or_elseM (get "id" details ||| get "id" rawAlert) (generateAlertId rawAlert);
  area ← lift (formatArea (get "zone" details ||| get "areas" details ||| VArr []) location);
  starts_at ← lift (formatTimestamp (get "begins" timestamps ||| get "timestamp" details |||
                                     get "issued" details));
  ends_at ← lift (formatTimestamp (get "expires" timestamps ||| get "expires" details));
  issued_at ← lift (formatTimestamp (get "issued" timestamps ||| get "issued" details));
  loc ← lift (formatLocationName location);
  location_id ← lift (getE "id" location);
  st ← getSettings;
  mret [("alert_id", alert_id);
        ("event", get "name" details ||| get "type" details ||| VStr "");
        ("severity", mapSeverity (get "significance" details ||| get "priority" details));
        ("description", get "body" details ||| get "desc" details ||| VStr "");
        ("headline", get "name" details ||| VStr "");
        ("area", area);
        ("starts_at", starts_at);
        ("ends_at", ends_at);
        ("issued_at", issued_at);
        ("location", loc);
        ("location_id", location_id);
        ("source", VStr (apiProvider st) ||| VStr "XWeather");
        ("raw_type", get "type" details ||| VStr "");
        ("certainty", get "certainty" details ||| VStr "");
        ("urgency", get "urgency" details ||| VStr "")].

(** Format multiple alerts from API response. *)
Definition formatAlerts `{Runtime} (rawAlerts location : value) : M (list object) :=
  match rawAlerts with
  | VArr alerts =>
      st ← getSettings;
      let provider := if String.eqb (apiProvider st) "" then "openweathermap"
                      else apiProvider st in
      mapM (fun alert =>
              if String.eqb provider "openweathermap"
              then formatOpenWeatherMapAlert alert location
              else formatXWeatherAlert alert location) alerts
  | _ => mret []
  end.

End AlertFormatter.

(* ===================================================================== *)
(** ** [backend/services/weatherConditionFetcher.js]: the classifier *)
(* ===================================================================== *)

Module WeatherConditionFetcher.
Import Js Conditions.




(** The two variables the checks update: [badReasons] and [severity]. *)
Definition Verdict : Type := list string * Level.

(** [badReasons.push(r); severity = 'bad'] *)
Definition push_bad (r : string) (st : Verdict) : Verdict := (st.1 ++ [r], bad).

(** [badReasons.push(r); if (severity === 'good') severity = 'fair'] *)
Definition push_fair (r : string) (st : Verdict) : Verdict :=
  (st.1 ++ [r], if decide (st.2 = good) then fair else st.2).

(** [badReasons.push(r); severity = 'severe'] *)
Definition push_severe (r : string) (st : Verdict) : Verdict := (st.1 ++ [r], severe).











End WeatherConditionFetcher.

(* ===================================================================== *)
(** ** [backend/services/weatherConditionProcessor.js]: the delivery gate *)
(* ===================================================================== *)

Module WeatherConditionProcessor.
Import Js Conditions Db.

(** [a < b] and [a >= b] where [a] may be [NaN]. *)
Definition nan_lt (a : option Z) (b : Z) : bool := from_option (fun x => x <? b) false a.
Definition nan_ge (a : option Z) (b : Z) : bool := from_option (fun x => b <=? x) false a.

(** Check if we should send a condition update. *)
Definition shouldSendConditionUpdate `{Runtime}
    (locationId : string) (newCondition : Condition) (st : Settings) : M bool :=
  lastConditions ← getLastConditions;
  match lastConditions !! locationId with
  | None => mret true (* First time, always send *)
  | Some lastCondition =>
      now ← Db.now;
      let lastSentTime := date_parse (timestamp lastCondition) in
      let timeSinceLastSent := (fun t => now - t) <$> lastSentTime in
      (* Always send if classification changed (good -> bad or vice versa) *)
      if negb (bool_decide (Conditions.classification lastCondition =
                            Conditions.classification newCondition)) then mret true
      (* For bad weather, send more frequently (every check) *)
      else if isBadWeather newCondition then mret true
      else
        (* For good weather, only send every hour (to avoid spam) *)
        let minIntervalForGoodWeather :=
          if weatherConditionGoodWeatherInterval st =? 0 then 60
          else weatherConditionGoodWeatherInterval st in
        let minIntervalMs := minIntervalForGoodWeather * 60 * 1000 in
        if nan_lt timeSinceLastSent minIntervalMs then mret false (* Too soon *)
        else
          (* Check if temperature changed significantly (more than 5 degrees) *)
          let tempDiff := abs_diff (temperature newCondition) (temperature lastCondition) in
          if ge tempDiff 5 then mret true
          (* If enough time has passed, send an update *)
          else mret (nan_ge timeSinceLastSent minIntervalMs)
  end.

(** Store the last sent condition for a location. *)
Definition storeLastCondition (locationId : string) (condition : Condition) : M unit :=
  lastConditions ← getLastConditions;
  updateLastConditions (<[locationId := condition]> lastConditions).

End WeatherConditionProcessor.

(* ===================================================================== *)
(** ** The forecast scheduler service (kept in [backend/routes/auth.js]) *)
(* ===================================================================== *)

Module ForecastScheduler.
Import Js Db.

Definition invalid_time_message : string :=
  "Invalid time format. Use HH:MM (e.g., 07:00)".

(** [timeString.split(':').map(n => parseInt(n))], destructured into its first
    two elements; a missing element is [undefined], for which [isNaN] holds. *)
Definition hours_minutes (timeString : string) : option Z * option Z :=
  let parts := parseInt <$> split_on ":" timeString in
  (mjoin (parts !! 0%nat), mjoin (parts !! 1%nat)).

(** The condition under which [timeToCron] throws. *)
Definition time_invalid (timeString : string) : bool :=
  let '(hours, minutes) := hours_minutes timeString in
  isNaN hours || isNaN minutes ||
  from_option (fun h => h <? 0) false hours ||
  from_option (fun h => 23 <? h) false hours ||
  from_option (fun m => m <? 0) false minutes ||
  from_option (fun m => 59 <? m) false minutes.

(** Convert time string (HH:MM) to cron expression. *)
Definition timeToCron (timeString : string) : Exc string :=
  let '(hours, minutes) := hours_minutes timeString in
  if time_invalid timeString then Throw (Error invalid_time_message)
  else
    (* Run at specific time every day *)
    mret (pretty (default 0 minutes) +:+ " " +:+ pretty (default 0 hours) +:+ " * * *").

(** Get human-readable schedule description. *)
Definition getForecastScheduleDescription (timeString : string) : string :=
  match hours_minutes timeString with
  | (Some hours, Some minutes) =>
      (* Convert to 12-hour format *)
      let period := if 12 <=? hours then "PM" else "AM" in
      let displayHours :=
        if hours =? 0 then 12 else if 12 <? hours then hours - 12 else hours in
      let displayMinutes := padStart2 (pretty minutes) in
      "Daily at " +:+ pretty displayHours +:+ ":" +:+ displayMinutes +:+ " " +:+ period
  | _ => "Invalid time"
  end.

(** What the scheduler functions return. *)
Record Status := {
  running : bool;
  message : string;
  time : option string;
  cronExpression : option string;
}.

Definition exn_message (e : exn) : string :=
  match e with
  | Error msg => msg
  | TypeError => "TypeError"
  | RangeError => "RangeError"
  end.

(** Stop the forecast scheduler. *)
Definition stopForecastScheduler `{Runtime} : M Status :=
  task ← read forecastTask;
  match task with
  | Some _ =>
      write (with_forecast None None);;
      addLog {| in_type := "info"; in_action := "forecast_scheduler_stop";
                in_message := "Forecast scheduler stopped"; in_details := VUndef |};;
      mret {| running := false; message := "Forecast scheduler stopped";
              time := None; cronExpression := None |}
  | None =>
      mret {| running := false; message := "Forecast scheduler was not running";
              time := None; cronExpression := None |}
  end.

(** Start the forecast scheduler with current settings.  The task handle is
    modelled by the cron expression it was scheduled with. *)
Definition startForecastScheduler `{Runtime} : M Status :=
  st ← getSettings;
  if negb (forecastEnabled st) then
    addLog {| in_type := "info"; in_action := "forecast_scheduler";
              in_message := "Daily forecast scheduler is disabled";
              in_details := VUndef |};;
    mret {| running := false; message := "Daily forecast scheduler is disabled";
            time := None; cronExpression := None |}
  else
    let forecastTime := if String.eqb (forecastTime st) "" then "07:00" else forecastTime st in
    try_catchM
      (cron ← lift (timeToCron forecastTime);
       task ← read forecastTask;
       current ← read currentForecastCron;
       (* If scheduler is already running with same settings, do nothing *)
       if bool_decide (is_Some task) && bool_decide (current = Some cron) then
         mret {| running := true; message := "Forecast scheduler already running";
                 time := Some forecastTime; cronExpression := Some cron |}
       else
         (* Stop existing task if any *)
         stopForecastScheduler;;
         (* Validate cron expression *)
         if negb (cron_validate cron) then
           addLog {| in_type := "error"; in_action := "forecast_scheduler";
                     in_message := "Invalid cron expression: " +:+ cron;
                     in_details := VUndef |};;
           mret {| running := false; message := "Invalid schedule configuration";
                   time := None; cronExpression := None |}
         else
           (* Start new task *)
           write (with_forecast (Some cron) (Some cron));;
           addLog {| in_type := "success"; in_action := "forecast_scheduler_start";
                     in_message := "Forecast scheduler started: " +:+
                                   getForecastScheduleDescription forecastTime;
                     in_details := VObj [("cronExpression", VStr cron);
                                         ("time", VStr forecastTime)] |};;
           mret {| running := true;
                   message := "Forecast scheduler started: " +:+
                              getForecastScheduleDescription forecastTime;
                   time := Some forecastTime; cronExpression := Some cron |})
      (fun error =>
         addLog {| in_type := "error"; in_action := "forecast_scheduler_error";
                   in_message := "Failed to start forecast scheduler: " +:+ exn_message error;
                   in_details := VUndef |};;
         mret {| running := false; message := exn_message error;
                 time := None; cronExpression := None |}).

(** Restart forecast scheduler with new settings. *)
Definition restartForecastScheduler `{Runtime} : M Status :=
  stopForecastScheduler;;
  startForecastScheduler.

(** [/^([01]?[0-9]|2[0-3]):[0-5][0-9]$/]. *)
Definition timeRegex : regex :=
  Seq (Alt (Seq (Opt (Cls "0" "1")) (Cls "0" "9")) (Seq (Chr "2") (Cls "0" "3")))
      (Seq (Chr ":") (Seq (Cls "0" "5") (Cls "0" "9"))).

(** Update forecast time. *)
Definition updateForecastTime `{Runtime} (newTime : string) : M Status :=
  (* Validate time format *)
  if negb (regex_test timeRegex newTime) then throw (Error invalid_time_message)
  else
    updateSettings (PatchForecastTime newTime);;
    (* Restart scheduler if running *)
    task ← read forecastTask;
    if bool_decide (is_Some task) then restartForecastScheduler
    else
      mret {| running := false; time := Some newTime; cronExpression := None;
              message := "Forecast time updated to " +:+
                         getForecastScheduleDescription newTime |}.

End ForecastScheduler.

(* ===================================================================== *)
(** ** A reference environment *)
(* ===================================================================== *)

Module Reference.
Import Js Conditions Db.

(** [Date.parse] restricted to the text [toISOString] prints. *)
Definition date_parse_iso (s : string) : option Z := time_clip (parse_iso s).

(** ToNumber restricted to strings of decimal digits. *)
Definition decimal_to_number (s : string) : option Z :=
  if forallb is_digit (list_ascii_of_string s) then read_digits 10 (Some 0) s else None.

(** Integral readings print as integers, others as a fraction. *)
Definition print_reading (q : Q) : string :=
  let q := Qred q in
  if (Zpos (Qden q) =? 1) then pretty (Qnum q)
  else pretty (Qnum q) +:+ "/" +:+ pretty (Zpos (Qden q)).

(** A clock that starts at 2023-11-14T22:13:20Z and advances by a millisecond
    at every reading. *)
Definition runtime : Runtime.
Proof.
  refine {| date_now := fun k => 1700000000000 + Z.of_nat k;
            uuidv4 := fun k => "uuid-" +:+ pretty k;
            date_parse := date_parse_iso;
            string_to_number := decimal_to_number;
            cron_validate := fun _ => true;
            number_to_string := print_reading |}.
  intros s t. unfold date_parse_iso, time_clip.
  destruct (parse_iso s) as [t'|]; [|discriminate].
  destruct (time_in_range t') eqn:E; [|discriminate].
  intros [= <-]. exact E.
Defined.

Definition default_settings : Settings :=
  {| apiProvider := "xweather"; maxLogsToKeep := 100; forecastEnabled := false;
     forecastTime := ""; weatherConditionGoodWeatherInterval := 0;
     updatedAt := "2023-11-14T22:13:20.000Z" |}.

(** The state after [initializeDatabase] on an empty data directory, before
    its log entry. *)
Definition initial_world : World :=
  {| settings := default_settings; lastAlerts := ∅; lastConditions := ∅;
     logs := []; forecastTask := None; currentForecastCron := None;
     clock_reads := 0; uuid_draws := 0 |}.

(** A fair-weather snapshot delivered at 22:03:20, ten minutes before the
    reference clock starts, and the state that has it stored for [loc-1]. *)
Definition delivered_snapshot : Condition :=
  {| classification := fair; isBadWeather := false; temperature := Some 70%Q;
     timestamp := "2023-11-14T22:03:20.000Z" |}.

Definition world_with_snapshot : World :=
  with_lastConditions {[ "loc-1" := delivered_snapshot ]} initial_world.


(** Alerts as the duplicate-protection test builds them: only an id. *)
Definition sample_alert (k : nat) : object :=
  [("alert_id", VStr ("alert-" +:+ pretty k))].

(** 101 alerts with the ids [alert-0] .. [alert-100], one per batch. *)
Definition sample_batches : list (list object) :=
  (fun k => [sample_alert k]) <$> seq 0 101.

End Reference.

(* ===================================================================== *)
(** ** Vocabulary of the statements *)
(* ===================================================================== *)

Module Spec.
Import Js Conditions Db DuplicateProtection WeatherConditionFetcher.

(** The severity enumeration of the canonical alert. *)
Definition severity_enum : list value :=
  VStr <$> ["Extreme"; "Severe"; "Warning"; "Watch"; "Advisory"; "Moderate";
            "Minor"; "Statement"; "Unknown"].

(** The three further names the vendor code table maps to. *)
Definition vendor_extra : list value :=
  VStr <$> ["Forecast"; "Outlook"; "Synopsis"].

Definition severity (c : object) : value := lookup_field "severity" c.

(** The result of a computation that did not throw, seen through [f]. *)
Definition map_ok {A B} (f : A → B) (r : Exc A) : Exc B :=
  match r with
  | Ok a => Ok (f a)
  | Throw e => Throw e
  end.


(** The id [generateAlertId] derives at time [t] for an alert without type,
    timestamp and zone: 24 characters of the base64 of [unknown-<t>-]. *)
Definition generated_id (t : Z) : string :=
  take_str 24 (base64 (array_join "-" [VStr "unknown"; VNum t; VStr ""])).

(** What the second normalization relies on in a canonical record: none of
    the raw-only fields is present, and the severity is truthy. *)
Definition canonical (c : object) : Prop :=
  lookup_field "details" c = VUndef ∧ lookup_field "id" c = VUndef ∧
  lookup_field "type" c = VUndef ∧ lookup_field "timestamp" c = VUndef ∧
  lookup_field "zone" c = VUndef ∧ lookup_field "areas" c = VUndef ∧
  lookup_field "start" c = VUndef ∧ lookup_field "end" c = VUndef ∧
  truthy (lookup_field "severity" c) = true.

(** The dedup ledger of a location: the id list stored for it, empty when the
    location has no entry. *)
Definition stored_ids (w : World) (loc : string) : list value :=
  match lastAlerts w !! loc with
  | Some e => alertIds e
  | None => []
  end.

(** The ids of a batch of alerts, as [markAlertsSent] collects them. *)
Definition ids_of (alerts : list object) : list value := alert_id <$> alerts.

(** The last [k] elements of a list, in order. *)
Definition lastn {A} (k : nat) (l : list A) : list A := drop (length l - k) l.

(** The state after a computation. *)
Definition exec {A} (m : M A) (w : World) : World := (m w).2.

(** The value (or exception) a computation produces. *)
Definition eval {A} (m : M A) (w : World) : Exc A := (m w).1.

(** Marking several batches as sent, one call after the other. *)
Definition mark_each `{Runtime} (loc : string) (batches : list (list object))
    (w : World) : World :=
  foldl (fun w b => exec (markAlertsSent loc (Some b)) w) w batches.


(** No reason recorded exactly when the severity is still ['good']. *)
Definition coherent (st : Verdict) : Prop := st.1 = [] ↔ st.2 = good.

(** ['severe'] is assigned by the last check only. *)
Definition not_severe (st : Verdict) : Prop := st.2 ≠ severe.

Inductive reachable `{Runtime} : World → Prop :=
| reach_init w : lastAlerts w = ∅ → reachable w
| reach_mark loc alerts w :
    reachable w → reachable (exec (markAlertsSent loc alerts) w)
| reach_clear loc w :
    reachable w → reachable (exec (clearForLocation loc) w)
| reach_clearAll w :
    reachable w → reachable (exec clearAll w)
| reach_other w w' :
    reachable w → lastAlerts w' = lastAlerts w → reachable w'.

End Spec.

(* ===================================================================== *)
(** ** Further functions of the services *)
(* ===================================================================== *)

(** *** Errors that are caught *)

Module Errors.
Import Js.

(** [error.message].  Of the errors the engine raises itself only the name is
    kept; the statements below that mention a message are about errors the
    program creates with [new Error(message)]. *)
Definition message_of (e : exn) : string :=
  match e with
  | Error msg => msg
  | TypeError => "TypeError"
  | RangeError => "RangeError"
  end.

End Errors.

(** *** [duplicateProtection.js]: statistics and the protected run *)

Module DuplicateProtectionMore.
Import Js Db DuplicateProtection Errors.

Record Stats := {
  locationsTracked : nat;
  totalStoredIds : nat;
  perLocation : gmap string nat;
}.

(** Get statistics about duplicate protection.  The loop runs over
    [Object.keys(lastAlerts)]; the pair threaded through it is
    [(totalStoredIds, perLocation)]. *)
Definition getStats : M Stats :=
  lastAlerts ← getLastAlerts;
  let locations := (map_to_list lastAlerts).*1 in
  let '(total, per) :=
    foldl (fun '(total, per) locId =>
             let count := match lastAlerts !! locId with
                          | Some e => length (alertIds e)
                          | None => 0%nat
                          end in
             ((total + count)%nat, <[locId := count]> per))
          (0%nat, ∅) locations in
  mret {| locationsTracked := length locations;
          totalStoredIds := total;
          perLocation := per |}.

Record ProcessResult := {
  processed : nat;
  skipped : nat;
  success : bool;
  error : option string;
}.

(** Process alerts with duplicate protection: filters new alerts and marks
    them as sent after successful processing.  [processCallback] is awaited;
    [alerts.length] throws when [alerts] is [null] or [undefined]. *)
Definition processWithDuplicateProtection `{Runtime} (locationId : string)
    (alerts : option (list object)) (processCallback : list object → M unit)
    : M ProcessResult :=
  newAlerts ← filterNewAlerts locationId alerts;
  match alerts with
  | None => throw TypeError
  | Some alerts =>
      if (length newAlerts =? 0)%nat then
        mret {| processed := 0; skipped := length alerts; success := true;
                error := None |}
      else
        try_catchM
          (processCallback newAlerts;;
           markAlertsSent locationId (Some newAlerts);;
           mret {| processed := length newAlerts;
                   skipped := length alerts - length newAlerts;
                   success := true; error := None |})
          (fun e =>
             addLog {| in_type := "error"; in_action := "duplicate_protection";
                       in_message := "Error processing alerts for location " +:+
                                     locationId +:+ ": " +:+ message_of e;
                       in_details := VObj [("locationId", VStr locationId);
                                           ("error", VStr (message_of e))] |};;
             mret {| processed := 0; skipped := length alerts; success := false;
                     error := Some (message_of e) |})
  end.

End DuplicateProtectionMore.

(** *** The forecast scheduler: enabling and disabling *)

Module ForecastSchedulerMore.
Import Js Db ForecastScheduler.

(** Enable or disable forecast scheduler. *)
Definition setForecastEnabled `{Runtime} (enabled : bool) : M Status :=
  updateSettings (PatchForecastEnabled enabled);;
  if enabled then startForecastScheduler else stopForecastScheduler.

End ForecastSchedulerMore.

(** *** The interval scheduler (kept in [backend/routes/auth.js]) *)

Module Scheduler.
Import Js.

(** [parseInt(minutes) || 15]. *)
Definition minutes_or_default (minutes : value) : Z :=
  match parseInt (to_string minutes) with
  | Some n => if n =? 0 then 15 else n
  | None => 15
  end.

(** Convert frequency in minutes to cron expression. *)
Definition frequencyToCron (minutes : value) : string :=
  let minutes := minutes_or_default minutes in
  let minutes := if minutes <? 1 then 1 else minutes in
  let minutes := if 1440 <? minutes then 1440 else minutes in (* Max 24 hours *)
  if minutes =? 1 then "* * * * *" (* Every minute *)
  else if minutes <? 60 then "*/" +:+ pretty minutes +:+ " * * * *" (* Every X minutes *)
  else if minutes =? 60 then "0 * * * *" (* Every hour *)
  else if minutes <? 1440 then
    let hours := minutes / 60 in
    "0 */" +:+ pretty hours +:+ " * * *" (* Every X hours *)
  else "0 0 * * *" (* Once per day *).

(** Get human-readable schedule description. *)
Definition getScheduleDescription (minutes : value) : string :=
  let minutes := minutes_or_default minutes in
  if minutes =? 1 then "Every minute"
  else if minutes <? 60 then "Every " +:+ pretty minutes +:+ " minutes"
  else if minutes =? 60 then "Every hour"
  else if minutes <? 1440 then
    let hours := minutes / 60 in
    "Every " +:+ pretty hours +:+ " hour" +:+ (if 1 <? hours then "s" else "")
  else "Once per day".

(** The condition under which [updateFrequency] throws:
    [isNaN(frequency) || frequency < 1 || frequency > 1440] for
    [frequency = parseInt(newFrequency)]. *)
Definition frequency_rejected (newFrequency : value) : bool :=
  match parseInt (to_string newFrequency) with
  | Some frequency => (frequency <? 1) || (1440 <? frequency)
  | None => true
  end.

End Scheduler.

(* ===================================================================== *)
(** ** [backend/services/webhookService.js] *)
(* ===================================================================== *)

Module WebhookService.
Import Js Db DuplicateProtection.

(** How [axios.post] settles: it resolves with a response, of which the
    service reads [status], or it rejects with an error, of which the service
    reads [message], [response?.status] and [response?.data?.message]
    ([response] is [None] when the error carries no response). *)
Inductive PostOutcome :=
| Resolved (status : value)
| Rejected (message : string) (response : option (value * value)).

(** What [sendAlertToWebhook] returns; a field the object does not have is
    [VUndef]. *)
Record SendResult := {
  success : bool;
  alertId : value;
  status : value;
  message : value;
  error : value;
}.

(** What [sendAlertsToWebhook] returns. *)
Record BatchResult := {
  sent : nat;
  failed : nat;
  results : list SendResult;
}.

Section Endpoint.
Context `{Runtime}.

(** [settings.webhookUrl], which none of these functions writes; the empty
    string stands for a URL that is not configured. *)
Variable webhookUrl : string.

(** The endpoint is outside the program: how a request settles is a function
    of the URL, the payload and the state at the moment of the request. *)
Variable axios_post : string → object → World → PostOutcome.

(** Send a single alert to GoHighLevel webhook. *)
Definition sendAlertToWebhook (alert : object) : M SendResult :=
  if String.eqb webhookUrl "" then throw (Error "GoHighLevel webhook URL not configured")
  else
    outcome ← read (axios_post webhookUrl alert);
    match outcome with
    | Resolved responseStatus =>
        addLog {| in_type := "success"; in_action := "webhook_send";
                  in_message := "Alert sent to GoHighLevel: " +:+
                                to_string (lookup_field "event" alert);
                  in_details := VObj [("alertId", alert_id alert);
                                      ("event", lookup_field "event" alert);
                                      ("location", lookup_field "location" alert);
                                      ("responseStatus", responseStatus)] |};;
        mret {| success := true; alertId := alert_id alert; status := responseStatus;
                message := VStr "Alert sent successfully"; error := VUndef |}
    | Rejected errMessage response =>
        let errorMessage :=
          from_option snd VUndef response ||| VStr errMessage in
        let responseStatus := from_option fst VUndef response in
        addLog {| in_type := "error"; in_action := "webhook_send";
                  in_message := "Failed to send alert to GoHighLevel: " +:+
                                to_string errorMessage;
                  in_details := VObj [("alertId", alert_id alert);
                                      ("event", lookup_field "event" alert);
                                      ("error", errorMessage);
                                      ("status", responseStatus)] |};;
        mret {| success := false; alertId := alert_id alert; status := responseStatus;
                message := VUndef; error := errorMessage |}
    end.

(** The loop of [sendAlertsToWebhook]: [results], [sent] and [failed] are
    threaded through it. *)
Fixpoint send_each (alerts : list object) (acc : BatchResult) : M BatchResult :=
  match alerts with
  | [] => mret acc
  | alert :: rest =>
      result ← sendAlertToWebhook alert;
      send_each rest
        {| results := results acc ++ [result];
           sent := if success result then S (sent acc) else sent acc;
           failed := if success result then failed acc else S (failed acc) |}
  end.

(** Send multiple alerts to GoHighLevel webhook. *)
Definition sendAlertsToWebhook (alerts : option (list object)) : M BatchResult :=
  match alerts with
  | None | Some [] => mret {| sent := 0; failed := 0; results := [] |}
  | Some alerts =>
      batch ← send_each alerts {| sent := 0; failed := 0; results := [] |};
      addLog {| in_type := if (0 <? failed batch)%nat then "warning" else "success";
                in_action := "webhook_batch";
                in_message := "Sent " +:+ pretty (sent batch) +:+
                              " alerts to GoHighLevel (" +:+ pretty (failed batch) +:+
                              " failed)";
                in_details := VObj [("sent", VNum (Z.of_nat (sent batch)));
                                    ("failed", VNum (Z.of_nat (failed batch)));
                                    ("total", VNum (Z.of_nat (length alerts)))] |};;
      mret batch
  end.

End Endpoint.

End WebhookService.

(* ===================================================================== *)
(** ** [backend/database/db.js]: the locations *)
(* ===================================================================== *)

Module Locations.
Import Js Db.

(** Writing a property: an existing key keeps its place. *)
Fixpoint set_field (k : string) (v : value) (o : object) : object :=
  match o with
  | [] => [(k, v)]
  | (k', v') :: o' =>
      if String.eqb k k' then (k, v) :: o' else (k', v') :: set_field k v o'
  end.

(** [{...a, ...b}]. *)
Definition spread (a b : object) : object :=
  foldr (fun '(k, v) o => set_field k v o) a b.

(** [loc.id === id] for a string [id]. *)
Definition has_id (id : string) (loc : object) : bool :=
  match lookup_field "id" loc with
  | VStr s => String.eqb s id
  | _ => false
  end.

(** [v !== false]. *)
Definition not_false (v : value) : bool :=
  match v with
  | VBool false => false
  | _ => true
  end.

(** The functions below take the content of [locations.json] and return the
    content they write back with their result. *)

Definition addLocation `{Runtime} (locationData : value) (locations : list object)
    : M (object * list object) :=
  id ← fresh_uuid;
  name ← lift (getE "name" locationData);
  createdAt ← now_iso;
  updatedAt ← now_iso;
  let newLocation :=
    [("id", VStr id);
     ("name", name ||| VStr "");
     ("zipCode", get "zipCode" locationData ||| VStr "");
     ("latitude", get "latitude" locationData ||| VNull);
     ("longitude", get "longitude" locationData ||| VNull);
     ("enabled", VBool (not_false (get "enabled" locationData)));
     ("createdAt", VStr createdAt);
     ("updatedAt", VStr updatedAt)] in
  mret (newLocation, locations ++ [newLocation]).

(** [l.findIndex(p)]; [None] is [-1]. *)
Fixpoint findIndex {A} (p : A → bool) (l : list A) : option nat :=
  match l with
  | [] => None
  | x :: l' => if p x then Some 0%nat else S <$> findIndex p l'
  end.

(** [updateData] is an object; the result [None] is [null]. *)
Definition updateLocation `{Runtime} (id : string) (updateData : object)
    (locations : list object) : M (option object * list object) :=
  match findIndex (has_id id) locations with
  | None => mret (None, locations)
  | Some index =>
      let current := default ([] : object) (locations !! index) in
      updatedAt ← now_iso;
      let updated :=
        set_field "updatedAt" (VStr updatedAt)
          (set_field "id" (lookup_field "id" current) (* Preserve ID *)
             (spread current updateData)) in
      mret (Some updated, <[index := updated]> locations)
  end.

Definition deleteLocation (id : string) (locations : list object) : bool * list object :=
  let filtered := List.filter (fun loc => negb (has_id id loc)) locations in
  if (length filtered =? length locations)%nat then (false, locations)
  else (true, filtered).

Definition getEnabledLocations (locations : list object) : list object :=
  List.filter (fun loc => truthy (lookup_field "enabled" loc)) locations.

End Locations.

(* ===================================================================== *)
(** ** [backend/services/alertProcessor.js]: one location *)
(* ===================================================================== *)

Module AlertProcessor.
Import Js Db DuplicateProtection AlertFormatter Errors WebhookService Locations.

(** What [processLocationAlerts] returns; [None] is a field the object does
    not have. *)
Record LocationResult := {
  lr_success : bool;
  lr_location : value;
  lr_fetched : option nat;
  lr_new : option nat;
  lr_sent : option nat;
  lr_failed : option nat;
  lr_message : option string;
  lr_error : option string;
}.

(** [newAlerts.filter((alert, index) => sendResult.results[index]?.success)]. *)
Fixpoint successful (newAlerts : list object) (results : list SendResult) : list object :=
  match newAlerts, results with
  | alert :: rest, result :: results' =>
      if success result then alert :: successful rest results'
      else successful rest results'
  | _, _ => []
  end.

Section Pipeline.
Context `{Runtime}.

Variable webhookUrl : string.
Variable axios_post : string → object → World → PostOutcome.

(** [db.getLocations()]: the content of [locations.json], which this function
    only reads. *)
Variable locations : list object.

(** [weatherFetcher.fetchAlertsForLocation]: the weather API is outside the
    program; what it returns (or throws) for a location is a function of the
    location and of the state at the moment of the request. *)
Variable fetchAlertsForLocation : object → World → Exc value.

(** Process alerts for a specific location only.  The call of
    [db.getEnabledAlertTypes] before the [try] reads [alert-types.json], which
    is not part of the state here; its result only goes to the fetcher. *)
Definition processLocationAlerts (locationId : string) : M LocationResult :=
  match List.find (has_id locationId) locations with (* l => l.id === locationId *)
  | None => throw (Error ("Location not found: " +:+ locationId))
  | Some location =>
      let name := lookup_field "name" location ||| lookup_field "zipCode" location in
      try_catchM
        ((* Fetch alerts *)
         state ← read id;
         rawAlerts ← lift (fetchAlertsForLocation location state);
         (* Format alerts *)
         formattedAlerts ← formatAlerts rawAlerts (VObj location);
         (* Filter duplicates *)
         newAlerts ← filterNewAlerts locationId (Some formattedAlerts);
         if (length newAlerts =? 0)%nat then
           mret {| lr_success := true; lr_location := name;
                   lr_fetched := Some (length formattedAlerts); lr_new := Some 0%nat;
                   lr_sent := Some 0%nat; lr_failed := None;
                   lr_message := Some "No new alerts"; lr_error := None |}
         else
           (* Send to webhook *)
           sendResult ← sendAlertsToWebhook webhookUrl axios_post (Some newAlerts);
           (* Mark successful alerts as sent *)
           let successfulAlerts := successful newAlerts (results sendResult) in
           (if (0 <? length successfulAlerts)%nat
            then markAlertsSent locationId (Some successfulAlerts)
            else mret tt);;
           mret {| lr_success := true; lr_location := name;
                   lr_fetched := Some (length formattedAlerts);
                   lr_new := Some (length newAlerts);
                   lr_sent := Some (sent sendResult);
                   lr_failed := Some (failed sendResult);
                   lr_message := None; lr_error := None |})
        (fun e =>
           mret {| lr_success := false; lr_location := name;
                   lr_fetched := None; lr_new := None; lr_sent := None; lr_failed := None;
                   lr_message := None; lr_error := Some (message_of e) |})
  end.

End Pipeline.

End AlertProcessor.


(** *** Vocabulary of the further statements *)

Module Vocabulary.
Import Js Conditions Db WeatherConditionFetcher.

(** Ids that the ledger keeps as they are and that [includes] finds by
    their content: [null], booleans, numbers and strings.  ([undefined] is
    written to the JSON file as [null]; arrays and objects compare by
    reference.) *)
Definition primitive (v : value) : bool :=
  match v with
  | VNull | VBool _ | VNum _ | VStr _ => true
  | VUndef | VArr _ | VObj _ => false
  end.

(** The task handle and the recorded cron expression of the forecast
    scheduler are set and cleared together. *)
Definition in_sync (w : World) : Prop := forecastTask w = currentForecastCron w.

(** [settings.forecastTime || '07:00']. *)
Definition configured_time (w : World) : string :=
  if String.eqb (forecastTime (settings w)) "" then "07:00" else forecastTime (settings w).

(** The number of ids stored for a key, as the loop of [getStats] reads it. *)
Definition stored_count (m : gmap string LastAlerts) (locId : string) : nat :=
  match m !! locId with
  | Some e => length (alertIds e)
  | None => 0%nat
  end.

(** The JSON files and the scheduler variables are the same in both states;
    only the counters of the clock and of [uuidv4] may differ. *)
Definition same_store (w w' : World) : Prop :=
  settings w' = settings w ∧ lastAlerts w' = lastAlerts w ∧
  lastConditions w' = lastConditions w ∧ logs w' = logs w ∧
  forecastTask w' = forecastTask w ∧ currentForecastCron w' = currentForecastCron w.

(** A computation that writes nothing, whether it returns or throws. *)
Definition read_only {A} (m : M A) : Prop := ∀ w, same_store w (m w).2.

(** The id the provider gave a vendor alert:
    [details.id || rawAlert.id] for [details = rawAlert.details || rawAlert]. *)
Definition native_id (rawAlert : value) : value :=
  let details := get "details" rawAlert ||| rawAlert in
  get "id" details ||| get "id" rawAlert.





(** Whether an object has the key as an own property. *)
Definition has_field (k : string) (o : object) : bool :=
  existsb (fun kv => String.eqb k kv.1) o.

(** The ids of the stored locations, in order. *)
Definition location_ids (locations : list object) : list value :=
  lookup_field "id" <$> locations.

(** The files other than the log, and the scheduler variables, are the same
    in both states: only the log and the counters may differ. *)
Definition only_logged (w w' : World) : Prop :=
  settings w' = settings w ∧ lastAlerts w' = lastAlerts w ∧
  lastConditions w' = lastConditions w ∧
  forecastTask w' = forecastTask w ∧ currentForecastCron w' = currentForecastCron w.

(** Whether a request resolved. *)
Definition is_resolved (o : WebhookService.PostOutcome) : bool :=
  match o with
  | WebhookService.Resolved _ => true
  | WebhookService.Rejected _ _ => false
  end.

End Vocabulary.

(* ===================================================================== *)
(** ** Properties *)
(* ===================================================================== *)

Import Js Conditions Db DuplicateProtection AlertFormatter.
Import WeatherConditionFetcher WeatherConditionProcessor ForecastScheduler Spec.

(** Unfolds the monad operations of [M] and [Exc] and computes. *)
Ltac run :=
  repeat (unfold mbind, mret, M_bind, M_ret, Exc_bind, Exc_ret,
                 read, write, throw, lift, exec, eval; cbn).

(** *** Lists *)

Section Lists.
Context {A : Type}.
Implicit Types l xs ys : list A.

Lemma slice_from_last (k : nat) l :
  (0 < k)%nat → slice_from (- Z.of_nat k) l = lastn k l.
Proof.
  intros Hk. unfold slice_from, lastn.
  destruct (Z.ltb_spec (- Z.of_nat k) 0); [|lia].
  f_equal. lia.
Qed.

Lemma length_lastn k l : length (lastn k l) = (length l `min` k)%nat.
Proof. unfold lastn. rewrite length_drop. lia. Qed.

Lemma lastn_app_lastn k xs ys : lastn k (lastn k xs ++ ys) = lastn k (xs ++ ys).
Proof.
  unfold lastn.
  rewrite <- (drop_app_le xs ys (length xs - k)) by lia.
  rewrite drop_drop. f_equal.
  rewrite length_drop, !length_app. lia.
Qed.

Lemma lastn_all k l : (length l ≤ k)%nat → lastn k l = l.
Proof. intros Hl. unfold lastn. replace (length l - k)%nat with 0%nat by lia. done. Qed.

End Lists.

(** *** The dedup ledger *)

Section Ledger.
Context `{Runtime}.

Lemma includes_elem_of (l : list value) (s : string) :
  includes l (VStr s) = true ↔ VStr s ∈ l.
Proof.
  unfold includes. rewrite existsb_exists. split.
  - intros (y & Hy & Heq). destruct y; try discriminate.
    apply String.eqb_eq in Heq as ->. by apply list_elem_of_In.
  - intros Hin. exists (VStr s). split; [by apply list_elem_of_In|].
    cbn. apply String.eqb_refl.
Qed.

Lemma getLastAlertIds_run loc w :
  getLastAlertIdsForLocation loc w = (Ok (stored_ids w loc), w).
Proof. reflexivity. Qed.

Lemma markAlertsSent_lastAlerts loc (alerts : list object) w :
  lastAlerts (exec (markAlertsSent loc (Some alerts)) w) =
  match alerts with
  | [] => lastAlerts w
  | _ =>
      <[loc := {| alertIds := slice_from (-100) (stored_ids w loc ++ (alert_id <$> alerts));
                  la_updatedAt := iso_string (date_now (clock_reads w)) |}]>
        (lastAlerts w)
  end.
Proof. by destruct alerts. Qed.

Lemma markAlertsSent_stored loc (alerts : list object) w :
  stored_ids (exec (markAlertsSent loc (Some alerts)) w) loc =
  match alerts with
  | [] => stored_ids w loc
  | _ => lastn 100 (stored_ids w loc ++ ids_of alerts)
  end.
Proof.
  unfold stored_ids at 1. rewrite markAlertsSent_lastAlerts.
  destruct alerts as [|a alerts]; [done|].
  rewrite lookup_insert_eq. cbn [alertIds].
  by rewrite <- (slice_from_last 100) by lia.
Qed.

Lemma mark_each_cons loc b batches w :
  mark_each loc (b :: batches) w =
  mark_each loc batches (exec (markAlertsSent loc (Some b)) w).
Proof. reflexivity. Qed.

Lemma mark_each_stored loc batches w :
  (length (stored_ids w loc) ≤ 100)%nat →
  stored_ids (mark_each loc batches w) loc =
  lastn 100 (stored_ids w loc ++ concat (ids_of <$> batches)).
Proof.
  revert w. induction batches as [|b batches IH]; intros w Hw.
  - cbn. rewrite app_nil_r. by rewrite lastn_all.
  - rewrite mark_each_cons, IH.
    + rewrite markAlertsSent_stored. rewrite fmap_cons. cbn [concat].
      destruct b as [|a b].
      * done.
      * rewrite lastn_app_lastn. by rewrite <- app_assoc.
    + rewrite markAlertsSent_stored. destruct b; [done|].
      rewrite length_lastn. lia.
Qed.
End Ledger.

Lemma filter_sublist {A} (f : A → bool) (l : list A) : List.filter f l `sublist_of` l.
Proof.
  induction l as [|a l IH]; cbn; [constructor|].
  destruct (f a); by constructor.
Qed.

(** C1.  For every location and every list of alerts, [filterNewAlerts]
    returns the alerts, in their order, whose [alert_id] the id list stored
    for the location does not contain, and leaves the whole state, the ledger
    included, as it was. *)
Theorem filterNewAlerts_exact (loc : string) (alerts : list object) (w : World) :
  let fresh a := negb (includes (stored_ids w loc) (alert_id a)) in
  filterNewAlerts loc (Some alerts) w = (Ok (List.filter fresh alerts), w) ∧
  List.filter fresh alerts `sublist_of` alerts ∧
  (∀ a, a ∈ List.filter fresh alerts ↔
        a ∈ alerts ∧ includes (stored_ids w loc) (alert_id a) = false) ∧
  (∀ a s, alert_id a = VStr s →
          (a ∈ List.filter fresh alerts ↔ a ∈ alerts ∧ VStr s ∉ stored_ids w loc)).
Proof.
  cbv zeta.
  assert (Hmem : ∀ a, a ∈ List.filter
                        (fun a => negb (includes (stored_ids w loc) (alert_id a))) alerts ↔
                      a ∈ alerts ∧ includes (stored_ids w loc) (alert_id a) = false).
  { intros a. rewrite !list_elem_of_In, filter_In, negb_true_iff. tauto. }
  split; [|split; [apply filter_sublist|split; [exact Hmem|]]].
  - unfold filterNewAlerts. destruct alerts as [|a alerts]; [done|].
    unfold mbind, M_bind. by rewrite getLastAlertIds_run.
  - intros a s Hid. rewrite Hmem, Hid, <- includes_elem_of.
    destruct (includes (stored_ids w loc) (VStr s)); intuition congruence.
Qed.

(** *** C2: marking twice *)

(** After marking [a1] twice from the empty ledger the ledger holds the id
    twice, which is not the state after marking it once. *)
Lemma markAlertsSent_twice_differs :
  let alerts := Some [Reference.sample_alert 1] in
  let rt := Reference.runtime in
  let once := exec (markAlertsSent "loc-1" alerts) Reference.initial_world in
  let twice := exec (markAlertsSent "loc-1" alerts) once in
  stored_ids once "loc-1" = [VStr "alert-1"] ∧
  stored_ids twice "loc-1" = [VStr "alert-1"; VStr "alert-1"] ∧
  stored_ids twice "loc-1" ≠ stored_ids once "loc-1".
Proof.
  cbv zeta. rewrite !markAlertsSent_stored.
  repeat split; [vm_compute; reflexivity .. | vm_compute; discriminate].
Qed.

(** C2 (amended).  [markAlertsSent] does not deduplicate.  For a non-empty
    alert list, one call leaves the ledger at the last 100 of the stored ids
    followed by the ids of the alerts; a second call with the same alerts
    appends the ids again and leaves the last 100 of the stored ids followed
    by the ids twice. *)
Theorem markAlertsSent_twice `{Runtime} (loc : string) (alerts : list object) (w : World) :
  alerts ≠ [] →
  let once := exec (markAlertsSent loc (Some alerts)) w in
  let twice := exec (markAlertsSent loc (Some alerts)) once in
  stored_ids once loc = lastn 100 (stored_ids w loc ++ ids_of alerts) ∧
  stored_ids twice loc = lastn 100 (stored_ids w loc ++ ids_of alerts ++ ids_of alerts).
Proof.
  intros Hne. cbv zeta. rewrite !markAlertsSent_stored.
  destruct alerts as [|a alerts]; [done|]. split; [done|].
  by rewrite lastn_app_lastn, <- app_assoc.
Qed.

Lemma markAlertsSent_twice_witness :
  [Reference.sample_alert 1] ≠ [] ∧
  let rt := Reference.runtime in
  let w := Reference.initial_world in
  let alerts := [Reference.sample_alert 1] in
  let once := exec (markAlertsSent "loc-1" (Some alerts)) w in
  let twice := exec (markAlertsSent "loc-1" (Some alerts)) once in
  stored_ids once "loc-1" = lastn 100 (stored_ids w "loc-1" ++ ids_of alerts) ∧
  stored_ids twice "loc-1" =
    lastn 100 (stored_ids w "loc-1" ++ ids_of alerts ++ ids_of alerts).
Proof.
  split; [discriminate|].
  apply (markAlertsSent_twice (H:=Reference.runtime) "loc-1" [Reference.sample_alert 1]
           Reference.initial_world).
  discriminate.
Defined.

(** *** C3: the ledger is bounded *)

Section LedgerBound.
Context `{Runtime}.

Lemma markAlertsSent_bounded_nonempty loc (alerts : list object) w :
  alerts ≠ [] →
  (length (stored_ids (exec (markAlertsSent loc (Some alerts)) w) loc) ≤ 100)%nat.
Proof.
  intros Hne. rewrite markAlertsSent_stored.
  destruct alerts; [done|]. rewrite length_lastn. lia.
Qed.

Lemma stored_ids_insert loc loc' e w m :
  lastAlerts w = <[loc' := e]> m →
  stored_ids w loc =
  if decide (loc' = loc) then alertIds e
  else match m !! loc with Some e' => alertIds e' | None => [] end.
Proof.
  intros Hw. unfold stored_ids. rewrite Hw, lookup_insert.
  by destruct (decide (loc' = loc)).
Qed.

(** Every ledger entry of a reachable state holds at most 100 ids. *)
Lemma reachable_bounded w loc :
  reachable w → (length (stored_ids w loc) ≤ 100)%nat.
Proof.
  intros Hw. revert loc. induction Hw as
    [w Hw|loc' alerts w _ IH|loc' w _ IH|w _ IH|w w' _ IH Heq]; intros loc.
  - unfold stored_ids. rewrite Hw, lookup_empty. cbn. lia.
  - destruct alerts as [[|a alerts]|]; [apply IH| |apply IH].
    erewrite stored_ids_insert
      by (apply (markAlertsSent_lastAlerts loc' (a :: alerts) w)).
    destruct (decide (loc' = loc)); [|apply IH].
    cbn [alertIds]. rewrite (slice_from_last 100) by lia.
    rewrite length_lastn. lia.
  - erewrite stored_ids_insert by reflexivity.
    destruct (decide (loc' = loc)); [cbn; lia|apply IH].
  - unfold stored_ids. replace (lastAlerts (exec clearAll w)) with (∅ : gmap string LastAlerts)
      by reflexivity.
    rewrite lookup_empty. cbn. lia.
  - unfold stored_ids. rewrite Heq. apply IH.
Qed.

Lemma mark_each_stored_nonempty loc batches w :
  concat (ids_of <$> batches) ≠ [] →
  stored_ids (mark_each loc batches w) loc =
  lastn 100 (stored_ids w loc ++ concat (ids_of <$> batches)).
Proof.
  revert w. induction batches as [|b batches IH]; intros w Hne; [done|].
  rewrite mark_each_cons. rewrite fmap_cons in *. cbn [concat] in *.
  destruct b as [|a b].
  - apply IH. exact Hne.
  - rewrite mark_each_stored
      by (apply markAlertsSent_bounded_nonempty; discriminate).
    rewrite markAlertsSent_stored, lastn_app_lastn. by rewrite <- app_assoc.
Qed.
End LedgerBound.

(** C3.  The ledger holds at most 100 ids per location: in every state the
    service can reach, and after a call of [markAlertsSent] with a non-empty
    alert list whatever was stored before.  When 101 ids are marked sent for
    one location, in batches of any size, the ledger then holds the last 100
    of them in their order: the first one is gone. *)
Theorem ledger_bounded_100 `{Runtime} (loc : string) :
  (∀ w alerts, reachable w →
     (length (stored_ids (exec (markAlertsSent loc alerts) w) loc) ≤ 100)%nat) ∧
  (∀ w alerts, alerts ≠ [] →
     (length (stored_ids (exec (markAlertsSent loc (Some alerts)) w) loc) ≤ 100)%nat) ∧
  (∀ w batches, length (concat (ids_of <$> batches)) = 101%nat →
     stored_ids (mark_each loc batches w) loc = drop 1 (concat (ids_of <$> batches)) ∧
     length (stored_ids (mark_each loc batches w) loc) = 100%nat).
Proof.
  split; [|split].
  - intros w alerts Hw. apply reachable_bounded. by apply reach_mark.
  - intros w alerts Hne. by apply markAlertsSent_bounded_nonempty.
  - intros w batches Hlen.
    assert (Hne : concat (ids_of <$> batches) ≠ []).
    { intros Heq. by rewrite Heq in Hlen. }
    rewrite mark_each_stored_nonempty by done.
    assert (Hdrop : lastn 100 (stored_ids w loc ++ concat (ids_of <$> batches)) =
                    drop 1 (concat (ids_of <$> batches))).
    { unfold lastn. rewrite length_app, Hlen.
      replace (length (stored_ids w loc) + 101 - 100)%nat
        with (length (stored_ids w loc) + 1)%nat by lia.
      by rewrite drop_app_add. }
    rewrite Hdrop. split; [done|]. rewrite length_drop, Hlen. lia.
Qed.

Lemma ledger_bounded_100_witness :
  let rt := Reference.runtime in
  let w := Reference.initial_world in
  reachable w ∧
  (length (stored_ids (exec (markAlertsSent "loc-1" (Some [Reference.sample_alert 0])) w)
             "loc-1") ≤ 100)%nat ∧
  [Reference.sample_alert 0] ≠ [] ∧
  length (concat (ids_of <$> Reference.sample_batches)) = 101%nat ∧
  stored_ids (mark_each "loc-1" Reference.sample_batches w) "loc-1" =
    drop 1 (concat (ids_of <$> Reference.sample_batches)) ∧
  length (stored_ids (mark_each "loc-1" Reference.sample_batches w) "loc-1") = 100%nat.
Proof.
  assert (Hreach : reachable (H:=Reference.runtime) Reference.initial_world)
    by (by apply reach_init).
  destruct (ledger_bounded_100 (H:=Reference.runtime) "loc-1") as (Hinv & Hne & Hscen).
  cbv zeta. split; [exact Hreach|].
  split; [exact (Hinv _ _ Hreach)|].
  split; [discriminate|].
  split; [reflexivity|].
  apply Hscen. reflexivity.
Defined.

(** *** The classifier *)

Section Classifier.
Context `{Runtime}.
Implicit Types (st : Verdict) (r : string) (x : num).

Lemma snoc_not_nil {A} (l : list A) (a : A) : l ++ [a] ≠ [].
Proof. by destruct l. Qed.

Lemma push_bad_coherent r st : coherent (push_bad r st).
Proof. unfold coherent, push_bad. cbn. split; [by intros ?%snoc_not_nil|done]. Qed.

Lemma push_severe_coherent r st : coherent (push_severe r st).
Proof. unfold coherent, push_severe. cbn. split; [by intros ?%snoc_not_nil|done]. Qed.

Lemma push_fair_coherent r st : coherent (push_fair r st).
Proof.
  unfold coherent, push_fair. cbn. split; [by intros ?%snoc_not_nil|].
  by destruct (decide (st.2 = good)).
Qed.

Lemma push_fair_not_severe r st : not_severe st → not_severe (push_fair r st).
Proof. unfold not_severe, push_fair. cbn. by destruct (decide (st.2 = good)). Qed.

Lemma push_fair_bad r st : st.2 = bad → (push_fair r st).2 = bad.
Proof. unfold push_fair. cbn. intros ->. done. Qed.

Create HintDb weather.
#[local] Hint Resolve push_bad_coherent push_severe_coherent push_fair_coherent
  push_fair_not_severe push_fair_bad : weather.



















End Classifier.




(** *** C6: the delivery gate for conditions *)




(** *** C9: the forecast time of day *)

Lemma in_class_enum (lo hi c : ascii) :
  in_class lo hi c = true →
  In c (List.map ascii_of_nat
          (seq (nat_of_ascii lo) (S (nat_of_ascii hi) - nat_of_ascii lo))).
Proof.
  unfold in_class. rewrite andb_true_iff, !Nat.leb_le. intros [Hlo Hhi].
  rewrite <- (ascii_nat_embedding c). apply in_map, in_seq. lia.
Qed.

(** Splits a match of a regular expression into the facts about each
    character. *)
Ltac regex_facts :=
  repeat match goal with
  | H : _ || _ = true |- _ => apply orb_true_iff in H as [H|H]
  | H : _ && _ = true |- _ => apply andb_true_iff in H as [? H]
  | H : false = true |- _ => discriminate H
  | H : Ascii.eqb _ _ = true |- _ => apply Ascii.eqb_eq in H; subst
  end.

(** Replaces a character known to lie in a class by each member in turn. *)
Ltac enumerate_classes :=
  repeat match goal with
  | H : in_class _ _ _ = true |- _ =>
      apply in_class_enum in H; vm_compute in H;
      repeat (destruct H as [<-|H]); [..|contradiction]
  end.

(** What the pattern of [updateForecastTime] accepts, [timeToCron] accepts:
    the accepted strings are [H:MM] and [HH:MM] with the hour in 0..23 and
    the minute in 00..59, checked one by one. *)
Lemma timeRegex_sound (s : string) :
  regex_test timeRegex s = true → time_invalid s = false.
Proof.
  unfold regex_test, timeRegex.
  destruct s as [|c1 [|c2 [|c3 [|c4 [|c5 [|c6 s]]]]]]; cbn [re_match]; intros Hm;
    try discriminate; regex_facts; try discriminate; enumerate_classes;
    vm_compute; reflexivity.
Qed.

(** C9.  ["07:00"] converts to the cron expression ["0 7 * * *"], the daily
    trigger at 07:00.  Every time string whose hour is not a number in 0..23
    or whose minute is not a number in 0..59, as [timeToCron] reads them, is
    rejected by [updateForecastTime] with the validation error, and the
    state, the stored forecast time included, stays as it was. *)
Theorem forecast_time_validated `{Runtime} :
  timeToCron "07:00" = Ok "0 7 * * *" ∧
  ∀ (newTime : string) (w : World),
    time_invalid newTime = true →
    updateForecastTime newTime w = (Throw (Error invalid_time_message), w).
Proof.
  split; [reflexivity|]. intros newTime w Hinv. unfold updateForecastTime.
  destruct (regex_test timeRegex newTime) eqn:Hre; [|reflexivity].
  apply timeRegex_sound in Hre. congruence.
Qed.

Lemma forecast_time_validated_witness :
  let rt := Reference.runtime in
  time_invalid "25:00" = true ∧
  timeToCron "07:00" = Ok "0 7 * * *" ∧
  updateForecastTime "25:00" Reference.initial_world =
    (Throw (Error invalid_time_message), Reference.initial_world).
Proof.
  destruct (forecast_time_validated (H:=Reference.runtime)) as [Hcron Hreject].
  split; [reflexivity|]. split; [exact Hcron|].
  apply Hreject. reflexivity.
Defined.

(** *** C8: timestamps *)

Lemma civil_from_days_range (days : Z) :
  let '(y, m, d) := civil_from_days days in
  1 <= m <= 12 ∧ 1 <= d <= 31.
Proof.
  unfold civil_from_days.
  set (doe := (days + 719468) mod 146097).
  assert (Hdoe : 0 <= doe < 146097) by (apply Z.mod_pos_bound; lia).
  clearbody doe.
  set (yoe := (doe - doe / 1460 + doe / 36524 - doe / 146096) / 365).
  set (doy := doe - (365 * yoe + yoe / 4 - yoe / 100)).
  assert (Hdoy : 0 <= doy <= 365) by (subst doy yoe; Z.div_mod_to_equations; lia).
  clearbody doy.
  set (mp := (5 * doy + 2) / 153).
  assert (Hmp : 0 <= mp <= 11) by (subst mp; Z.div_mod_to_equations; lia).
  assert (Hd : 1 <= doy - (153 * mp + 2) / 5 + 1 <= 31)
    by (subst mp; Z.div_mod_to_equations; lia).
  clearbody mp.
  destruct (Z.ltb_spec mp 10); lia.
Qed.

Lemma digit_char_ok (d : Z) :
  0 <= d < 10 →
  is_digit (digit_char d) = true ∧ digit_val (digit_char d) = d ∧
  Ascii.eqb (digit_char d) "+" = false ∧ Ascii.eqb (digit_char d) "-" = false.
Proof.
  intros Hd.
  assert (Hcases : d = 0 ∨ d = 1 ∨ d = 2 ∨ d = 3 ∨ d = 4 ∨ d = 5 ∨ d = 6 ∨ d = 7 ∨
                   d = 8 ∨ d = 9) by lia.
  repeat (destruct Hcases as [->|Hcases]); try subst d; by vm_compute.
Qed.

Lemma mod10_digit (n : Z) : 0 <= n mod 10 < 10.
Proof. apply Z.mod_pos_bound. lia. Qed.

Lemma is_digit_mod10 (n : Z) : is_digit (digit_char (n mod 10)) = true.
Proof. apply digit_char_ok, mod10_digit. Qed.

Lemma two_digits_pad (n lo hi : Z) :
  0 <= n < 100 → lo <= n <= hi →
  two_digits (digit_char (n / 10 mod 10)) (digit_char (n mod 10)) lo hi = true.
Proof.
  intros Hn Hr. unfold two_digits.
  destruct (digit_char_ok (n / 10 mod 10) (mod10_digit _)) as (-> & -> & _).
  destruct (digit_char_ok (n mod 10) (mod10_digit _)) as (-> & -> & _).
  cbn. apply andb_true_iff. split; apply Z.leb_le; Z.div_mod_to_equations; lia.
Qed.

Lemma iso_after_year_ok (m d ms : Z) :
  1 <= m <= 12 → 1 <= d <= 31 → 0 <= ms < 86400000 →
  iso_after_year
    ("-" +:+ pad2 m +:+ "-" +:+ pad2 d +:+ "T" +:+
     pad2 (ms / 3600000) +:+ ":" +:+ pad2 (ms / 60000 mod 60) +:+ ":" +:+
     pad2 (ms / 1000 mod 60) +:+ "." +:+ pad3 (ms mod 1000) +:+ "Z") = true.
Proof.
  intros Hm Hd Hms. unfold iso_after_year, pad3, pad2.
  cbv [String.append list_ascii_of_string Ascii.eqb Bool.eqb andb].
  rewrite !is_digit_mod10.
  rewrite !two_digits_pad; try done; try lia.
  all: Z.div_mod_to_equations; lia.
Qed.

Lemma iso_string_is_iso8601 (t : Z) : is_iso8601 (iso_string t) = true.
Proof.
  unfold iso_string.
  pose proof (civil_from_days_range (t / 86400000)) as Hr.
  destruct (civil_from_days (t / 86400000)) as [[y m] d]. destruct Hr as [Hm Hd].
  assert (Hms : 0 <= t mod 86400000 < 86400000) by (apply Z.mod_pos_bound; lia).
  pose proof (iso_after_year_ok m d _ Hm Hd Hms) as Htail.
  set (tail := "-" +:+ pad2 m +:+ _) in *. clearbody tail.
  unfold year_string.
  destruct ((0 <=? y) && (y <=? 9999)); [|destruct (y <? 0)].
  - destruct tail as [|x1 [|x2 [|x3 tail]]]; try discriminate Htail.
    unfold pad4, pad3, pad2, is_iso8601. cbv [String.append].
    destruct (digit_char_ok _ (mod10_digit (y / 1000))) as (-> & _ & -> & ->).
    rewrite !is_digit_mod10. exact Htail.
  - unfold pad6, pad4, pad3, pad2, is_iso8601. cbv [String.append].
    rewrite !is_digit_mod10. exact Htail.
  - unfold pad6, pad4, pad3, pad2, is_iso8601. cbv [String.append].
    rewrite !is_digit_mod10. exact Htail.
Qed.

Section Timestamps.
Context `{Runtime}.

Lemma toISOString_parsed (s : string) (t : Z) :
  date_parse s = Some t → toISOString (Some t) = Ok (iso_string t).
Proof. intros Hp. unfold toISOString. by rewrite (date_parse_range s t Hp). Qed.

(** What [formatTimestamp] does on each kind of input. *)
Lemma formatTimestamp_cases (v : value) :
  formatTimestamp v =
  Ok (if negb (truthy v) then VNull else
      match v with
      | VNum n =>
          let ts := if n <? 10000000000 then n * 1000 else n in
          if time_in_range ts then VStr (iso_string ts) else VNull
      | VStr s => from_option (fun t => VStr (iso_string t)) VNull (date_parse s)
      | VArr _ | VObj _ =>
          from_option (fun t => VStr (iso_string t)) VNull (date_parse (to_string v))
      | _ => VStr (iso_string 1)
      end).
Proof.
  unfold formatTimestamp. destruct (truthy v) eqn:Ht; [|done]. cbn [negb].
  destruct v as [| |b|n|s|xs|fs]; try discriminate Ht.
  - destruct b; [|discriminate Ht]. reflexivity.
  - cbn. by destruct (time_in_range _).
  - unfold date_of_value. destruct (date_parse s) as [t|] eqn:Hp; [|done].
    cbn [isNaN negb from_option]. by rewrite (toISOString_parsed s t Hp).
  - unfold date_of_value.
    destruct (date_parse (to_string (VArr xs))) as [t|] eqn:Hp; [|done].
    cbn [isNaN negb from_option]. by rewrite (toISOString_parsed _ t Hp).
  - unfold date_of_value.
    destruct (date_parse (to_string (VObj fs))) as [t|] eqn:Hp; [|done].
    cbn [isNaN negb from_option]. by rewrite (toISOString_parsed _ t Hp).
Qed.

End Timestamps.

(** The epoch itself, the number 0, is below the threshold and would read as
    1970-01-01T00:00:00.000Z in unix seconds; [formatTimestamp] treats it as
    a missing timestamp and returns [null]. *)
Lemma formatTimestamp_zero_is_null :
  let rt := Reference.runtime in
(0 <? 10000000000) = true ∧
  toISOString (Some (0 * 1000)) = Ok "1970-01-01T00:00:00.000Z" ∧
  formatTimestamp (VNum 0) = Ok VNull.
Proof. vm_compute. repeat split; reflexivity. Qed.

(** C8 (amended).  [formatTimestamp] never throws, and its result is [null]
    or an ISO-8601 string.  It returns [null] for every falsy input, the
    number 0 included.  A non-zero number below 10,000,000,000 is read as
    unix seconds and one at or above it as unix milliseconds, and the result
    is the ISO string of that time when it lies in the range of [Date], and
    [null] otherwise.  A non-empty string gives the ISO string of the time
    [Date.parse] reads from it, and [null] when it reads none. *)
Theorem formatTimestamp_total `{Runtime} (v : value) :
  (∃ r, formatTimestamp v = Ok r ∧
        (r = VNull ∨ ∃ s, r = VStr s ∧ is_iso8601 s = true)) ∧
  (truthy v = false → formatTimestamp v = Ok VNull) ∧
  (∀ n, v = VNum n → n ≠ 0 →
     let ts := if n <? 10000000000 then n * 1000 else n in
     formatTimestamp v = Ok (if time_in_range ts then VStr (iso_string ts) else VNull)) ∧
  (∀ s, v = VStr s → s ≠ "" →
     formatTimestamp v =
     Ok (match date_parse s with
         | Some t => VStr (iso_string t)
         | None => VNull
         end)).
Proof.
  rewrite formatTimestamp_cases. split; [|split; [|split]].
  - eexists. split; [reflexivity|].
    destruct (negb (truthy v)); [by left|].
    assert (Hiso : ∀ t, VStr (iso_string t) = VNull ∨
                        ∃ s, VStr (iso_string t) = VStr s ∧ is_iso8601 s = true).
    { intros t. right. eexists. split; [reflexivity|apply iso_string_is_iso8601]. }
    destruct v as [| |b|n|s|xs|fs]; cbv zeta; try apply Hiso.
    + destruct (time_in_range _); [apply Hiso|by left].
    + destruct (date_parse s); [apply Hiso|by left].
    + destruct (date_parse _); [apply Hiso|by left].
    + destruct (date_parse _); [apply Hiso|by left].
  - by intros ->.
  - intros n -> Hn. cbn. by destruct (Z.eqb_spec n 0).
  - intros s -> Hs. cbn. destruct (String.eqb_spec s ""); [done|].
    cbn. by destruct (date_parse s).
Qed.

Lemma formatTimestamp_total_witness :
  let rt := Reference.runtime in
  formatTimestamp VUndef = Ok VNull ∧
  formatTimestamp (VNum 1700000000) = Ok (VStr "2023-11-14T22:13:20.000Z") ∧
  formatTimestamp (VNum 1700000000000) = Ok (VStr "2023-11-14T22:13:20.000Z") ∧
  formatTimestamp (VStr "2023-11-14T22:13:20.000Z") =
    Ok (VStr "2023-11-14T22:13:20.000Z") ∧
  formatTimestamp (VStr "tomorrow") = Ok VNull.
Proof.
  cbv zeta.
  destruct (formatTimestamp_total (H:=Reference.runtime) VUndef) as (_ & Hmissing & _).
  destruct (formatTimestamp_total (H:=Reference.runtime) (VNum 1700000000))
    as (_ & _ & Hsec & _).
  destruct (formatTimestamp_total (H:=Reference.runtime) (VNum 1700000000000))
    as (_ & _ & Hms & _).
  destruct (formatTimestamp_total (H:=Reference.runtime) (VStr "2023-11-14T22:13:20.000Z"))
    as (_ & _ & _ & Hiso).
  destruct (formatTimestamp_total (H:=Reference.runtime) (VStr "tomorrow"))
    as (_ & _ & _ & Hbad).
  split; [by apply Hmissing|].
  split; [by rewrite (Hsec _ eq_refl)|].
  split; [by rewrite (Hms _ eq_refl)|].
  split; [by rewrite (Hiso _ eq_refl)|].
  by rewrite (Hbad _ eq_refl).
Defined.

(** *** Running the formatters *)

Section Running.
Context `{Runtime}.

Lemma bind_Ok_inv {A B} (m : M A) (f : A → M B) w b w' :
  (m ≫= f) w = (Ok b, w') → ∃ a w1, m w = (Ok a, w1) ∧ f a w1 = (Ok b, w').
Proof.
  unfold mbind, M_bind. destruct (m w) as [[a|e] w1]; [eauto|discriminate].
Qed.

Lemma lift_Ok_inv {A} (e : Exc A) w a w' : lift e w = (Ok a, w') → e = Ok a ∧ w' = w.
Proof. unfold lift. by intros [= -> ->]. Qed.

Lemma mret_Ok_inv {A} (a b : A) (w w' : World) :
  (mret a : M A) w = (Ok b, w') → b = a ∧ w' = w.
Proof. unfold mret, M_ret. by intros [= -> ->]. Qed.

Lemma or_elseM_inv (a : value) (m : M value) w v w' :
  or_elseM a m w = (Ok v, w') →
  (truthy a = true ∧ v = a ∧ w' = w) ∨ (truthy a = false ∧ m w = (Ok v, w')).
Proof.
  unfold or_elseM. destruct (truthy a); [|by right].
  intros [-> ->]%mret_Ok_inv. by left.
Qed.

Lemma getE_Ok_inv k v r : getE k v = Ok r → nullish v = false ∧ r = get k v.
Proof. destruct v; cbn; by intros [= <-]. Qed.

Lemma mapM_Ok_inv {A B} (f : A → M B) (l : list A) w bs w' :
  mapM f l w = (Ok bs, w') →
  Forall2 (fun a b => ∃ w1 w2, f a w1 = (Ok b, w2)) l bs.
Proof.
  revert w bs w'. induction l as [|a l IH]; intros w bs w'.
  - intros [-> _]%mret_Ok_inv. constructor.
  - cbn [mapM]. intros (b & w1 & Hb & Hrest)%bind_Ok_inv.
    apply bind_Ok_inv in Hrest as (bs' & w2 & Hbs & [-> _]%mret_Ok_inv).
    constructor; [eauto|]. eapply IH, Hbs.
Qed.

End Running.

(** Takes a successful run apart, bind by bind. *)
Ltac invert_run :=
  repeat match goal with
  | H : mbind _ _ _ = (Ok _, _) |- _ => apply bind_Ok_inv in H as (? & ? & ? & H)
  | H : lift _ _ = (Ok _, _) |- _ => apply lift_Ok_inv in H as [H ->]
  | H : mret _ _ = (Ok _, _) |- _ => apply mret_Ok_inv in H as [-> ->]
  | H : getSettings _ = (Ok _, _) |- _ => apply mret_Ok_inv in H as [-> ->]
  | H : getE _ _ = Ok _ |- _ => apply getE_Ok_inv in H as [? ->]
  end.

(** Membership in a list written out. *)
Ltac member := apply list_elem_of_In; cbn; repeat (first [left; reflexivity | right]).

(** Membership in a list written out, as a hypothesis: one goal per element. *)
Ltac each_member H :=
  apply list_elem_of_In in H; cbn in H; repeat (destruct H as [<-|H]); [..|contradiction].

Section Severity.
Context `{Runtime}.

Lemma table_hit (k : string) (tbl : object) :
  truthy (lookup_field k tbl) = true → lookup_field k tbl ∈ tbl.*2.
Proof.
  induction tbl as [|[k' v] tbl IH]; cbn; [discriminate|].
  destruct (String.eqb k k'); [left|right; auto].
Qed.

Lemma severityMap_values v : v ∈ severityMap.*2 → v ∈ severity_enum ++ vendor_extra.
Proof. intros Hv. each_member Hv; member. Qed.

Lemma textMap_values v : v ∈ textMap.*2 → v ∈ severity_enum ++ vendor_extra.
Proof. intros Hv. each_member Hv; member. Qed.

Lemma mapSeverity_range (v : value) :
  mapSeverity v ∈ severity_enum ++ vendor_extra ∨ mapSeverity v = v.
Proof.
  unfold mapSeverity.
  destruct (negb (truthy v)); [left; member|].
  destruct (truthy (lookup_field _ severityMap)) eqn:Hhit.
  { left. by apply severityMap_values, table_hit. }
  destruct (parseInt (to_string v)) as [n|].
  { left. repeat case_match; member. }
  unfold or_else. destruct (truthy (lookup_field _ textMap)) eqn:Htext.
  - left. by apply textMap_values, table_hit.
  - by right.
Qed.

Lemma mapSeverity_truthy (v : value) : truthy (mapSeverity v) = true.
Proof.
  unfold mapSeverity. destruct (truthy v) eqn:Hv; [|done]. cbn [negb].
  destruct (truthy (lookup_field _ severityMap)) eqn:Hhit; [done|].
  destruct (parseInt (to_string v)) as [n|]; [by repeat case_match|].
  unfold or_else. by destruct (truthy (lookup_field _ textMap)) eqn:Htext.
Qed.

Lemma mapOpenWeatherSeverity_range (tags : value) :
  mapOpenWeatherSeverity tags ∈ severity_enum ∧
  truthy (mapOpenWeatherSeverity tags) = true.
Proof.
  unfold mapOpenWeatherSeverity. split; repeat case_match; first [member|done].
Qed.

Lemma mapNWSSeverity_range (event v : value) :
  mapNWSSeverity event = Ok v → v ∈ severity_enum ∧ truthy v = true.
Proof.
  unfold mapNWSSeverity. intros Hv.
  split; repeat case_match; try discriminate;
    cbv [mret Exc_ret] in Hv; injection Hv as <-; first [member|done].
Qed.

Lemma formatXWeatherAlert_inv raw loc w c w' :
  formatXWeatherAlert raw loc w = (Ok c, w') →
  severity c = mapSeverity (let details := get "details" raw ||| raw in
                            get "significance" details ||| get "priority" details) ∧
  canonical c ∧ nullish loc = false.
Proof.
  unfold formatXWeatherAlert. intros Hrun. invert_run.
  split; [reflexivity|]. split; [|done].
  unfold canonical. cbn. repeat split. apply mapSeverity_truthy.
Qed.

Lemma formatNWSAlert_inv raw loc w c w' :
  formatNWSAlert raw loc w = (Ok c, w') →
  (severity c ∈ severity_enum ∨ severity c = get "severity" raw) ∧
  canonical c ∧ nullish loc = false.
Proof.
  unfold formatNWSAlert. intros Hrun. invert_run.
  match goal with
  | Hsev : or_elseM (get "severity" raw) _ _ = _ |- _ =>
      apply or_elseM_inv in Hsev as [(Ht & -> & ->)|[Ht Hsev]]
  end.
  - split; [by right|]. split; [|done]. unfold canonical. by cbn.
  - invert_run.
    match goal with
    | Hsev : mapNWSSeverity _ = Ok _ |- _ => apply mapNWSSeverity_range in Hsev as [Hin Ht']
    end.
    split; [by left|]. split; [|done]. unfold canonical. by cbn.
Qed.

Lemma formatOpenWeatherMapAlert_inv raw loc w c w' :
  formatOpenWeatherMapAlert raw loc w = (Ok c, w') →
  (severity c ∈ severity_enum ∨ severity c = get "severity" raw) ∧
  canonical c ∧ nullish loc = false.
Proof.
  unfold formatOpenWeatherMapAlert. intros Hrun.
  apply bind_Ok_inv in Hrun as (event & w1 & Hevent & Hrun).
  destruct (truthy event && _); [by eapply formatNWSAlert_inv|].
  invert_run.
  destruct (mapOpenWeatherSeverity_range (get "tags" raw)) as [Hin Ht].
  split; [by left|]. split; [|done]. unfold canonical. by cbn.
Qed.

End Severity.

(** *** C5: the severity of a canonical alert *)




(** *** C4: normalizing a canonical record again *)

Section Renormalize.
Context `{Runtime}.

Lemma formatLocationName_ok (location : value) :
  nullish location = false → ∃ v, formatLocationName location = Ok v.
Proof.
  intros Hl. unfold formatLocationName.
  destruct location; try discriminate Hl; cbn; eauto.
Qed.

(** [generateAlertId] on a canonical record finds no type, timestamp or zone
    and falls back to the clock. *)
Lemma generateAlertId_canonical (c : object) (w : World) :
  canonical c →
  generateAlertId (VObj c) w =
  (Ok (VStr (generated_id (date_now (clock_reads w)))), tick_clock w).
Proof.
  intros (Hdetails & _ & Htype & Hstamp & Hzone & _).
  unfold generateAlertId. cbn [get]. rewrite Hdetails. cbn [or_else truthy get].
  rewrite Htype, Hstamp, Hzone. reflexivity.
Qed.

Lemma bind_run {A B} (m : M A) (f : A → M B) w a w1 :
  m w = (Ok a, w1) → (m ≫= f) w = f a w1.
Proof. unfold mbind, M_bind. by intros ->. Qed.

Lemma or_elseM_truthy (a : value) (m : M value) w :
  truthy a = true → or_elseM a m w = (Ok a, w).
Proof. unfold or_elseM. by intros ->. Qed.

Lemma or_elseM_lift_ok (a v : value) (e : Exc value) w :
  e = Ok v → ∃ r, or_elseM a (lift e) w = (Ok r, w).
Proof. intros ->. unfold or_elseM. destruct (truthy a); eauto. Qed.

Lemma getE_ok k (v : value) w :
  nullish v = false → lift (getE k v) w = (Ok (get k v), w).
Proof. by destruct v. Qed.

Lemma formatNWSAlert_canonical (c : object) (location : value) (w : World) :
  canonical c → nullish location = false →
  ∃ c', formatNWSAlert (VObj c) location w = (Ok c', tick_clock w) ∧
        alert_id c' = VStr (generated_id (date_now (clock_reads w))).
Proof.
  intros Hc Hl. pose proof (generateAlertId_canonical c w Hc) as Hgen.
  destruct Hc as (_ & Hid & _ & _ & _ & _ & _ & _ & Hsev).
  destruct (formatLocationName_ok location Hl) as [name Hname].
  destruct (or_elseM_lift_ok (lookup_field "areaDesc" c) name _ (tick_clock w) Hname)
    as [area Harea].
  destruct (or_elseM_lift_ok (lookup_field "locationName" c) name _ (tick_clock w) Hname)
    as [loc Hloc].
  unfold formatNWSAlert. cbn [get]. rewrite Hid.
  erewrite bind_run by exact Hgen.
  erewrite bind_run by (apply or_elseM_truthy, Hsev).
  erewrite bind_run by exact Harea.
  erewrite bind_run by exact Hloc.
  erewrite bind_run by (by apply getE_ok).
  eexists. split; reflexivity.
Qed.

Lemma formatOpenWeatherMapAlert_canonical (c : object) (location : value) (w : World) :
  canonical c → nullish location = false →
  ∃ c', formatOpenWeatherMapAlert (VObj c) location w = (Ok c', tick_clock w) ∧
        alert_id c' = VStr (generated_id (date_now (clock_reads w))).
Proof.
  intros Hc Hl. unfold formatOpenWeatherMapAlert.
  erewrite bind_run by (by apply getE_ok).
  destruct (truthy _ && _); [by apply formatNWSAlert_canonical|].
  pose proof (generateAlertId_canonical c w Hc) as Hgen.
  destruct Hc as (_ & _ & _ & _ & _ & _ & Hstart & Hend & _).
  destruct (formatLocationName_ok location Hl) as [name Hname].
  destruct (or_elseM_lift_ok (lookup_field "sender_name" c) name _ (tick_clock w) Hname)
    as [area Harea].
  cbn [get]. rewrite Hstart, Hend.
  erewrite bind_run by reflexivity.
  erewrite bind_run by reflexivity.
  erewrite bind_run by exact Hgen.
  erewrite bind_run by exact Harea.
  erewrite bind_run by (by rewrite Hname).
  erewrite bind_run by (by apply getE_ok).
  eexists. split; reflexivity.
Qed.

Lemma formatArea_empty_ok (location : value) :
  nullish location = false → ∃ v, formatArea (VArr []) location = Ok v.
Proof. intros Hl. destruct location; try discriminate Hl; cbn; eauto. Qed.

Lemma formatXWeatherAlert_canonical (c : object) (location : value) (w : World) :
  canonical c → nullish location = false →
  ∃ c', formatXWeatherAlert (VObj c) location w = (Ok c', tick_clock w) ∧
        alert_id c' = VStr (generated_id (date_now (clock_reads w))).
Proof.
  intros Hc Hl. pose proof (generateAlertId_canonical c w Hc) as Hgen.
  destruct Hc as (Hdetails & Hid & _ & Hstamp & Hzone & Hareas & _).
  destruct (formatLocationName_ok location Hl) as [name Hname].
  unfold formatXWeatherAlert.
  erewrite bind_run by (by apply getE_ok).
  cbn [get]. rewrite Hdetails. cbn [or_else truthy get lookup_field].
  rewrite Hid, Hzone, Hareas, Hstamp. cbn [or_else truthy].
  destruct (formatArea_empty_ok location Hl) as [area Harea].
  rewrite !formatTimestamp_cases, Harea, Hname.
  erewrite bind_run by exact Hgen.
  do 5 (erewrite bind_run by reflexivity).
  erewrite bind_run by (by apply getE_ok).
  erewrite bind_run by reflexivity.
  eexists. split; reflexivity.
Qed.

(** The first normalization yields a canonical record and has read the
    location. *)
Lemma formatAlerts_single_inv (raw location : value) (w w1 : World) (c : object) :
  formatAlerts (VArr [raw]) location w = (Ok [c], w1) →
  canonical c ∧ nullish location = false.
Proof.
  unfold formatAlerts. intros Hrun.
  apply bind_Ok_inv in Hrun as (st & w' & _ & Hrun).
  apply mapM_Ok_inv in Hrun. apply Forall2_cons_1 in Hrun as [(w2 & w3 & Hc) _].
  cbv beta in Hc. destruct (String.eqb _ "openweathermap").
  - by apply formatOpenWeatherMapAlert_inv in Hc as (_ & ? & ?).
  - by apply formatXWeatherAlert_inv in Hc as (_ & ? & ?).
Qed.

Lemma formatAlerts_canonical (c : object) (location : value) (w : World) :
  canonical c → nullish location = false →
  ∃ c', formatAlerts (VArr [VObj c]) location w = (Ok [c'], tick_clock w) ∧
        alert_id c' = VStr (generated_id (date_now (clock_reads w))).
Proof.
  intros Hc Hl. unfold formatAlerts.
  erewrite bind_run by reflexivity. cbn [mapM].
  destruct (String.eqb _ "openweathermap").
  - destruct (formatOpenWeatherMapAlert_canonical c location w Hc Hl) as (c' & Hrun & Hid).
    exists c'. split; [|done]. by erewrite bind_run by exact Hrun.
  - destruct (formatXWeatherAlert_canonical c location w Hc Hl) as (c' & Hrun & Hid).
    exists c'. split; [|done]. by erewrite bind_run by exact Hrun.
Qed.

End Renormalize.

(** A vendor alert with the native id [abc] is normalized to a record with
    [alert_id = "abc"]; that record, normalized again, gets an id generated
    from the clock. *)
Lemma renormalized_id_differs :
  let rt := Reference.runtime in
  let raw := VObj [("id", VStr "abc"); ("details", VObj [("significance", VStr "f")])] in
  let location := VObj [("id", VStr "loc-1"); ("name", VStr "NYC")] in
  let w := Reference.initial_world in
  let first := eval (formatAlerts (VArr [raw]) location) w in
  let second :=
    eval (cs ← formatAlerts (VArr [raw]) location;
          formatAlerts (VArr (VObj <$> cs)) location) w in
  map_ok (fmap alert_id) first = Ok [VStr "abc"] ∧
  map_ok (fmap alert_id) second = Ok [VStr "dW5rbm93bi0xNzAwMDAwMDAw"] ∧
  map_ok (fmap alert_id) second ≠ map_ok (fmap alert_id) first.
Proof. vm_compute. repeat split; [reflexivity..|discriminate]. Qed.

(** C4 (amended).  The normalizer does not recognise its own output: it reads
    the provider's id from [id] (or [details.id]), never from [alert_id].
    Whenever a raw alert is normalized to a canonical record, normalizing that
    record again succeeds, in any later state and under either provider
    setting, and gives it the generated id, the first 24 base64 characters of
    [unknown-<now>-] for the clock reading of that moment, whatever the first
    [alert_id] was. *)
Theorem renormalized_id_generated `{Runtime} (raw location : value) (w w1 : World)
    (c : object) :
  formatAlerts (VArr [raw]) location w = (Ok [c], w1) →
  ∀ w2, ∃ c',
    formatAlerts (VArr [VObj c]) location w2 = (Ok [c'], tick_clock w2) ∧
    alert_id c' = VStr (generated_id (date_now (clock_reads w2))).
Proof.
  intros Hfirst w2.
  apply formatAlerts_single_inv in Hfirst as [Hc Hl].
  by apply formatAlerts_canonical.
Qed.

Lemma renormalized_id_generated_witness :
  let rt := Reference.runtime in
  let raw := VObj [("id", VStr "abc"); ("details", VObj [("significance", VStr "f")])] in
  let location := VObj [("id", VStr "loc-1"); ("name", VStr "NYC")] in
  let w := Reference.initial_world in
  match formatAlerts (VArr [raw]) location w with
  | (Ok [c], w1) =>
      alert_id c = VStr "abc" ∧
      ∃ c', formatAlerts (VArr [VObj c]) location w1 = (Ok [c'], tick_clock w1) ∧
            alert_id c' = VStr (generated_id (date_now (clock_reads w1)))
  | _ => False
  end.
Proof.
  cbv zeta.
  destruct (formatAlerts (H:=Reference.runtime) _ _ _) as [[[|c [|c2 cs]]|e] w1] eqn:Hrun;
    try (vm_compute in Hrun; discriminate Hrun).
  split.
  - vm_compute in Hrun. by injection Hrun as <- <-.
  - exact (renormalized_id_generated (H:=Reference.runtime) _ _ _ _ _ Hrun w1).
Defined.

(* ===================================================================== *)
(** ** Further properties *)
(* ===================================================================== *)

Import Errors DuplicateProtectionMore ForecastSchedulerMore Scheduler Vocabulary.

(** *** The ledger between calls *)

Section LedgerUse.
Context `{Runtime}.

Lemma filterNewAlerts_run loc (alerts : list object) w :
  filterNewAlerts loc (Some alerts) w =
  (Ok (List.filter (fun a => negb (includes (stored_ids w loc) (alert_id a))) alerts), w).
Proof. by destruct alerts. Qed.

Lemma same_value_zero_refl (v : value) : primitive v = true → same_value_zero v v = true.
Proof.
  destruct v as [| |b|n|s|xs|fs]; cbn; try done; intros _.
  - by destruct b.
  - apply Z.eqb_refl.
  - apply String.eqb_refl.
Qed.

Lemma includes_primitive (l : list value) (v : value) :
  primitive v = true → v ∈ l → includes l v = true.
Proof.
  intros Hp Hin. unfold includes. apply existsb_exists.
  exists v. split; [by apply list_elem_of_In|by apply same_value_zero_refl].
Qed.

Lemma lastn_app_short {A} (k : nat) (xs ys : list A) :
  (length ys ≤ k)%nat → ∃ xs', lastn k (xs ++ ys) = xs' ++ ys.
Proof.
  intros Hk. exists (drop (length xs + length ys - k) xs).
  unfold lastn. rewrite length_app. by rewrite drop_app_le by lia.
Qed.

Lemma filter_none {A} (f : A → bool) (l : list A) :
  Forall (fun a => f a = false) l → List.filter f l = [].
Proof. induction 1 as [|a l Ha _ IH]; cbn; [done|]. by rewrite Ha. Qed.

Lemma filter_all {A} (f : A → bool) (l : list A) :
  Forall (fun a => f a = true) l → List.filter f l = l.
Proof. induction 1 as [|a l Ha _ IH]; cbn; [done|]. by rewrite Ha, IH. Qed.

End LedgerUse.

(** X1.  Alerts that were just marked as sent are all filtered out: for at
    most 100 alerts whose ids are strings, numbers, booleans or [null],
    marking them
    and then filtering the same list returns the empty list, whatever the
    ledger held before. *)
Theorem marked_then_filtered `{Runtime} (loc : string) (alerts : list object) (w : World) :
  (length alerts ≤ 100)%nat →
  Forall (fun a => primitive (alert_id a) = true) alerts →
  filterNewAlerts loc (Some alerts) (exec (markAlertsSent loc (Some alerts)) w) =
  (Ok [], exec (markAlertsSent loc (Some alerts)) w).
Proof.
  intros Hlen Hprim. rewrite filterNewAlerts_run. f_equal. f_equal.
  apply filter_none. rewrite markAlertsSent_stored.
  destruct alerts as [|a0 alerts0] eqn:Halerts; [constructor|]. rewrite <- Halerts in *.
  clear Halerts a0 alerts0.
  destruct (lastn_app_short 100 (stored_ids w loc) (ids_of alerts)) as [old ->].
  { unfold ids_of. by rewrite length_fmap. }
  apply Forall_forall. intros a Ha. apply negb_false_iff, includes_primitive.
  - rewrite Forall_forall in Hprim. by apply Hprim.
  - apply elem_of_app. right. unfold ids_of. by apply list_elem_of_fmap_2.
Qed.

Lemma marked_then_filtered_witness :
  let rt := Reference.runtime in
  let alerts := [Reference.sample_alert 1; Reference.sample_alert 2] in
  let w := Reference.initial_world in
  (length alerts ≤ 100)%nat ∧
  Forall (fun a => primitive (alert_id a) = true) alerts ∧
  filterNewAlerts "loc-1" (Some alerts) (exec (markAlertsSent "loc-1" (Some alerts)) w) =
  (Ok [], exec (markAlertsSent "loc-1" (Some alerts)) w).
Proof.
  cbv zeta.
  assert (Hlen : (length [Reference.sample_alert 1; Reference.sample_alert 2] ≤ 100)%nat)
    by (cbn; lia).
  assert (Hprim : Forall (fun a => primitive (alert_id a) = true)
                    [Reference.sample_alert 1; Reference.sample_alert 2])
    by (repeat constructor).
  split; [exact Hlen|]. split; [exact Hprim|].
  exact (marked_then_filtered (H:=Reference.runtime) "loc-1" _ _ Hlen Hprim).
Defined.

Section LedgerOverflow.
Context `{Runtime}.

Lemma same_value_zero_eq (x y : value) : same_value_zero x y = true → x = y.
Proof.
  destruct x, y; cbn; try discriminate; try done.
  - intros Hb. f_equal. by apply Bool.eqb_prop.
  - intros Hn. f_equal. by apply Z.eqb_eq.
  - intros Hs. f_equal. by apply String.eqb_eq.
Qed.

Lemma includes_elem (l : list value) (v : value) : includes l v = true → v ∈ l.
Proof.
  unfold includes. intros (y & Hy & Heq)%existsb_exists.
  pose proof (same_value_zero_eq _ _ Heq) as ->. by apply list_elem_of_In.
Qed.

Lemma lastn_app_long {A} (k : nat) (xs ys : list A) :
  (k ≤ length ys)%nat → lastn k (xs ++ ys) = drop (length ys - k) ys.
Proof.
  intros Hk. unfold lastn. rewrite length_app.
  replace (length xs + length ys - k)%nat with (length xs + (length ys - k))%nat by lia.
  by rewrite drop_app_add.
Qed.

End LedgerOverflow.

(** X2.  A batch of more than 100 alerts forgets its own oldest members: when
    [n > 100] alerts with pairwise distinct primitive ids are marked in one
    call, filtering the same list afterwards returns its first [n - 100]
    alerts as new again. *)
Theorem oversized_batch_forgets `{Runtime} (loc : string) (alerts : list object) (w : World) :
  (100 < length alerts)%nat →
  NoDup (ids_of alerts) →
  Forall (fun a => primitive (alert_id a) = true) alerts →
  filterNewAlerts loc (Some alerts) (exec (markAlertsSent loc (Some alerts)) w) =
  (Ok (take (length alerts - 100) alerts), exec (markAlertsSent loc (Some alerts)) w).
Proof.
  intros Hlen Hnd Hprim. rewrite filterNewAlerts_run. f_equal. f_equal.
  rewrite markAlertsSent_stored.
  destruct alerts as [|a0 alerts0] eqn:Halerts; [cbn in Hlen; lia|].
  rewrite <- Halerts in *. clear Halerts a0 alerts0.
  rewrite lastn_app_long by (unfold ids_of; rewrite length_fmap; lia).
  unfold ids_of in *. rewrite length_fmap, <- fmap_drop.
  set (m := (length alerts - 100)%nat) in *.
  rewrite <- (take_drop m alerts) in Hnd, Hprim.
  rewrite fmap_app in Hnd. apply NoDup_app in Hnd as (_ & Hdisj & _).
  apply Forall_app in Hprim as [Hp1 Hp2].
  rewrite <- (take_drop m alerts) at 1. rewrite List.filter_app.
  rewrite filter_all, filter_none, app_nil_r; [done| |].
  - apply Forall_forall. intros a Ha. apply negb_false_iff, includes_primitive.
    + rewrite Forall_forall in Hp2. by apply Hp2.
    + by apply list_elem_of_fmap_2.
  - apply Forall_forall. intros a Ha. apply negb_true_iff.
    destruct (includes _ _) eqn:Hinc; [|done].
    apply includes_elem in Hinc as Hin.
    destruct (Hdisj (alert_id a)); [by apply list_elem_of_fmap_2|done].
Qed.

Lemma oversized_batch_forgets_witness :
  let rt := Reference.runtime in
  let alerts := Reference.sample_alert <$> seq 0 101 in
  let w := Reference.initial_world in
  (100 < length alerts)%nat ∧
  filterNewAlerts "loc-1" (Some alerts) (exec (markAlertsSent "loc-1" (Some alerts)) w) =
  (Ok (take (length alerts - 100) alerts), exec (markAlertsSent "loc-1" (Some alerts)) w).
Proof.
  cbv zeta. split; [vm_compute; lia|].
  apply (oversized_batch_forgets (H:=Reference.runtime)).
  - vm_compute. lia.
  - assert (Hinj : Inj (=) (=) VStr) by (by intros s1 s2 [= ->]).
    replace (ids_of (Reference.sample_alert <$> seq 0 101))
      with (VStr <$> ((fun k => "alert-" +:+ pretty k) <$> seq 0 101))
      by (vm_compute; reflexivity).
    apply (NoDup_fmap_2 VStr). refine (bool_decide_unpack _ _). vm_compute. exact I.
  - apply Forall_forall. intros a (k & -> & _)%list_elem_of_fmap. reflexivity.
Defined.

(** X3.  Resetting forgets delivered alerts: after [clearForLocation] every
    alert of that location counts as new again while the ledgers of the other
    locations are as before, and after [clearAll] every alert of every
    location counts as new. *)
Theorem clearing_resets `{Runtime} (loc : string) (w : World) :
  (∀ alerts, eval (filterNewAlerts loc (Some alerts)) (exec (clearForLocation loc) w)
             = Ok alerts) ∧
  (∀ loc', loc' ≠ loc →
           stored_ids (exec (clearForLocation loc) w) loc' = stored_ids w loc') ∧
  (∀ loc' alerts, eval (filterNewAlerts loc' (Some alerts)) (exec clearAll w) = Ok alerts).
Proof.
  assert (Hfresh : ∀ (alerts : list object),
            List.filter (fun a => negb (includes [] (alert_id a))) alerts = alerts).
  { intros alerts. apply filter_all, Forall_forall. by intros a _. }
  split; [|split].
  - intros alerts. unfold eval. rewrite filterNewAlerts_run. cbn [fst].
    erewrite stored_ids_insert by reflexivity.
    rewrite decide_True by done. cbn [alertIds]. by rewrite Hfresh.
  - intros loc' Hne. erewrite stored_ids_insert by reflexivity.
    by rewrite decide_False by done.
  - intros loc' alerts. unfold eval. rewrite filterNewAlerts_run. cbn [fst].
    replace (stored_ids (exec clearAll w) loc') with (@nil value); [by rewrite Hfresh|].
    unfold stored_ids.
    replace (lastAlerts (exec clearAll w)) with (∅ : gmap string LastAlerts) by reflexivity.
    by rewrite lookup_empty.
Qed.

(** X4.  [markAlertsSent] writes one ledger entry and one log line: the
    ledgers of all other locations, the settings, the stored conditions and
    the forecast scheduler are as before. *)
Theorem markAlertsSent_frame `{Runtime} (loc : string) (alerts : option (list object))
    (w : World) :
  let w' := exec (markAlertsSent loc alerts) w in
  (∀ loc', loc' ≠ loc → stored_ids w' loc' = stored_ids w loc') ∧
  settings w' = settings w ∧ lastConditions w' = lastConditions w ∧
  forecastTask w' = forecastTask w ∧ currentForecastCron w' = currentForecastCron w.
Proof.
  cbv zeta. destruct alerts as [[|a alerts]|]; try done.
  split; [|done]. intros loc' Hne.
  erewrite stored_ids_insert by (apply (markAlertsSent_lastAlerts loc (a :: alerts) w)).
  by rewrite decide_False by done.
Qed.

(** *** Logs *)

Section Logs.
Context `{Runtime}.

Lemma lastn_app_lastn_wide {A} (k j : nat) (xs ys : list A) :
  (k ≤ j + length ys)%nat → lastn k (lastn j xs ++ ys) = lastn k (xs ++ ys).
Proof.
  intros Hk. unfold lastn.
  rewrite <- (drop_app_le xs ys (length xs - j)) by lia.
  rewrite drop_drop. f_equal.
  rewrite length_drop, !length_app. lia.
Qed.

Lemma lastn_snoc_last {A} (k : nat) (xs : list A) (x : A) :
  (0 < k)%nat → last (lastn k (xs ++ [x])) = Some x.
Proof.
  intros Hk. unfold lastn. rewrite length_app. cbn [length].
  rewrite drop_app_le by lia. apply last_snoc.
Qed.

Lemma slice_from_zero {A} (l : list A) : slice_from 0 l = l.
Proof.
  unfold slice_from. cbn. by replace (Z.to_nat (0 `min` Z.of_nat (length l))) with 0%nat by lia.
Qed.

(** The entry [addLog] builds in the state [w]. *)
Lemma addLog_run (e : LogInput) (w : World) :
  let k := maxLogsToKeep (settings w) in
  let entry :=
    {| log_id := uuidv4 (uuid_draws w);
       log_timestamp := iso_string (date_now (clock_reads w));
       log_type := if String.eqb (in_type e) "" then "info" else in_type e;
       log_action := in_action e;
       log_message := in_message e;
       log_details := in_details e ||| VNull |} in
  eval (addLog e) w = Ok entry ∧
  logs (exec (addLog e) w) =
    slice_from (- k) (slice_from (- (k * 2)) (logs w) ++ [entry]).
Proof. done. Qed.

End Logs.

(** X5.  The log keeps the newest entries.  With [maxLogsToKeep = k > 0] the
    log after [addLog] is the last [k] entries of the old log followed by the
    new entry, so it holds at most [k] entries and ends with the new one.
    With [maxLogsToKeep = 0] nothing is ever trimmed: the new entry is
    appended to the whole old log. *)
Theorem addLog_retention `{Runtime} (e : LogInput) (w : World) :
  let k := maxLogsToKeep (settings w) in
  ∃ entry,
    eval (addLog e) w = Ok entry ∧
    log_action entry = in_action e ∧ log_message entry = in_message e ∧
    (0 < k →
       logs (exec (addLog e) w) = lastn (Z.to_nat k) (logs w ++ [entry]) ∧
       (length (logs (exec (addLog e) w)) ≤ Z.to_nat k)%nat ∧
       last (logs (exec (addLog e) w)) = Some entry) ∧
    (k = 0 → logs (exec (addLog e) w) = logs w ++ [entry]).
Proof.
  cbv zeta. destruct (addLog_run e w) as [Heval Hlogs]. cbv zeta in Heval, Hlogs.
  eexists. split; [exact Heval|]. split; [done|]. split; [done|].
  rewrite Hlogs. clear Heval Hlogs.
  set (k := maxLogsToKeep (settings w)). split.
  - intros Hk.
    assert (Hshape : ∀ entry : LogEntry,
              slice_from (- k) (slice_from (- (k * 2)) (logs w) ++ [entry]) =
              lastn (Z.to_nat k) (logs w ++ [entry])).
    { intros entry.
      replace (- k) with (- Z.of_nat (Z.to_nat k)) by lia.
      replace (- (k * 2)) with (- Z.of_nat (Z.to_nat (k * 2))) by lia.
      rewrite !slice_from_last by lia.
      apply lastn_app_lastn_wide. lia. }
    rewrite Hshape. split; [done|]. split.
    + rewrite length_lastn. lia.
    + apply lastn_snoc_last. lia.
  - intros ->. cbn [Z.opp Z.mul]. by rewrite !slice_from_zero.
Qed.

(** *** Statistics of the ledger *)

Section Stats.
Context `{Runtime}.

Lemma stats_loop (m : gmap string LastAlerts) (keys : list string)
    (total : nat) (per : gmap string nat) :
  let '(total', per') :=
    foldl (fun '(total, per) locId =>
             let count := match m !! locId with
                          | Some e => length (alertIds e)
                          | None => 0%nat
                          end in
             ((total + count)%nat, <[locId := count]> per))
          (total, per) keys in
  total' = (total + sum_list (stored_count m <$> keys))%nat ∧
  ∀ loc, per' !! loc = if decide (loc ∈ keys) then Some (stored_count m loc) else per !! loc.
Proof.
  revert total per. induction keys as [|k keys IH]; intros total per.
  - cbn. split; [lia|]. intros loc. by rewrite decide_False by apply not_elem_of_nil.
  - cbn [foldl]. specialize (IH (total + stored_count m k)%nat (<[k := stored_count m k]> per)).
    unfold stored_count at 1 2 in IH.
    destruct (foldl _ _ keys) as [total' per']. destruct IH as [-> Hper].
    split. { rewrite fmap_cons. cbn. lia. }
    intros loc. rewrite Hper.
    destruct (decide (loc ∈ keys)) as [Hin|Hnin].
    + by rewrite decide_True by (by right).
    + rewrite lookup_insert. destruct (decide (k = loc)) as [->|Hne].
      * by rewrite decide_True by (by left).
      * rewrite decide_False; [done|]. intros [->|Hin]%elem_of_cons; contradiction.
Qed.

Lemma sum_list_bounded (l : list nat) (b : nat) :
  Forall (fun n => (n ≤ b)%nat) l → (sum_list l ≤ b * length l)%nat.
Proof. induction 1 as [|n l Hn _ IH]; cbn; lia. Qed.

End Stats.

(** X6.  [getStats] reads the ledger without changing anything: it counts
    the locations that have an entry, reports for each of them the number of
    stored ids, and their sum as the total.  In every state the service can
    reach the total is at most 100 per tracked location. *)
Theorem getStats_totals `{Runtime} (w : World) :
  ∃ st,
    getStats w = (Ok st, w) ∧
    locationsTracked st = size (lastAlerts w) ∧
    (∀ loc, perLocation st !! loc = (fun e => length (alertIds e)) <$> lastAlerts w !! loc) ∧
    totalStoredIds st =
      sum_list ((fun kv => length (alertIds kv.2)) <$> map_to_list (lastAlerts w)) ∧
    (reachable w → (totalStoredIds st ≤ 100 * locationsTracked st)%nat).
Proof.
  unfold getStats, getLastAlerts. run.
  pose proof (stats_loop (lastAlerts w) (map_to_list (lastAlerts w)).*1 0 ∅) as Hloop.
  destruct (foldl _ _ _) as [total per]. destruct Hloop as [Htotal Hper].
  eexists. split; [reflexivity|]. cbn.
  assert (Hkeys : ∀ loc, loc ∈ (map_to_list (lastAlerts w)).*1 ↔ is_Some (lastAlerts w !! loc)).
  { intros loc. rewrite list_elem_of_fmap. split.
    - intros ([k e] & -> & Hin). apply elem_of_map_to_list in Hin. by exists e.
    - intros [e He]. exists (loc, e). split; [done|]. by apply elem_of_map_to_list. }
  split; [by rewrite length_fmap, length_map_to_list|].
  split; [|split].
  - intros loc. rewrite Hper. unfold stored_count.
    destruct (decide _) as [Hin|Hnin].
    + apply Hkeys in Hin as [e ->]. done.
    + rewrite lookup_empty. destruct (lastAlerts w !! loc) as [e|] eqn:He; [|done].
      destruct Hnin. apply Hkeys. by exists e.
  - rewrite Htotal. cbn. rewrite <- list_fmap_compose. f_equal.
    apply list_fmap_ext_ne || apply list_fmap_ext. intros i [k e] Hi. cbn.
    unfold stored_count.
    apply list_elem_of_lookup_2, elem_of_map_to_list in Hi. by rewrite Hi.
  - intros Hreach. rewrite Htotal. cbn.
    etransitivity; [apply (sum_list_bounded _ 100)|by rewrite !length_fmap].
    apply Forall_fmap, Forall_forall. intros loc _. cbn.
    pose proof (reachable_bounded w loc Hreach) as Hb.
    unfold stored_ids in Hb. unfold stored_count.
    by destruct (lastAlerts w !! loc).
Qed.

(** *** The protected run *)

Section ProtectedRun.
Context `{Runtime}.

(** [addLog] never throws and writes the log and the two counters only. *)
Lemma addLog_frame (e : LogInput) (w : World) :
  ∃ entry w', addLog e w = (Ok entry, w') ∧
    settings w' = settings w ∧ lastAlerts w' = lastAlerts w ∧
    lastConditions w' = lastConditions w ∧
    forecastTask w' = forecastTask w ∧ currentForecastCron w' = currentForecastCron w.
Proof.
  unfold addLog, getSettings, getLogs, fresh_uuid, now_iso, now. run.
  eexists _, _. split; [reflexivity|]. repeat split.
Qed.

Lemma markAlertsSent_run loc (alerts : option (list object)) w :
  markAlertsSent loc alerts w = (Ok tt, exec (markAlertsSent loc alerts) w).
Proof. by destruct alerts as [[|a alerts]|]. Qed.

Lemma filter_length_le {A} (f : A → bool) (l : list A) :
  (length (List.filter f l) ≤ length l)%nat.
Proof. induction l as [|a l IH]; cbn; [done|]. destruct (f a); cbn; lia. Qed.

Lemma stored_ids_ext (w w' : World) loc :
  lastAlerts w' = lastAlerts w → stored_ids w' loc = stored_ids w loc.
Proof. unfold stored_ids. by intros ->. Qed.

(** The three ways through [processWithDuplicateProtection]. *)
Lemma protected_run_cases loc (alerts : list object) (cb : list object → M unit) w :
  let new := List.filter (fun a => negb (includes (stored_ids w loc) (alert_id a))) alerts in
  match new with
  | [] =>
      processWithDuplicateProtection loc (Some alerts) cb w =
      (Ok {| processed := 0; skipped := length alerts; success := true; error := None |}, w)
  | _ :: _ =>
      match cb new w with
      | (Ok _, w1) =>
          processWithDuplicateProtection loc (Some alerts) cb w =
          (Ok {| processed := length new; skipped := length alerts - length new;
                 success := true; error := None |},
           exec (markAlertsSent loc (Some new)) w1)
      | (Throw e, w1) =>
          ∃ w', processWithDuplicateProtection loc (Some alerts) cb w =
                (Ok {| processed := 0; skipped := length alerts; success := false;
                       error := Some (message_of e) |}, w') ∧
                lastAlerts w' = lastAlerts w1
      end
  end.
Proof.
  cbv zeta. unfold processWithDuplicateProtection.
  rewrite (bind_run _ _ _ _ _ (filterNewAlerts_run loc alerts w)).
  destruct (List.filter _ alerts) as [|a new] eqn:Hnew; [done|].
  cbn [length Nat.eqb]. unfold try_catchM.
  destruct (cb (a :: new) w) as [[[]|e] w1] eqn:Hcb.
  - rewrite (bind_run _ _ _ _ _ Hcb).
    by rewrite (bind_run _ _ _ _ _ (markAlertsSent_run loc (Some (a :: new)) w1)).
  - unfold mbind at 1, M_bind at 1. rewrite Hcb.
    by eexists.
Qed.

End ProtectedRun.


(** X8.  A failed callback commits nothing.  When the callback throws on the
    new alerts, the run reports the failure with the error's message and
    leaves the ledger as the callback left it; if the callback itself did not
    write the ledger, exactly the same alerts are new at the next attempt. *)
Theorem failed_run_commits_nothing `{Runtime} (loc : string) (alerts new : list object)
    (cb : list object → M unit) (w w1 : World) (msg : string) :
  eval (filterNewAlerts loc (Some alerts)) w = Ok new →
  new ≠ [] →
  cb new w = (Throw (Error msg), w1) →
  lastAlerts w1 = lastAlerts w →
  ∃ w',
    processWithDuplicateProtection loc (Some alerts) cb w =
      (Ok {| processed := 0; skipped := length alerts; success := false;
             error := Some msg |}, w') ∧
    lastAlerts w' = lastAlerts w ∧
    eval (filterNewAlerts loc (Some alerts)) w' = Ok new.
Proof.
  intros Hnew Hne Hcb Hledger.
  unfold eval in Hnew. rewrite filterNewAlerts_run in Hnew. cbn [fst] in Hnew.
  injection Hnew as Hnew.
  pose proof (protected_run_cases loc alerts cb w) as Hcases. cbv zeta in Hcases.
  rewrite Hnew in Hcases. destruct new as [|a new]; [done|].
  rewrite Hcb in Hcases. destruct Hcases as (w' & Hrun & Hsame).
  exists w'. split; [exact Hrun|]. split; [congruence|].
  unfold eval. rewrite filterNewAlerts_run. cbn [fst].
  rewrite (stored_ids_ext w w') by congruence. by rewrite Hnew.
Qed.

Lemma failed_run_commits_nothing_witness :
  let rt := Reference.runtime in
  let alerts := [Reference.sample_alert 1; Reference.sample_alert 2] in
  let w := Reference.initial_world in
  let cb := fun _ : list object => throw (Error "webhook down") : M unit in
  ∃ w',
    processWithDuplicateProtection "loc-1" (Some alerts) cb w =
      (Ok {| processed := 0; skipped := 2; success := false;
             error := Some "webhook down" |}, w') ∧
    lastAlerts w' = lastAlerts w ∧
    eval (filterNewAlerts "loc-1" (Some alerts)) w' = Ok alerts.
Proof.
  cbv zeta.
  apply (failed_run_commits_nothing (H:=Reference.runtime) "loc-1"
           [Reference.sample_alert 1; Reference.sample_alert 2]
           [Reference.sample_alert 1; Reference.sample_alert 2]
           (fun _ => throw (Error "webhook down")) Reference.initial_world
           Reference.initial_world "webhook down").
  - reflexivity.
  - discriminate.
  - reflexivity.
  - reflexivity.
Defined.

(** X9.  A successful run commits what it processed.  When the callback
    returns, the new alerts (at most 100, with primitive ids) are marked in
    the state the callback left, the run reports them as processed, and a
    second look at the same new alerts finds none of them new. *)
Theorem successful_run_commits `{Runtime} (loc : string) (alerts new : list object)
    (cb : list object → M unit) (w w1 : World) :
  eval (filterNewAlerts loc (Some alerts)) w = Ok new →
  new ≠ [] →
  (length new ≤ 100)%nat →
  Forall (fun a => primitive (alert_id a) = true) new →
  cb new w = (Ok tt, w1) →
  ∃ r w',
    processWithDuplicateProtection loc (Some alerts) cb w = (Ok r, w') ∧
    success r = true ∧ processed r = length new ∧
    stored_ids w' loc = lastn 100 (stored_ids w1 loc ++ ids_of new) ∧
    eval (filterNewAlerts loc (Some new)) w' = Ok [].
Proof.
  intros Hnew Hne Hlen Hprim Hcb.
  unfold eval in Hnew. rewrite filterNewAlerts_run in Hnew. cbn [fst] in Hnew.
  injection Hnew as Hnew.
  pose proof (protected_run_cases loc alerts cb w) as Hcases. cbv zeta in Hcases.
  rewrite Hnew in Hcases. destruct new as [|a0 new0] eqn:Hshape; [done|].
  rewrite <- Hshape in *. rewrite Hcb in Hcases.
  eexists _, _. split; [exact Hcases|].
  split; [done|]. split; [done|].
  assert (Hstored : stored_ids (exec (markAlertsSent loc (Some new)) w1) loc =
                    lastn 100 (stored_ids w1 loc ++ ids_of new)).
  { rewrite markAlertsSent_stored. by rewrite Hshape. }
  split; [exact Hstored|].
  unfold eval. rewrite filterNewAlerts_run. cbn [fst]. f_equal.
  apply filter_none. rewrite Hstored.
  destruct (lastn_app_short 100 (stored_ids w1 loc) (ids_of new)) as [old ->].
  { unfold ids_of. by rewrite length_fmap. }
  apply Forall_forall. intros a Ha. apply negb_false_iff, includes_primitive.
  - rewrite Forall_forall in Hprim. by apply Hprim.
  - apply elem_of_app. right. unfold ids_of. by apply list_elem_of_fmap_2.
Qed.

Lemma successful_run_commits_witness :
  let rt := Reference.runtime in
  let alerts := [Reference.sample_alert 1; Reference.sample_alert 2] in
  let w := Reference.initial_world in
  let cb := fun _ : list object => mret tt : M unit in
  ∃ r w',
    processWithDuplicateProtection "loc-1" (Some alerts) cb w = (Ok r, w') ∧
    success r = true ∧ processed r = 2%nat ∧
    stored_ids w' "loc-1" = lastn 100 (stored_ids w "loc-1" ++ ids_of alerts) ∧
    eval (filterNewAlerts "loc-1" (Some alerts)) w' = Ok [].
Proof.
  cbv zeta.
  apply (successful_run_commits (H:=Reference.runtime) "loc-1"
           [Reference.sample_alert 1; Reference.sample_alert 2]
           [Reference.sample_alert 1; Reference.sample_alert 2]
           (fun _ => mret tt) Reference.initial_world Reference.initial_world).
  - reflexivity.
  - discriminate.
  - cbn. lia.
  - repeat constructor.
  - reflexivity.
Defined.

(** *** The forecast scheduler *)

Section Forecast.
Context `{Runtime}.

Lemma stop_run (w : World) :
  ∃ r w',
    stopForecastScheduler w = (Ok r, w') ∧ running r = false ∧
    forecastTask w' = None ∧
    currentForecastCron w' =
      match forecastTask w with Some _ => None | None => currentForecastCron w end ∧
    settings w' = settings w ∧ lastAlerts w' = lastAlerts w ∧
    (forecastTask w = None → w' = w ∧ message r = "Forecast scheduler was not running").
Proof.
  unfold stopForecastScheduler, read. unfold mbind at 1, M_bind at 1.
  destruct (forecastTask w) as [t|] eqn:Htask.
  - eexists _, _. split; [reflexivity|]. by repeat split.
  - eexists _, _. split; [reflexivity|]. by repeat split.
Qed.

(** The ways through [startForecastScheduler]. *)
Lemma start_run (w : World) :
  ∃ r w',
    startForecastScheduler w = (Ok r, w') ∧
    settings w' = settings w ∧ lastAlerts w' = lastAlerts w ∧
    if negb (forecastEnabled (settings w)) then
      running r = false ∧ message r = "Daily forecast scheduler is disabled" ∧
      forecastTask w' = forecastTask w ∧ currentForecastCron w' = currentForecastCron w
    else
      match timeToCron (configured_time w) with
      | Throw e =>
          running r = false ∧ message r = exn_message e ∧
          forecastTask w' = forecastTask w ∧ currentForecastCron w' = currentForecastCron w
      | Ok cron =>
          if bool_decide (is_Some (forecastTask w)) &&
             bool_decide (currentForecastCron w = Some cron) then
            r = {| running := true; message := "Forecast scheduler already running";
                   time := Some (configured_time w); cronExpression := Some cron |} ∧
            w' = w
          else if cron_validate cron then
            running r = true ∧ time r = Some (configured_time w) ∧
            cronExpression r = Some cron ∧
            forecastTask w' = Some cron ∧ currentForecastCron w' = Some cron
          else
            running r = false ∧ message r = "Invalid schedule configuration" ∧
            forecastTask w' = None ∧
            currentForecastCron w' =
              match forecastTask w with Some _ => None | None => currentForecastCron w end
      end.
Proof.
  unfold startForecastScheduler, getSettings, read, configured_time.
  unfold mbind at 1, M_bind at 1.
  destruct (forecastEnabled (settings w)) eqn:Hen; cbn [negb].
  2:{ eexists _, _. split; [reflexivity|]. by repeat split. }
  set (t := if String.eqb (forecastTime (settings w)) "" then "07:00"
            else forecastTime (settings w)).
  unfold try_catchM, lift. unfold mbind at 1, M_bind at 1.
  destruct (timeToCron t) as [cron|e] eqn:Hcron.
  2:{ eexists _, _. split; [reflexivity|]. by repeat split. }
  unfold mbind at 1, M_bind at 1. unfold mbind at 1, M_bind at 1.
  destruct (bool_decide (is_Some (forecastTask w)) &&
            bool_decide (currentForecastCron w = Some cron)) eqn:Hsame.
  { eexists _, _. split; [reflexivity|]. by repeat split. }
  unfold mbind at 1, M_bind at 1.
  destruct (stop_run w) as (r0 & w0 & -> & _ & Htask0 & Hcron0 & Hset0 & Hla0 & _).
  destruct (cron_validate cron) eqn:Hvalid; cbn [negb].
  - eexists _, _. split; [reflexivity|]. by repeat split.
  - eexists _, _. split; [reflexivity|]. by repeat split.
Qed.

Lemma updateSettings_run (p : SettingsPatch) (w : World) :
  ∃ s w',
    updateSettings p w = (Ok s, w') ∧
    settings w' = apply_patch p (iso_string (date_now (clock_reads w))) (settings w) ∧
    lastAlerts w' = lastAlerts w ∧
    forecastTask w' = forecastTask w ∧ currentForecastCron w' = currentForecastCron w.
Proof.
  unfold updateSettings, getSettings, now_iso, now, addLog, getLogs, fresh_uuid. run.
  eexists _, _. split; [reflexivity|]. by repeat split.
Qed.

(** A time the pattern accepts has an hour in 0..23 and a minute in 0..59,
    and [timeToCron] turns it into the daily cron expression. *)
Lemma accepted_time_cron (newTime : string) :
  regex_test timeRegex newTime = true →
  ∃ h m, hours_minutes newTime = (Some h, Some m) ∧ 0 <= h <= 23 ∧ 0 <= m <= 59 ∧
         timeToCron newTime = Ok (pretty m +:+ " " +:+ pretty h +:+ " * * *").
Proof.
  intros Hvalid%timeRegex_sound. unfold timeToCron. rewrite Hvalid.
  unfold time_invalid in Hvalid.
  destruct (hours_minutes newTime) as [[h|] [m|]]; cbn in Hvalid; try discriminate.
  exists h, m. repeat split; try lia. 
Qed.

Lemma accepted_time_nonempty (newTime : string) :
  regex_test timeRegex newTime = true → String.eqb newTime "" = false.
Proof. destruct newTime; [discriminate|done]. Qed.

End Forecast.

(** X10.  [stopForecastScheduler] never throws and always leaves the
    scheduler without a task; the settings and the ledger are untouched.
    Stopping a stopped scheduler changes nothing at all, not even the log. *)
Theorem stopForecastScheduler_stops `{Runtime} (w : World) :
  ∃ r w',
    stopForecastScheduler w = (Ok r, w') ∧ running r = false ∧
    forecastTask w' = None ∧ (in_sync w → currentForecastCron w' = None) ∧
    settings w' = settings w ∧ lastAlerts w' = lastAlerts w ∧
    stopForecastScheduler w' =
      (Ok {| running := false; message := "Forecast scheduler was not running";
             time := None; cronExpression := None |}, w').
Proof.
  destruct (stop_run w) as (r & w' & Hrun & Hr & Htask & Hcron & Hset & Hla & _).
  exists r, w'. repeat split; try done.
  - unfold in_sync. intros Hsync. rewrite Hcron. destruct (forecastTask w); congruence.
  - unfold stopForecastScheduler, read. unfold mbind at 1, M_bind at 1. by rewrite Htask.
Qed.

(** X11.  [startForecastScheduler] never throws and never writes the
    settings.  It keeps the task handle and the recorded cron expression in
    step, and it reports [running] only when forecasts are enabled, the
    configured time (["07:00"] when unset) converts to a cron expression, and
    a task with exactly that expression is scheduled afterwards. *)
Theorem startForecastScheduler_sound `{Runtime} (w : World) :
  ∃ r w',
    startForecastScheduler w = (Ok r, w') ∧
    settings w' = settings w ∧
    (in_sync w → in_sync w') ∧
    (running r = true →
       forecastEnabled (settings w) = true ∧
       ∃ cron, timeToCron (configured_time w) = Ok cron ∧
               is_Some (forecastTask w') ∧ currentForecastCron w' = Some cron ∧
               cronExpression r = Some cron ∧ time r = Some (configured_time w)).
Proof.
  destruct (start_run w) as (r & w' & Hrun & Hset & _ & Hcases).
  exists r, w'. split; [exact Hrun|]. split; [exact Hset|].
  unfold in_sync.
  destruct (forecastEnabled (settings w)); cbn [negb] in Hcases.
  2:{ destruct Hcases as (Hr & _ & -> & ->). split; [done|]. by rewrite Hr. }
  destruct (timeToCron (configured_time w)) as [cron|e].
  2:{ destruct Hcases as (Hr & _ & -> & ->). split; [done|]. by rewrite Hr. }
  destruct (bool_decide (is_Some (forecastTask w)) &&
            bool_decide (currentForecastCron w = Some cron)) eqn:Hsame.
  { destruct Hcases as [-> ->]. split; [done|]. intros _. split; [done|].
    apply andb_true_iff in Hsame as [Htask%bool_decide_eq_true Hcur%bool_decide_eq_true].
    by exists cron. }
  destruct (cron_validate cron).
  - destruct Hcases as (_ & Htime & Hexpr & -> & ->). split; [done|].
    intros _. split; [done|]. exists cron. by repeat split.
  - destruct Hcases as (Hr & _ & -> & ->). split; [|by rewrite Hr].
    intros Hsync. destruct (forecastTask w); congruence.
Qed.

(** X12.  A start that is refused does not stop anything.  With forecasts
    disabled, or with a configured time that [timeToCron] rejects,
    [startForecastScheduler] reports that the scheduler is not running and
    leaves the task handle and the recorded cron expression as they were: a
    task scheduled earlier stays scheduled. *)
Theorem refused_start_keeps_task `{Runtime} (w : World) :
  forecastEnabled (settings w) = false ∨ time_invalid (configured_time w) = true →
  ∃ r w',
    startForecastScheduler w = (Ok r, w') ∧ running r = false ∧
    forecastTask w' = forecastTask w ∧ currentForecastCron w' = currentForecastCron w.
Proof.
  intros Hrefused.
  destruct (start_run w) as (r & w' & Hrun & _ & _ & Hcases).
  exists r, w'. split; [exact Hrun|].
  destruct (forecastEnabled (settings w)); cbn [negb] in Hcases.
  2:{ by destruct Hcases as (Hr & _ & -> & ->). }
  destruct Hrefused as [?|Hinv]; [done|].
  unfold timeToCron in Hcases. rewrite Hinv in Hcases.
  destruct (hours_minutes (configured_time w)) as [hours minutes].
  by destruct Hcases as (Hr & _ & -> & ->).
Qed.

Lemma refused_start_keeps_task_witness :
  let rt := Reference.runtime in
  let w := with_forecast (Some "0 7 * * *") (Some "0 7 * * *") Reference.initial_world in
  ∃ r w',
    startForecastScheduler w = (Ok r, w') ∧ running r = false ∧
    forecastTask w' = Some "0 7 * * *" ∧ currentForecastCron w' = Some "0 7 * * *".
Proof.
  cbv zeta.
  apply (refused_start_keeps_task (H:=Reference.runtime)
           (with_forecast (Some "0 7 * * *") (Some "0 7 * * *") Reference.initial_world)).
  left. reflexivity.
Defined.

(** X13.  An accepted forecast time is stored and takes effect.  A time the
    pattern of [updateForecastTime] accepts has an hour [h] in 0..23 and a
    minute [m] in 0..59; the call does not throw and stores the time in the
    settings.  When no task was running none is started; when one was running
    with forecasts enabled, it is replaced by a task for the cron expression
    [m h * * *] (provided the cron library accepts it), and with forecasts
    disabled it is stopped. *)
Theorem updateForecastTime_accepted `{Runtime} (newTime : string) (w : World) :
  regex_test timeRegex newTime = true →
  ∃ h m r w',
    hours_minutes newTime = (Some h, Some m) ∧ 0 <= h <= 23 ∧ 0 <= m <= 59 ∧
    updateForecastTime newTime w = (Ok r, w') ∧
    forecastTime (settings w') = newTime ∧
    forecastEnabled (settings w') = forecastEnabled (settings w) ∧
    lastAlerts w' = lastAlerts w ∧
    let cron := pretty m +:+ " " +:+ pretty h +:+ " * * *" in
    match forecastTask w with
    | None => running r = false ∧ time r = Some newTime ∧ forecastTask w' = None
    | Some _ =>
        if forecastEnabled (settings w) then
          cron_validate cron = true →
          running r = true ∧ time r = Some newTime ∧ cronExpression r = Some cron ∧
          forecastTask w' = Some cron ∧ currentForecastCron w' = Some cron
        else running r = false ∧ forecastTask w' = None
    end.
Proof.
  intros Hok.
  destruct (accepted_time_cron newTime Hok) as (h & m & Hhm & Hh & Hm & Hcron).
  pose proof (accepted_time_nonempty newTime Hok) as Hne.
  exists h, m. unfold updateForecastTime. rewrite Hok. cbn [negb].
  destruct (updateSettings_run (PatchForecastTime newTime) w)
    as (s & w1 & Hupd & Hset1 & Hla1 & Htask1 & Hcron1).
  rewrite (bind_run _ _ _ _ _ Hupd). unfold read at 1. unfold mbind at 1, M_bind at 1.
  assert (Htime1 : forecastTime (settings w1) = newTime) by (by rewrite Hset1).
  assert (Hen1 : forecastEnabled (settings w1) = forecastEnabled (settings w))
    by (by rewrite Hset1).
  rewrite Htask1. destruct (forecastTask w) as [t|] eqn:Htask.
  2:{ eexists _, _. split; [done|]. split; [done|]. split; [done|].
      split; [reflexivity|]. by repeat split. }
  rewrite bool_decide_eq_true_2 by eauto.
  unfold restartForecastScheduler.
  destruct (stop_run w1) as (r2 & w2 & Hstop & _ & Htask2 & _ & Hset2 & Hla2 & _).
  rewrite (bind_run _ _ _ _ _ Hstop).
  destruct (start_run w2) as (r3 & w3 & Hstart & Hset3 & Hla3 & Hcases).
  exists r3, w3. split; [done|]. split; [done|]. split; [done|].
  split; [exact Hstart|].
  split; [by rewrite Hset3, Hset2|]. split; [by rewrite Hset3, Hset2|].
  split; [by rewrite Hla3, Hla2|]. cbv zeta.
  assert (Hconf : configured_time w2 = newTime).
  { unfold configured_time. rewrite Hset2, Htime1. by rewrite Hne. }
  rewrite Hconf, Hset2, Hen1, Hcron, Htask2 in Hcases.
  destruct (forecastEnabled (settings w)); cbn [negb] in Hcases.
  2:{ by destruct Hcases as (Hr & _ & -> & _). }
  intros Hvalid. rewrite Hvalid in Hcases.
  by rewrite bool_decide_eq_false_2 in Hcases by (by intros [? ?]).
Qed.

Lemma updateForecastTime_accepted_witness :
  let rt := Reference.runtime in
  let w := Reference.initial_world in
  ∃ h m r w',
    hours_minutes "18:30" = (Some h, Some m) ∧ 0 <= h <= 23 ∧ 0 <= m <= 59 ∧
    updateForecastTime "18:30" w = (Ok r, w') ∧
    forecastTime (settings w') = "18:30" ∧
    forecastEnabled (settings w') = forecastEnabled (settings w) ∧
    lastAlerts w' = lastAlerts w ∧
    running r = false ∧ time r = Some "18:30" ∧ forecastTask w' = None.
Proof.
  cbv zeta.
  apply (updateForecastTime_accepted (H:=Reference.runtime) "18:30" Reference.initial_world).
  reflexivity.
Defined.

(** X14.  [setForecastEnabled] never throws and stores the flag.  Disabling
    always ends with no task scheduled.  Enabling ends with a task for the
    configured time whenever that time converts to a cron expression the cron
    library accepts. *)
Theorem setForecastEnabled_effect `{Runtime} (enabled : bool) (w : World) :
  ∃ r w',
    setForecastEnabled enabled w = (Ok r, w') ∧
    forecastEnabled (settings w') = enabled ∧
    forecastTime (settings w') = forecastTime (settings w) ∧
    lastAlerts w' = lastAlerts w ∧
    if enabled then
      ∀ cron, timeToCron (configured_time w) = Ok cron → cron_validate cron = true →
              running r = true ∧ is_Some (forecastTask w') ∧
              currentForecastCron w' = Some cron ∧ cronExpression r = Some cron
    else running r = false ∧ forecastTask w' = None.
Proof.
  unfold setForecastEnabled.
  destruct (updateSettings_run (PatchForecastEnabled enabled) w)
    as (s & w1 & Hupd & Hset1 & Hla1 & Htask1 & Hcron1).
  rewrite (bind_run _ _ _ _ _ Hupd).
  assert (Htime1 : forecastTime (settings w1) = forecastTime (settings w))
    by (by rewrite Hset1).
  assert (Hen1 : forecastEnabled (settings w1) = enabled) by (by rewrite Hset1).
  destruct enabled.
  - destruct (start_run w1) as (r & w' & Hstart & Hset & Hla & Hcases).
    exists r, w'. split; [exact Hstart|].
    split; [by rewrite Hset|]. split; [by rewrite Hset|]. split; [by rewrite Hla|].
    intros cron Hcron Hvalid.
    assert (Hconf : configured_time w1 = configured_time w)
      by (unfold configured_time; by rewrite Htime1).
    rewrite Hen1, Hconf, Hcron in Hcases. cbn [negb] in Hcases.
    destruct (bool_decide (is_Some (forecastTask w1)) &&
              bool_decide (currentForecastCron w1 = Some cron)) eqn:Hsame.
    + destruct Hcases as [-> ->].
      apply andb_true_iff in Hsame as [Htask%bool_decide_eq_true Hcur%bool_decide_eq_true].
      done.
    + rewrite Hvalid in Hcases. destruct Hcases as (? & ? & ? & -> & ->). by repeat split.
  - destruct (stop_run w1) as (r & w' & Hstop & Hr & Htask & _ & Hset & Hla & _).
    exists r, w'. split; [exact Hstop|].
    split; [by rewrite Hset|]. split; [by rewrite Hset|]. split; [by rewrite Hla|]. done.
Qed.

(** *** Numbers printed and read back *)

Section Numerals.

Lemma digit_of_pretty_char (d : N) :
  (d < 10)%N → digit_of 10 (pretty_N_char d) = Some (Z.of_N d).
Proof.
  intros Hd.
  assert (d = 0 ∨ d = 1 ∨ d = 2 ∨ d = 3 ∨ d = 4 ∨ d = 5 ∨ d = 6 ∨ d = 7 ∨ d = 8 ∨ d = 9)%N
    as Hcases by lia.
  repeat (destruct Hcases as [->|Hcases]; [reflexivity|]). by subst.
Qed.

(** Reading the digits [pretty_N_go] puts in front of [s] continues with the
    number they denote. *)
Lemma read_digits_pretty (x : N) :
  ∀ acc s, (0 < x)%N → default 0 acc = 0 →
    read_digits 10 acc (pretty_N_go x s) = read_digits 10 (Some (Z.of_N x)) s.
Proof.
  induction (N.lt_wf_0 x) as [x _ IH]. intros acc s Hpos Hacc.
  rewrite pretty_N_go_step by done.
  assert (Hmod : (x `mod` 10 < 10)%N) by (apply N.mod_lt; lia).
  assert (Hx : Z.of_N x = 10 * Z.of_N (x `div` 10) + Z.of_N (x `mod` 10)).
  { rewrite (N.div_mod x 10) at 1 by lia. lia. }
  destruct (decide (x `div` 10 = 0)%N) as [Hz|Hnz].
  - rewrite Hz, pretty_N_go_0. cbn [read_digits].
    rewrite digit_of_pretty_char by done. rewrite Hacc, Hx, Hz. done.
  - rewrite IH; [|apply N.div_lt; lia|by apply N.neq_0_lt_0|done].
    cbn [read_digits]. rewrite digit_of_pretty_char by done.
    cbn [default]. by rewrite Hx.
Qed.

(** A positive number is printed with a leading digit from [1] to [9]. *)
Lemma pretty_leading_digit (x : N) :
  ∀ s, (0 < x)%N →
    ∃ d rest, pretty_N_go x s = String (pretty_N_char d) rest ∧ (0 < d < 10)%N.
Proof.
  induction (N.lt_wf_0 x) as [x _ IH]. intros s Hpos.
  rewrite pretty_N_go_step by done.
  destruct (decide (x `div` 10 = 0)%N) as [Hz|Hnz].
  - rewrite Hz, pretty_N_go_0. exists (x `mod` 10)%N, s. split; [done|].
    pose proof (N.div_mod x 10). pose proof (N.mod_lt x 10). lia.
  - apply IH; [apply N.div_lt; lia|by apply N.neq_0_lt_0].
Qed.

Lemma parse_unsigned_pretty (x : N) :
  (0 < x)%N → parse_unsigned (pretty_N_go x "") = Some (Z.of_N x) ∧
              skip_space (pretty_N_go x "") = pretty_N_go x "" ∧
              ∃ d rest, pretty_N_go x "" = String (pretty_N_char d) rest ∧ (0 < d < 10)%N.
Proof.
  intros Hpos.
  destruct (pretty_leading_digit x "" Hpos) as (d & rest & Hshape & Hd).
  pose proof (read_digits_pretty x None "" Hpos eq_refl) as Hread.
  cbn [read_digits] in Hread.
  rewrite Hshape in *.
  assert (d = 1 ∨ d = 2 ∨ d = 3 ∨ d = 4 ∨ d = 5 ∨ d = 6 ∨ d = 7 ∨ d = 8 ∨ d = 9)%N
    as Hcases by lia.
  split; [|split; [|by eauto]].
  - repeat (destruct Hcases as [->|Hcases]; [exact Hread|]). subst. exact Hread.
  - repeat (destruct Hcases as [->|Hcases]; [reflexivity|]). by subst.
Qed.

(** [parseInt(String(n)) === n] for every integer. *)
Lemma parseInt_pretty (n : Z) : parseInt (pretty n) = Some n.
Proof.
  destruct n as [|p|p]; [reflexivity| |].
  - change (pretty (Z.pos p)) with (pretty_N_go (N.pos p) "").
    destruct (parse_unsigned_pretty (N.pos p)) as (Hparse & Hskip & d & rest & Hshape & Hd);
      [lia|].
    unfold parseInt. rewrite Hskip. rewrite Hshape in *.
    assert (d = 1 ∨ d = 2 ∨ d = 3 ∨ d = 4 ∨ d = 5 ∨ d = 6 ∨ d = 7 ∨ d = 8 ∨ d = 9)%N
      as Hcases by lia.
    repeat (destruct Hcases as [->|Hcases]; [exact Hparse|]). subst. exact Hparse.
  - change (pretty (Z.neg p)) with (String "-" (pretty_N_go (N.pos p) "")).
    destruct (parse_unsigned_pretty (N.pos p)) as (Hparse & _); [lia|].
    unfold parseInt. cbn [skip_space]. 
    change (is_space "-") with false. cbn iota. rewrite Hparse. reflexivity.
Qed.

End Numerals.

(** *** The interval scheduler *)

(** X15.  Whatever is passed as the frequency, [frequencyToCron] returns one
    of five cron expressions with every field in range: every minute, every
    [k] minutes with [k] in 2..59, every hour, every [h] hours with [h] in
    1..23, or once per day. *)
Theorem frequencyToCron_shape (minutes : value) :
  frequencyToCron minutes = "* * * * *" ∨
  (∃ k, 2 <= k <= 59 ∧ frequencyToCron minutes = "*/" +:+ pretty k +:+ " * * * *") ∨
  frequencyToCron minutes = "0 * * * *" ∨
  (∃ h, 1 <= h <= 23 ∧ frequencyToCron minutes = "0 */" +:+ pretty h +:+ " * * *") ∨
  frequencyToCron minutes = "0 0 * * *".
Proof.
  unfold frequencyToCron. generalize (minutes_or_default minutes). intros n. cbv zeta.
  destruct (n <? 1) eqn:Hlow; [by left|].
  destruct (1440 <? n) eqn:Hhigh; [by repeat right|].
  apply Z.ltb_ge in Hlow, Hhigh.
  destruct (n =? 1) eqn:H1; [by left|]. apply Z.eqb_neq in H1.
  destruct (n <? 60) eqn:H60.
  { right. left. exists n. split; [lia|done]. }
  apply Z.ltb_ge in H60.
  destruct (n =? 60) eqn:Hhour; [by right; right; left|]. apply Z.eqb_neq in Hhour.
  destruct (n <? 1440) eqn:Hday; [|by repeat right]. apply Z.ltb_lt in Hday.
  right. right. right. left. exists (n / 60). split; [|done].
  Z.div_mod_to_equations. lia.
Qed.

(** X16.  A frequency [updateFrequency] accepts, a number of minutes from 1
    to 1440, is read back unchanged by [frequencyToCron].  Below an hour the
    step is the frequency itself; from 61 to 1439 minutes the schedule is
    rounded down to whole hours, so it fires every [h] hours where
    [60 h <= n < 60 h + 60], and [getScheduleDescription] names the same
    [h]. *)
Theorem frequencyToCron_accepted (n : Z) :
  1 <= n <= 1440 →
  frequency_rejected (VNum n) = false ∧
  (n = 1 → frequencyToCron (VNum n) = "* * * * *") ∧
  (1 < n < 60 →
     frequencyToCron (VNum n) = "*/" +:+ pretty n +:+ " * * * *" ∧
     getScheduleDescription (VNum n) = "Every " +:+ pretty n +:+ " minutes") ∧
  (n = 60 → frequencyToCron (VNum n) = "0 * * * *") ∧
  (60 < n < 1440 →
     ∃ h, 60 * h <= n < 60 * h + 60 ∧ 1 <= h <= 23 ∧
          frequencyToCron (VNum n) = "0 */" +:+ pretty h +:+ " * * *" ∧
          getScheduleDescription (VNum n) =
            "Every " +:+ pretty h +:+ " hour" +:+ (if 1 <? h then "s" else "")) ∧
  (n = 1440 → frequencyToCron (VNum n) = "0 0 * * *").
Proof.
  intros Hn.
  assert (Hread : minutes_or_default (VNum n) = n).
  { unfold minutes_or_default. cbn [to_string]. rewrite parseInt_pretty.
    destruct (n =? 0) eqn:Hz; [lia|done]. }
  split.
  { unfold frequency_rejected. cbn [to_string]. rewrite parseInt_pretty. lia. }
  unfold frequencyToCron, getScheduleDescription. rewrite Hread. cbv zeta.
  replace (n <? 1) with false by lia. replace (1440 <? n) with false by lia.
  split; [by intros ->|]. split.
  { intros Hlt. replace (n =? 1) with false by lia. by replace (n <? 60) with true by lia. }
  split; [by intros ->|]. split; [|by intros ->].
  intros Hlt. exists (n / 60).
  replace (n =? 1) with false by lia. replace (n <? 60) with false by lia.
  replace (n =? 60) with false by lia. replace (n <? 1440) with true by lia.
  split; [Z.div_mod_to_equations; lia|]. split; [Z.div_mod_to_equations; lia|]. done.
Qed.

Lemma frequencyToCron_accepted_witness :
  frequency_rejected (VNum 90) = false ∧
  frequencyToCron (VNum 90) = "0 */1 * * *" ∧
  getScheduleDescription (VNum 90) = "Every 1 hour".
Proof.
  destruct (frequencyToCron_accepted 90) as (Hacc & _ & _ & _ & Hhours & _); [lia|].
  split; [exact Hacc|].
  destruct Hhours as (h & Hh & _ & Hcron & Hdescr); [lia|].
  assert (h = 1) as -> by lia. by split.
Defined.

(** *** The normalizer *)

Section Normalizer.
Context `{Runtime}.

Lemma same_store_refl w : same_store w w.
Proof. by repeat split. Qed.

Lemma same_store_trans w1 w2 w3 : same_store w1 w2 → same_store w2 w3 → same_store w1 w3.
Proof.
  intros (? & ? & ? & ? & ? & ?) (? & ? & ? & ? & ? & ?).
  repeat split; congruence.
Qed.

Lemma read_only_ret {A} (a : A) : read_only (mret a : M A).
Proof. intros w. apply same_store_refl. Qed.

Lemma read_only_lift {A} (e : Exc A) : read_only (lift e).
Proof. intros w. apply same_store_refl. Qed.

Lemma read_only_read {A} (f : World → A) : read_only (read f).
Proof. intros w. apply same_store_refl. Qed.

Lemma read_only_now : read_only now.
Proof. intros w. by repeat split. Qed.

Lemma read_only_bind {A B} (m : M A) (f : A → M B) :
  read_only m → (∀ a, read_only (f a)) → read_only (m ≫= f).
Proof.
  intros Hm Hf w. specialize (Hm w). unfold mbind, M_bind.
  destruct (m w) as [[a|e] w1]; [|exact Hm].
  eapply same_store_trans; [exact Hm|apply Hf].
Qed.

Lemma read_only_or_elseM (a : value) (m : M value) : read_only m → read_only (or_elseM a m).
Proof. intros Hm. unfold or_elseM. destruct (truthy a); [apply read_only_ret|done]. Qed.

Lemma read_only_mapM {A B} (f : A → M B) (l : list A) :
  (∀ a, read_only (f a)) → read_only (mapM f l).
Proof.
  intros Hf. induction l as [|a l IH]; cbn [mapM]; [apply read_only_ret|].
  apply read_only_bind; [apply Hf|]. intros b.
  apply read_only_bind; [apply IH|]. intros bs. apply read_only_ret.
Qed.

End Normalizer.

Ltac prove_read_only :=
  repeat first
    [ apply read_only_ret | apply read_only_lift | apply read_only_read
    | apply read_only_now | apply read_only_or_elseM
    | apply read_only_bind; [|intros ?] | apply read_only_mapM; intros ? ].

Section NormalizerShape.
Context `{Runtime}.

Lemma read_only_generateAlertId raw : read_only (generateAlertId raw).
Proof. unfold generateAlertId. prove_read_only. Qed.

Lemma read_only_formatNWSAlert raw loc : read_only (formatNWSAlert raw loc).
Proof. unfold formatNWSAlert. prove_read_only. Qed.

Lemma read_only_formatOpenWeatherMapAlert raw loc :
  read_only (formatOpenWeatherMapAlert raw loc).
Proof.
  unfold formatOpenWeatherMapAlert. prove_read_only.
  destruct (truthy _ && _); [apply read_only_formatNWSAlert|].
  prove_read_only.
Qed.

Lemma read_only_formatXWeatherAlert raw loc : read_only (formatXWeatherAlert raw loc).
Proof.
  unfold formatXWeatherAlert, getSettings. prove_read_only.
Qed.

Lemma read_only_formatAlerts raws loc : read_only (formatAlerts raws loc).
Proof.
  unfold formatAlerts, getSettings. destruct raws; prove_read_only.
  destruct (String.eqb _ "openweathermap");
    [apply read_only_formatOpenWeatherMapAlert|apply read_only_formatXWeatherAlert].
Qed.

End NormalizerShape.

Section NormalizerFields.
Context `{Runtime}.

Lemma append_dash_nonempty (a b : string) : a +:+ "-" +:+ b ≠ "".
Proof. by destruct a. Qed.

Lemma base64_nonempty (s : string) : s ≠ "" → base64 s ≠ "".
Proof. destruct s as [|a [|b [|c s]]]; [done|by cbn..]. Qed.

Lemma take_str_nonempty (n : nat) (s : string) : s ≠ "" → take_str (S n) s ≠ "".
Proof. by destruct s. Qed.

Lemma take_str_length (n : nat) (s : string) : (String.length (take_str n s) ≤ n)%nat.
Proof.
  revert s. induction n as [|n IH]; intros [|c s]; cbn; try lia.
  specialize (IH s). lia.
Qed.

(** A generated id is a non-empty string of at most 24 characters. *)
Lemma generateAlertId_run (raw : value) (w : World) :
  ∃ s w', generateAlertId raw w = (Ok (VStr s), w') ∧ s ≠ "" ∧
          (String.length s ≤ 24)%nat.
Proof.
  unfold generateAlertId, or_elseM.
  destruct (truthy (get "timestamp" _)).
  - eexists _, _. split; [reflexivity|]. split; [|apply take_str_length].
    apply take_str_nonempty, base64_nonempty, append_dash_nonempty.
  - eexists _, _. split; [reflexivity|]. split; [|apply take_str_length].
    apply take_str_nonempty, base64_nonempty, append_dash_nonempty.
Qed.

Lemma truthy_nonempty (s : string) : s ≠ "" → truthy (VStr s) = true.
Proof. by destruct s. Qed.

Lemma native_or_generated (a : value) (raw : value) w v w' :
  or_elseM a (generateAlertId raw) w = (Ok v, w') → truthy v = true.
Proof.
  intros [(Ht & -> & _)|[_ Hgen]]%or_elseM_inv; [done|].
  destruct (generateAlertId_run raw w) as (s & w1 & Hrun & Hs & _).
  rewrite Hrun in Hgen. injection Hgen as <- _. by apply truthy_nonempty.
Qed.

Lemma formatNWSAlert_fields raw loc w c w' :
  formatNWSAlert raw loc w = (Ok c, w') →
  truthy (alert_id c) = true ∧ lookup_field "location_id" c = get "id" loc.
Proof.
  unfold formatNWSAlert. intros Hrun. invert_run.
  match goal with
  | Hid : or_elseM _ (generateAlertId _) _ = _ |- _ => apply native_or_generated in Hid
  end.
  by split.
Qed.

Lemma formatOpenWeatherMapAlert_fields raw loc w c w' :
  formatOpenWeatherMapAlert raw loc w = (Ok c, w') →
  truthy (alert_id c) = true ∧ lookup_field "location_id" c = get "id" loc.
Proof.
  unfold formatOpenWeatherMapAlert. intros Hrun.
  apply bind_Ok_inv in Hrun as (event & w1 & Hevent & Hrun).
  destruct (truthy event && _); [by eapply formatNWSAlert_fields|].
  invert_run.
  match goal with
  | Hid : generateAlertId ?raw ?w0 = (Ok ?v, _) |- _ =>
      destruct (generateAlertId_run raw w0) as (s & w2 & Hgen & Hs & _);
      rewrite Hgen in Hid; injection Hid as <- _
  end.
  split; [by apply truthy_nonempty|done].
Qed.

Lemma formatXWeatherAlert_fields raw loc w c w' :
  formatXWeatherAlert raw loc w = (Ok c, w') →
  truthy (alert_id c) = true ∧ lookup_field "location_id" c = get "id" loc ∧
  (truthy (native_id raw) = true → alert_id c = native_id raw).
Proof.
  unfold formatXWeatherAlert. intros Hrun. invert_run.
  match goal with
  | Hid : or_elseM _ (generateAlertId _) _ = _ |- _ =>
      pose proof (native_or_generated _ _ _ _ _ Hid) as Htruthy;
      apply or_elseM_inv in Hid as [(Ht & -> & _)|[Hf _]]
  end.
  - by repeat split.
  - split; [done|]. split; [done|]. unfold native_id. cbv zeta. congruence.
Qed.

End NormalizerFields.

Section NormalizerLedger.
Context `{Runtime}.

(** Ids marked in one call of at most 100 alerts are all found afterwards. *)
Lemma marked_covers loc (alerts : list object) w (v : value) :
  (length alerts ≤ 100)%nat → primitive v = true → v ∈ ids_of alerts →
  includes (stored_ids (exec (markAlertsSent loc (Some alerts)) w) loc) v = true.
Proof.
  intros Hlen Hprim Hin. rewrite markAlertsSent_stored.
  destruct alerts as [|a0 alerts0] eqn:Halerts; [by apply elem_of_nil in Hin|].
  rewrite <- Halerts in *. clear Halerts a0 alerts0.
  destruct (lastn_app_short 100 (stored_ids w loc) (ids_of alerts)) as [old ->].
  { unfold ids_of. by rewrite length_fmap. }
  apply includes_primitive; [done|]. apply elem_of_app. by right.
Qed.

(** Which formatter [formatAlerts] applies. *)
Lemma formatAlerts_inv (raws : list value) (location : value) w cs w' :
  formatAlerts (VArr raws) location w = (Ok cs, w') →
  Forall2 (fun raw c => ∃ w1 w2,
             if String.eqb (if String.eqb (apiProvider (settings w)) "" then "openweathermap"
                            else apiProvider (settings w)) "openweathermap"
             then formatOpenWeatherMapAlert raw location w1 = (Ok c, w2)
             else formatXWeatherAlert raw location w1 = (Ok c, w2)) raws cs.
Proof.
  unfold formatAlerts. intros Hrun.
  apply bind_Ok_inv in Hrun as (st & w1 & Hst & Hrun).
  apply mret_Ok_inv in Hst as [-> ->].
  apply mapM_Ok_inv in Hrun.
  eapply Forall2_impl; [exact Hrun|]. intros raw c (w2 & w3 & Hc). cbv beta in Hc.
  exists w2, w3. by destruct (String.eqb _ "openweathermap").
Qed.

(** Under a vendor provider, alerts that carry a native id keep it. *)
Lemma formatAlerts_native_ids (raws : list value) (location : value) w cs w' :
  apiProvider (settings w) ≠ "" → apiProvider (settings w) ≠ "openweathermap" →
  Forall (fun raw => truthy (native_id raw) = true) raws →
  formatAlerts (VArr raws) location w = (Ok cs, w') →
  ids_of cs = native_id <$> raws.
Proof.
  intros Hne Hvendor Hnative Hrun. apply formatAlerts_inv in Hrun.
  apply String.eqb_neq in Hne, Hvendor. rewrite Hne, Hvendor in Hrun.
  induction Hrun as [|raw c raws cs (w1 & w2 & Hc) _ IH]; [done|].
  apply Forall_cons in Hnative as [Hraw Hnative].
  unfold ids_of in *. rewrite !fmap_cons. f_equal; [|by apply IH].
  apply formatXWeatherAlert_fields in Hc as (_ & _ & Hid). by apply Hid.
Qed.

End NormalizerLedger.

(** X17.  What [formatAlerts] returns and what it leaves alone.  When it
    returns, it has written nothing (no file, no log line, no scheduler
    variable); every record carries a truthy [alert_id] and the id of the
    location it was formatted for; and there is one record per raw alert,
    none when the argument is not an array. *)
Theorem formatAlerts_shape `{Runtime} (rawAlerts location : value) (w w' : World)
    (cs : list object) :
  formatAlerts rawAlerts location w = (Ok cs, w') →
  same_store w w' ∧
  Forall (fun c => truthy (alert_id c) = true ∧
                   lookup_field "location_id" c = get "id" location) cs ∧
  match rawAlerts with
  | VArr raws => length cs = length raws
  | _ => cs = []
  end.
Proof.
  intros Hrun. split.
  { pose proof (read_only_formatAlerts rawAlerts location w) as Hsame.
    by rewrite Hrun in Hsame. }
  destruct rawAlerts as [| | | | |raws|];
    try (apply mret_Ok_inv in Hrun as [-> ->]; by split).
  apply formatAlerts_inv in Hrun. split; [|symmetry; by eapply Forall2_length].
  induction Hrun as [|raw c raws cs (w1 & w2 & Hc) _ IH]; constructor; [|done].
  destruct (String.eqb _ "openweathermap").
  - by apply formatOpenWeatherMapAlert_fields in Hc.
  - by apply formatXWeatherAlert_fields in Hc as (? & ? & _).
Qed.

Lemma formatAlerts_shape_witness :
  let rt := Reference.runtime in
  let raw := VObj [("id", VStr "abc"); ("details", VObj [("significance", VStr "f")])] in
  let location := VObj [("id", VStr "loc-1"); ("name", VStr "NYC")] in
  ∃ c, eval (formatAlerts (VArr [raw]) location) Reference.initial_world = Ok [c] ∧
       alert_id c = VStr "abc" ∧ truthy (alert_id c) = true ∧
       lookup_field "location_id" c = VStr "loc-1".
Proof.
  cbv zeta.
  destruct (formatAlerts (H:=Reference.runtime)
              (VArr [VObj [("id", VStr "abc");
                           ("details", VObj [("significance", VStr "f")])]])
              (VObj [("id", VStr "loc-1"); ("name", VStr "NYC")])
              Reference.initial_world) as [[cs|e] w'] eqn:Hrun.
  - destruct (formatAlerts_shape (H:=Reference.runtime) _ _ _ _ _ Hrun)
      as (_ & Hfields & Hlen).
    unfold eval. rewrite Hrun. cbn [fst].
    destruct cs as [|c [|c' cs]]; try discriminate Hlen.
    exists c. apply Forall_cons in Hfields as [[Hid Hloc] _].
    split; [done|]. split; [|done].
    vm_compute in Hrun. by injection Hrun as <- _.
  - vm_compute in Hrun. discriminate Hrun.
Defined.

(** X18.  An alert that is fetched again is not sent again.  Under a vendor
    provider, raw alerts that carry a primitive native id are formatted to
    records with exactly that id, whatever the state and the clock.  So when
    at most 100 of them were formatted and marked as sent, formatting the
    same raw alerts in any later state with that ledger and filtering the
    result leaves nothing to send. *)
Theorem refetched_alerts_suppressed `{Runtime} (raws : list value) (location : value)
    (loc : string) (w w1 w2 w3 : World) (cs cs' : list object) :
  apiProvider (settings w) ≠ "" → apiProvider (settings w) ≠ "openweathermap" →
  Forall (fun raw => truthy (native_id raw) = true ∧ primitive (native_id raw) = true)
         raws →
  (length raws ≤ 100)%nat →
  formatAlerts (VArr raws) location w = (Ok cs, w1) →
  settings w2 = settings w →
  lastAlerts w2 = lastAlerts (exec (markAlertsSent loc (Some cs)) w1) →
  formatAlerts (VArr raws) location w2 = (Ok cs', w3) →
  ids_of cs = native_id <$> raws ∧ ids_of cs' = ids_of cs ∧
  eval (filterNewAlerts loc (Some cs')) w3 = Ok [].
Proof.
  intros Hne Hvendor Hnative Hlen Hfirst Hset Hledger Hsecond.
  assert (Htruthy : Forall (fun raw => truthy (native_id raw) = true) raws)
    by (eapply Forall_impl; [exact Hnative|]; by intros raw [? _]).
  pose proof (formatAlerts_native_ids _ _ _ _ _ Hne Hvendor Htruthy Hfirst) as Hids.
  assert (Hids' : ids_of cs' = native_id <$> raws).
  { eapply formatAlerts_native_ids; [| | |exact Hsecond]; by rewrite ?Hset. }
  split; [exact Hids|]. split; [congruence|].
  unfold eval. rewrite filterNewAlerts_run. cbn [fst]. f_equal.
  apply filter_none, Forall_forall. intros c Hc. apply negb_false_iff.
  pose proof (read_only_formatAlerts (VArr raws) location w2) as Hsame.
  rewrite Hsecond in Hsame. destruct Hsame as (_ & Hla3 & _). cbn [snd] in Hla3.
  rewrite (stored_ids_ext _ w3 loc Hla3), (stored_ids_ext _ w2 loc Hledger).
  assert (Hin : alert_id c ∈ native_id <$> raws).
  { rewrite <- Hids'. unfold ids_of. by apply list_elem_of_fmap_2. }
  apply marked_covers.
  - apply formatAlerts_inv, Forall2_length in Hfirst. lia.
  - apply list_elem_of_fmap in Hin as (raw & -> & Hraw).
    rewrite Forall_forall in Hnative. by apply Hnative.
  - by rewrite Hids.
Qed.

Lemma refetched_alerts_suppressed_witness :
  let rt := Reference.runtime in
  let raws := [VObj [("id", VStr "abc"); ("details", VObj [("significance", VStr "f")])]] in
  let location := VObj [("id", VStr "loc-1"); ("name", VStr "NYC")] in
  let w := Reference.initial_world in
  ∃ cs w1 cs' w3,
    formatAlerts (VArr raws) location w = (Ok cs, w1) ∧
    formatAlerts (VArr raws) location (exec (markAlertsSent "loc-1" (Some cs)) w1)
      = (Ok cs', w3) ∧
    ids_of cs = [VStr "abc"] ∧ ids_of cs' = ids_of cs ∧
    eval (filterNewAlerts "loc-1" (Some cs')) w3 = Ok [].
Proof.
  cbv zeta.
  set (raws := [VObj [("id", VStr "abc"); ("details", VObj [("significance", VStr "f")])]]).
  set (location := VObj [("id", VStr "loc-1"); ("name", VStr "NYC")]).
  destruct (formatAlerts (H:=Reference.runtime) (VArr raws) location
              Reference.initial_world) as [[cs|e] w1] eqn:Hfirst;
    [|vm_compute in Hfirst; discriminate Hfirst].
  destruct (formatAlerts (H:=Reference.runtime) (VArr raws) location
              (exec (markAlertsSent (H:=Reference.runtime) "loc-1" (Some cs)) w1))
    as [[cs'|e] w3] eqn:Hsecond.
  2:{ vm_compute in Hfirst. injection Hfirst as <- <-.
      vm_compute in Hsecond. discriminate Hsecond. }
  exists cs, w1, cs', w3. split; [done|]. split; [done|].
  assert (Hset : settings (exec (markAlertsSent (H:=Reference.runtime) "loc-1" (Some cs)) w1)
                 = settings Reference.initial_world).
  { vm_compute in Hfirst. injection Hfirst as <- <-. reflexivity. }
  refine (refetched_alerts_suppressed (H:=Reference.runtime) raws location "loc-1"
            Reference.initial_world w1 _ w3 cs cs' _ _ _ _ Hfirst Hset eq_refl Hsecond).
  - discriminate.
  - discriminate.
  - repeat constructor.
  - cbn. lia.
Defined.

(** *** Generated ids *)

Section GeneratedIds.

Lemma append_cons (c : ascii) (a b : string) : String c a +:+ b = String c (a +:+ b).
Proof. reflexivity. Qed.

Lemma append_assoc (a b c : string) : (a +:+ b) +:+ c = a +:+ (b +:+ c).
Proof. induction a as [|x a IH]; [done|]. by rewrite !append_cons, IH. Qed.

Lemma append_length (a b : string) :
  String.length (a +:+ b) = (String.length a + String.length b)%nat.
Proof. induction a as [|x a IH]; [done|]. rewrite append_cons. cbn. by rewrite IH. Qed.

(** The digits [pretty_N_go] produces are put in front of its accumulator. *)
Lemma pretty_N_go_app (x : N) : ∀ s, pretty_N_go x s = pretty_N_go x "" +:+ s.
Proof.
  induction (N.lt_wf_0 x) as [x _ IH]. intros s.
  destruct (decide (x = 0)%N) as [->|Hx]; [by rewrite !pretty_N_go_0|].
  rewrite !(pretty_N_go_step x) by lia.
  rewrite (IH (x `div` 10)%N) by (apply N.div_lt; lia).
  rewrite (IH (x `div` 10)%N ltac:(apply N.div_lt; lia) (String _ "")).
  by rewrite append_assoc.
Qed.

Lemma pretty_N_go_snoc (x : N) :
  (0 < x)%N →
  pretty_N_go x "" = pretty_N_go (x `div` 10) "" +:+ String (pretty_N_char (x `mod` 10)) "".
Proof. intros Hx. rewrite pretty_N_go_step by done. apply pretty_N_go_app. Qed.

(** A number with [k + 1] digits is printed with [k + 1] characters. *)
Lemma pretty_N_go_length (k : nat) :
  ∀ x, (10 ^ N.of_nat k ≤ x < 10 ^ N.of_nat (S k))%N →
       String.length (pretty_N_go x "") = S k.
Proof.
  induction k as [|k IH]; intros x Hx.
  - change (10 ^ N.of_nat 0)%N with 1%N in Hx. change (10 ^ N.of_nat 1)%N with 10%N in Hx.
    rewrite pretty_N_go_snoc by lia.
    replace (x `div` 10)%N with 0%N by (symmetry; apply N.div_small; lia).
    by rewrite pretty_N_go_0.
  - rewrite pretty_N_go_snoc.
    2:{ pose proof (N.pow_nonzero 10 (N.of_nat (S k))). lia. }
    rewrite append_length, IH; [cbn; lia|].
    rewrite !Nat2N.inj_succ, !N.pow_succ_r' in *.
    split.
    + apply N.div_le_lower_bound; lia.
    + apply N.Div0.div_lt_upper_bound. lia.
Qed.

(** A time value of thirteen digits prints as its seconds followed by three
    more digits. *)
Lemma pretty_millis (t : Z) :
  10 ^ 12 <= t < 10 ^ 13 →
  ∃ ms, pretty t = pretty (t / 1000) +:+ ms ∧ String.length (pretty (t / 1000)) = 10%nat.
Proof.
  intros Ht. destruct t as [|p|p]; try lia.
  assert (Hq : ∃ q, Z.pos p / 1000 = Z.pos q ∧ (N.pos p `div` 1000 = N.pos q)%N).
  { destruct (Z.pos p / 1000) as [|q|q] eqn:Hdiv; try (Z.div_mod_to_equations; lia).
    exists q. split; [done|]. apply N2Z.inj. rewrite N2Z.inj_div. exact Hdiv. }
  destruct Hq as (q & Hq & HqN). rewrite Hq.
  change (pretty (Z.pos p)) with (pretty_N_go (N.pos p) "").
  change (pretty (Z.pos q)) with (pretty_N_go (N.pos q) "").
  rewrite <- HqN.
  assert (Hbig : (10 ^ 12 ≤ N.pos p < 10 ^ 13)%N) by lia.
  set (x := N.pos p) in *.
  assert (H1 : (0 < x)%N) by lia.
  assert (H2 : (0 < x `div` 10)%N) by (apply N.div_str_pos; lia).
  assert (H3 : (0 < (x `div` 10) `div` 10)%N).
  { apply N.div_str_pos. split; [lia|]. apply N.div_le_lower_bound; lia. }
  rewrite (pretty_N_go_snoc x), (pretty_N_go_snoc (x `div` 10)),
    (pretty_N_go_snoc ((x `div` 10) `div` 10)) by done.
  rewrite !N.Div0.div_div. change (10 * 10 * 10)%N with 1000%N.
  rewrite !append_assoc. eexists. split; [reflexivity|].
  apply (pretty_N_go_length 9). change (N.of_nat 9) with 9%N.
  change (N.of_nat 10) with 10%N.
  split.
  - apply N.div_le_lower_bound; lia.
  - apply N.Div0.div_lt_upper_bound. lia.
Qed.

(** The first 24 characters of a base64 text encode the first 18 bytes. *)
Lemma base64_first_18 (s rest : string) :
  String.length s = 18%nat → take_str 24 (base64 (s +:+ rest)) = base64 s.
Proof.
  intros Hlen.
  do 18 (destruct s as [|? s]; [discriminate Hlen|]).
  destruct s; [|discriminate Hlen].
  rewrite !append_cons. cbn [base64 take_str String.append]. reflexivity.
Qed.

End GeneratedIds.

(** X19.  What a generated id is made of.  For an alert without a type and
    a timestamp of its own, read at a clock value of thirteen digits (2001 to
    2286), the generated id is the base64 text of [unknown-] followed by the
    clock value in whole seconds: the cut to 24 characters drops the
    milliseconds and the zone.  Two such alerts formatted within the same
    second therefore get the same id, whatever their zones. *)
Theorem generated_id_is_second `{Runtime} (alert : value) (w : World) :
  let details := get "details" alert ||| alert in
  truthy (get "type" details) = false →
  truthy (get "timestamp" details) = false →
  10 ^ 12 <= date_now (clock_reads w) < 10 ^ 13 →
  generateAlertId alert w =
  (Ok (VStr (base64 ("unknown-" +:+ pretty (date_now (clock_reads w) / 1000)))),
   tick_clock w).
Proof.
  cbv zeta. intros Htype Hstamp Hclock.
  unfold generateAlertId. cbv zeta.
  set (details := get "details" alert ||| alert) in *.
  replace (get "type" details ||| VStr "unknown") with (VStr "unknown")
    by (unfold or_else; by rewrite Htype).
  unfold or_elseM. rewrite Hstamp. unfold now. run. f_equal. f_equal. f_equal.
  destruct (pretty_millis _ Hclock) as (ms & Hms & Hlen).
  unfold array_join. cbn [List.map join to_string]. rewrite Hms.
  set (zs := match get "zone" details ||| VStr "" with
             | VUndef | VNull => ""
             | _ => to_string (get "zone" details ||| VStr "")
             end).
  replace ("unknown" +:+ "-" +:+ (pretty (date_now (clock_reads w) / 1000) +:+ ms)
             +:+ "-" +:+ zs)
    with (("unknown-" +:+ pretty (date_now (clock_reads w) / 1000)) +:+ (ms +:+ "-" +:+ zs)).
  2:{ rewrite !append_assoc. reflexivity. }
  apply base64_first_18. rewrite append_length, Hlen. reflexivity.
Qed.

Lemma generated_id_is_second_witness :
  let rt := Reference.runtime in
  let alert := VObj [("event", VStr "Flood"); ("zone", VStr "NYZ072")] in
  eval (generateAlertId alert) Reference.initial_world =
  Ok (VStr (base64 "unknown-1700000000")).
Proof.
  cbv zeta. unfold eval.
  rewrite (generated_id_is_second (H:=Reference.runtime)
             (VObj [("event", VStr "Flood"); ("zone", VStr "NYZ072")])
             Reference.initial_world); [reflexivity|reflexivity|reflexivity|].
  vm_compute. split; [discriminate|reflexivity].
Defined.

(** X20.  [mapSeverity] is idempotent: a severity it produced is mapped to
    itself, so normalizing a severity twice is the same as normalizing it
    once.  In particular every name of the code table, every band of the
    numeric priorities and [Unknown] are fixed points. *)
Theorem mapSeverity_idempotent (v : value) : mapSeverity (mapSeverity v) = mapSeverity v.
Proof.
  destruct (mapSeverity_range v) as [Hin | Hpass].
  - set (s := mapSeverity v) in *. clearbody s.
    each_member Hin; reflexivity.
  - by rewrite !Hpass.
Qed.

(** *** The classifier as a decision table *)

Section DecisionTable.
Context `{Runtime}.












End DecisionTable.

Section DecisionTableEnd.
Context `{Runtime}.


End DecisionTableEnd.



(** *** The delivery gate *)

(** X23.  The gate always lets a condition through when nothing was
    delivered for the location before, when the classification differs from
    the delivered one, and when the new condition is bad weather; the
    settings and the elapsed time play no part, and the gate writes
    nothing. *)
Theorem gate_always_delivers `{Runtime} (loc : string) (new : Condition) (st : Settings)
    (w : World) :
  lastConditions w !! loc = None ∨
  (∃ last, lastConditions w !! loc = Some last ∧
           Conditions.classification last ≠ Conditions.classification new) ∨
  isBadWeather new = true →
  eval (shouldSendConditionUpdate loc new st) w = Ok true ∧
  same_store w (exec (shouldSendConditionUpdate loc new st) w).
Proof.
  intros Hcase.
  unfold shouldSendConditionUpdate, getLastConditions, now. run.
  destruct (lastConditions w !! loc) as [last|] eqn:Hlast; [|by repeat split].
  cbn. destruct Hcase as [?|[(last' & [= <-] & Hne)|Hbad]]; [done| |].
  - rewrite bool_decide_eq_false_2 by done. by repeat split.
  - rewrite Hbad. destruct (bool_decide _); by repeat split.
Qed.

Lemma gate_always_delivers_witness :
  let rt := Reference.runtime in
  let w := Reference.world_with_snapshot in
  let storm := {| Conditions.classification := severe; isBadWeather := true;
                  temperature := Some 70%Q; timestamp := "2023-11-14T22:13:20.000Z" |} in
  eval (shouldSendConditionUpdate "loc-1" storm (settings w)) w = Ok true ∧
  same_store w (exec (shouldSendConditionUpdate "loc-1" storm (settings w)) w).
Proof.
  cbv zeta. apply (gate_always_delivers (H:=Reference.runtime)).
  right. right. reflexivity.
Defined.

(** *** The locations *)

Import Locations.

Section LocationList.

Lemma lookup_set_field (k k' : string) (v : value) (o : object) :
  lookup_field k (set_field k' v o) = if String.eqb k k' then v else lookup_field k o.
Proof.
  induction o as [|[k0 v0] o IH]; cbn.
  - by destruct (String.eqb k k').
  - destruct (String.eqb_spec k' k0) as [->|Hne]; cbn.
    + by destruct (String.eqb k k0).
    + destruct (String.eqb_spec k k0) as [->|Hne']; [|exact IH].
      by rewrite (proj2 (String.eqb_neq k0 k')).
Qed.

Lemma lookup_spread (k : string) (a b : object) :
  lookup_field k (spread a b) =
  if has_field k b then lookup_field k b else lookup_field k a.
Proof.
  induction b as [|[k0 v0] b IH]; [done|]. cbn.
  rewrite lookup_set_field. by destruct (String.eqb k k0).
Qed.

Lemma findIndex_Some {A} (p : A → bool) (l : list A) (i : nat) :
  findIndex p l = Some i →
  ∃ x, l !! i = Some x ∧ p x = true ∧ Forall (fun y => p y = false) (take i l).
Proof.
  revert i. induction l as [|x l IH]; intros i; cbn; [done|].
  destruct (p x) eqn:Hx.
  - intros [= <-]. exists x. by repeat split.
  - destruct (findIndex p l) as [j|]; [|done]. cbn. intros [= <-].
    destruct (IH j eq_refl) as (y & Hy & Hp & Hbefore).
    exists y. repeat split; try done. cbn. by constructor.
Qed.

Lemma findIndex_None {A} (p : A → bool) (l : list A) :
  findIndex p l = None → Forall (fun y => p y = false) l.
Proof.
  induction l as [|x l IH]; cbn; [done|].
  destruct (p x) eqn:Hx; [done|].
  destruct (findIndex p l); [done|]. intros _. constructor; [done|by apply IH].
Qed.

Lemma filter_same_length {A} (p : A → bool) (l : list A) :
  length (List.filter p l) = length l → List.filter p l = l.
Proof.
  induction l as [|x l IH]; cbn; [done|].
  destruct (p x); cbn.
  - intros [= Hlen]. by rewrite IH.
  - intros Hlen. pose proof (filter_length_le p l). lia.
Qed.

Lemma filter_filter_same {A} (p : A → bool) (l : list A) :
  List.filter p (List.filter p l) = List.filter p l.
Proof.
  induction l as [|x l IH]; cbn; [done|].
  destruct (p x) eqn:Hx; cbn; [|done]. by rewrite Hx, IH.
Qed.

Lemma find_snoc_fresh {A} (p : A → bool) (l : list A) (x : A) :
  Forall (fun y => p y = false) l → p x = true → List.find p (l ++ [x]) = Some x.
Proof.
  intros Hl Hx. induction Hl as [|y l Hy _ IH]; cbn; [by rewrite Hx|]. by rewrite Hy.
Qed.

End LocationList.

(** X24.  An update cannot change the id of a location.
    [updateLocation] returns [null] and changes nothing when no location has
    the id.  Otherwise it replaces the first location with that id: the new
    record takes every field of [updateData] except [id], keeps the id it
    had, even when [updateData] carries another one, and gets a new
    [updatedAt]; all other locations, and so the list of ids, are as
    before. *)
Theorem updateLocation_preserves_ids `{Runtime} (id : string) (updateData : object)
    (locations : list object) (w : World) :
  ∃ r locations' w',
    updateLocation id updateData locations w = (Ok (r, locations'), w') ∧
    location_ids locations' = location_ids locations ∧
    same_store w w' ∧
    match findIndex (has_id id) locations with
    | None => r = None ∧ locations' = locations ∧ w' = w ∧
              Forall (fun loc => has_id id loc = false) locations
    | Some index =>
        ∃ old new,
          locations !! index = Some old ∧ has_id id old = true ∧
          r = Some new ∧ locations' = <[index := new]> locations ∧
          lookup_field "id" new = VStr id ∧
          lookup_field "updatedAt" new = VStr (iso_string (date_now (clock_reads w))) ∧
          ∀ k, k ≠ "id" → k ≠ "updatedAt" →
               lookup_field k new =
               if has_field k updateData then lookup_field k updateData
               else lookup_field k old
    end.
Proof.
  unfold updateLocation.
  destruct (findIndex (has_id id) locations) as [index|] eqn:Hfind.
  - destruct (findIndex_Some _ _ _ Hfind) as (old & Hold & Hid & _).
    assert (Holdid : lookup_field "id" old = VStr id).
    { unfold has_id in Hid. destruct (lookup_field "id" old); try discriminate.
      by apply String.eqb_eq in Hid as ->. }
    set (new := set_field "updatedAt" (VStr (iso_string (date_now (clock_reads w))))
                  (set_field "id" (lookup_field "id" old) (spread old updateData))).
    exists (Some new), (<[index := new]> locations), (tick_clock w).
    split; [cbv beta iota zeta; by rewrite Hold|].
    assert (Hnewid : lookup_field "id" new = VStr id).
    { unfold new. rewrite !lookup_set_field. cbn [String.eqb Ascii.eqb Bool.eqb]. done. }
    split.
    { unfold location_ids. rewrite list_fmap_insert.
      apply list_insert_id. rewrite list_lookup_fmap, Hold.
      cbn [fmap option_fmap option_map]. by rewrite Hnewid, Holdid. }
    split; [by repeat split|].
    exists old, new. split; [done|]. split; [done|]. split; [done|].
    split; [done|]. split; [done|].
    split; [unfold new; by rewrite lookup_set_field|].
    intros k Hk1 Hk2. unfold new. rewrite !lookup_set_field, lookup_spread.
    by rewrite (proj2 (String.eqb_neq k "updatedAt")), (proj2 (String.eqb_neq k "id")).
  - eexists _, _, _. split; [reflexivity|]. split; [done|].
    split; [by repeat split|]. repeat split; try done. by apply findIndex_None.
Qed.

(** X25.  [deleteLocation] removes every location with the id and nothing
    else: what is left is the list without those locations, in order; the
    answer is [true] exactly when there was one; and deleting the same id
    again answers [false] and changes nothing. *)
Theorem deleteLocation_removes (id : string) (locations : list object) :
  let r := (deleteLocation id locations).1 in
  let locations' := (deleteLocation id locations).2 in
  locations' = List.filter (fun loc => negb (has_id id loc)) locations ∧
  Forall (fun loc => has_id id loc = false) locations' ∧
  (r = true ↔ Exists (fun loc => has_id id loc = true) locations) ∧
  deleteLocation id locations' = (false, locations').
Proof.
  cbv zeta. unfold deleteLocation.
  set (filtered := List.filter (fun loc => negb (has_id id loc)) locations).
  assert (Hclean : Forall (fun loc => has_id id loc = false) filtered).
  { apply Forall_forall. intros loc Hin. apply list_elem_of_In, filter_In in Hin as [_ Hp].
    by apply negb_true_iff. }
  assert (Hagain : List.filter (fun loc => negb (has_id id loc)) filtered = filtered)
    by apply filter_filter_same.
  destruct (Nat.eqb_spec (length filtered) (length locations)) as [Hlen|Hlen]; cbn [fst snd].
  - pose proof (filter_same_length _ _ Hlen) as Hsame. fold filtered in Hsame.
    split; [done|]. split; [by rewrite <- Hsame|]. split.
    + split; [done|]. intros Hex. apply Exists_exists in Hex as (loc & Hin & Hid).
      rewrite <- Hsame in Hin. rewrite Forall_forall in Hclean.
      specialize (Hclean loc Hin). congruence.
    + fold filtered. rewrite Hlen, Nat.eqb_refl. done.
  - split; [done|]. split; [done|]. split.
    + split; [intros _|done]. apply Exists_exists.
      destruct (decide (Exists (fun loc => has_id id loc = true) locations))
        as [Hex|Hnex]; [by apply Exists_exists in Hex|].
      exfalso. apply Hlen. f_equal. apply filter_all, Forall_forall.
      intros loc Hin. apply negb_true_iff. destruct (has_id id loc) eqn:Hid; [|done].
      destruct Hnex. apply Exists_exists. eauto.
    + rewrite Hagain, Nat.eqb_refl. done.
Qed.

(** X26.  A new location gets the next identifier [uuidv4] draws and is
    appended to the list; it is enabled unless the data say
    [enabled: false].  When that identifier is not in use, the location is
    found by it, and deleting it again restores the list as it was. *)
Theorem addLocation_then_delete `{Runtime} (locationData : value)
    (locations : list object) (w : World) :
  nullish locationData = false →
  ∃ new w',
    addLocation locationData locations w = (Ok (new, locations ++ [new]), w') ∧
    same_store w w' ∧
    lookup_field "id" new = VStr (uuidv4 (uuid_draws w)) ∧
    lookup_field "enabled" new = VBool (not_false (get "enabled" locationData)) ∧
    (Forall (fun loc => has_id (uuidv4 (uuid_draws w)) loc = false) locations →
       List.find (has_id (uuidv4 (uuid_draws w))) (locations ++ [new]) = Some new ∧
       deleteLocation (uuidv4 (uuid_draws w)) (locations ++ [new]) = (true, locations)).
Proof.
  intros Hdata. unfold addLocation, fresh_uuid, now_iso, now.
  unfold mbind at 1, M_bind at 1.
  rewrite (bind_run _ _ _ _ _ (getE_ok "name" locationData _ Hdata)). run.
  eexists _, _. split; [reflexivity|]. split; [by repeat split|].
  split; [done|]. split; [done|].
  intros Hfresh.
  set (new := [("id", VStr (uuidv4 (uuid_draws w))); _; _; _; _; _; _; _]).
  assert (Hnew : has_id (uuidv4 (uuid_draws w)) new = true).
  { unfold has_id. cbn. apply String.eqb_refl. }
  split.
  - by apply find_snoc_fresh.
  - unfold deleteLocation. rewrite List.filter_app. cbn [List.filter].
    rewrite Hnew. cbn [negb]. rewrite app_nil_r.
    rewrite filter_all.
    2:{ eapply Forall_impl; [exact Hfresh|]. intros loc ->. done. }
    rewrite length_app. cbn [length].
    by replace (length locations =? length locations + 1)%nat with false
      by (symmetry; apply Nat.eqb_neq; lia).
Qed.

Lemma addLocation_then_delete_witness :
  let rt := Reference.runtime in
  let data := VObj [("name", VStr "NYC"); ("zipCode", VStr "10001")] in
  ∃ new w',
    addLocation data [] Reference.initial_world = (Ok (new, [new]), w') ∧
    lookup_field "id" new = VStr "uuid-0" ∧
    lookup_field "enabled" new = VBool true ∧
    deleteLocation "uuid-0" [new] = (true, []).
Proof.
  cbv zeta.
  destruct (addLocation_then_delete (H:=Reference.runtime)
              (VObj [("name", VStr "NYC"); ("zipCode", VStr "10001")]) []
              Reference.initial_world eq_refl)
    as (new & w' & Hrun & _ & Hid & Hen & Hfresh).
  exists new, w'. split; [exact Hrun|]. split; [exact Hid|]. split; [exact Hen|].
  apply Hfresh. constructor.
Defined.

(** *** Sending to the webhook *)

Import WebhookService AlertProcessor.

Section Sending.
Context `{Runtime}.
Variable webhookUrl : string.
Variable axios_post : string → object → World → PostOutcome.
Hypothesis configured : webhookUrl ≠ "".

Lemma only_logged_refl w : only_logged w w.
Proof. by repeat split. Qed.

Lemma only_logged_trans w1 w2 w3 :
  only_logged w1 w2 → only_logged w2 w3 → only_logged w1 w3.
Proof.
  intros (? & ? & ? & ? & ?) (? & ? & ? & ? & ?). repeat split; congruence.
Qed.

Lemma addLog_only_logged (e : LogInput) (w : World) :
  ∃ entry w', addLog e w = (Ok entry, w') ∧ only_logged w w'.
Proof.
  destruct (addLog_frame e w) as (entry & w' & Hrun & Hframe). by exists entry, w'.
Qed.

Lemma sendAlertToWebhook_run (alert : object) (w : World) :
  ∃ r w',
    sendAlertToWebhook webhookUrl axios_post alert w = (Ok r, w') ∧
    alertId r = alert_id alert ∧
    success r = is_resolved (axios_post webhookUrl alert w) ∧
    only_logged w w'.
Proof.
  unfold sendAlertToWebhook. rewrite (proj2 (String.eqb_neq _ _) configured).
  unfold read at 1. unfold mbind at 1, M_bind at 1.
  destruct (axios_post webhookUrl alert w) as [st|msg response].
  - match goal with
    | |- context [addLog ?e] => destruct (addLog_only_logged e w) as (entry & w' & Hlog & Hframe)
    end.
    rewrite (bind_run _ _ _ _ _ Hlog). by eexists _, _.
  - cbv zeta.
    match goal with
    | |- context [addLog ?e] => destruct (addLog_only_logged e w) as (entry & w' & Hlog & Hframe)
    end.
    rewrite (bind_run _ _ _ _ _ Hlog). by eexists _, _.
Qed.

Lemma send_each_run (alerts : list object) :
  ∀ acc w,
  ∃ rs w',
    send_each webhookUrl axios_post alerts acc w =
      (Ok {| sent := sent acc + length (List.filter success rs);
             failed := failed acc + length (List.filter (fun r => negb (success r)) rs);
             results := results acc ++ rs |}, w') ∧
    Forall2 (fun a r => alertId r = alert_id a ∧
                        ∃ wi, success r = is_resolved (axios_post webhookUrl a wi))
            alerts rs ∧
    only_logged w w'.
Proof.
  induction alerts as [|a alerts IH]; intros acc w.
  - exists [], w. cbn. rewrite !Nat.add_0_r, app_nil_r. destruct acc.
    split; [done|]. split; [constructor|apply only_logged_refl].
  - destruct (sendAlertToWebhook_run a w) as (r & w1 & Hsend & Hid & Hok & Hframe1).
    cbn [send_each]. rewrite (bind_run _ _ _ _ _ Hsend).
    edestruct IH as (rs & w' & Hrest & Hall & Hframe2). rewrite Hrest.
    exists (r :: rs), w'. cbn [results sent failed List.filter].
    split.
    + rewrite <- app_assoc. cbn [app].
      destruct (success r); cbn [negb length];
        repeat (f_equal; try lia).
    + split; [|by eapply only_logged_trans].
      constructor; [|done]. split; [done|]. by exists w.
Qed.

Lemma sendAlertsToWebhook_run (alerts : list object) (w : World) :
  ∃ rs w',
    sendAlertsToWebhook webhookUrl axios_post (Some alerts) w =
      (Ok {| sent := length (List.filter success rs);
             failed := length (List.filter (fun r => negb (success r)) rs);
             results := rs |}, w') ∧
    Forall2 (fun a r => alertId r = alert_id a ∧
                        ∃ wi, success r = is_resolved (axios_post webhookUrl a wi))
            alerts rs ∧
    only_logged w w'.
Proof.
  destruct alerts as [|a alerts].
  { exists [], w. split; [done|]. split; [constructor|apply only_logged_refl]. }
  unfold sendAlertsToWebhook.
  destruct (send_each_run (a :: alerts) {| sent := 0; failed := 0; results := [] |} w)
    as (rs & w1 & Hrun & Hall & Hframe1).
  cbn [sent failed results Nat.add app] in Hrun.
  rewrite (bind_run _ _ _ _ _ Hrun).
  match goal with
  | |- context [addLog ?e] => destruct (addLog_only_logged e w1) as (entry & w' & Hlog & Hframe2)
  end.
  rewrite (bind_run _ _ _ _ _ Hlog).
  exists rs, w'. split; [done|]. split; [done|]. by eapply only_logged_trans.
Qed.

Lemma results_uniform (b : bool) (alerts : list object) (rs : list SendResult) :
  Forall2 (fun a r => alertId r = alert_id a ∧
                      ∃ wi, success r = is_resolved (axios_post webhookUrl a wi))
          alerts rs →
  (∀ a wi, is_resolved (axios_post webhookUrl a wi) = b) →
  Forall (fun r => success r = b) rs.
Proof.
  intros Hall Hb. induction Hall as [|a r alerts rs [_ [wi Hok]] _ IH]; constructor.
  - by rewrite Hok, Hb.
  - exact IH.
Qed.

Lemma filter_partition_length {A} (p : A → bool) (l : list A) :
  (length (List.filter p l) + length (List.filter (fun x => negb (p x)) l) = length l)%nat.
Proof. induction l as [|x l IH]; cbn; [done|]. destruct (p x); cbn; lia. Qed.

End Sending.

(** X27.  With a webhook URL configured, [sendAlertsToWebhook] never throws,
    whatever the endpoint answers.  It returns one result per alert, in
    order and with the alert's id; [sent] counts the results that succeeded,
    [failed] the others, so the two add up to the number of alerts; and it
    writes nothing but the log. *)
Theorem sendAlertsToWebhook_accounts `{Runtime} (webhookUrl : string)
    (axios_post : string → object → World → PostOutcome) (alerts : list object)
    (w : World) :
  webhookUrl ≠ "" →
  ∃ batch w',
    sendAlertsToWebhook webhookUrl axios_post (Some alerts) w = (Ok batch, w') ∧
    alertId <$> results batch = ids_of alerts ∧
    sent batch = length (List.filter success (results batch)) ∧
    (sent batch + failed batch = length alerts)%nat ∧
    only_logged w w'.
Proof.
  intros Hurl.
  destruct (sendAlertsToWebhook_run webhookUrl axios_post Hurl alerts w)
    as (rs & w' & Hrun & Hall & Hframe).
  eexists _, w'. split; [exact Hrun|]. cbn [results sent failed].
  split.
  { unfold ids_of. clear Hrun. induction Hall as [|a r alerts rs [Hid _] _ IH]; [done|].
    rewrite !fmap_cons. by f_equal. }
  split; [done|]. split; [|done].
  rewrite filter_partition_length. symmetry. by eapply Forall2_length.
Qed.

Lemma sendAlertsToWebhook_accounts_witness :
  let rt := Reference.runtime in
  let alerts := [Reference.sample_alert 1; Reference.sample_alert 2] in
  let post := fun (_ : string) (a : object) (_ : World) =>
                if same_value_zero (alert_id a) (VStr "alert-1") then Resolved (VNum 200)
                else Rejected "timeout of 30000ms exceeded" None in
  ∃ batch w',
    sendAlertsToWebhook "https://hooks.example/ghl" post (Some alerts)
      Reference.initial_world = (Ok batch, w') ∧
    alertId <$> results batch = ids_of alerts ∧
    sent batch = length (List.filter success (results batch)) ∧
    (sent batch + failed batch = length alerts)%nat ∧
    only_logged Reference.initial_world w'.
Proof.
  cbv zeta.
  apply (sendAlertsToWebhook_accounts (H:=Reference.runtime)). discriminate.
Defined.

(** *** One location through the pipeline *)

Section PipelineRuns.
Context `{Runtime}.
Variable webhookUrl : string.
Variable axios_post : string → object → World → PostOutcome.
Variable locations : list object.
Variable fetchAlertsForLocation : object → World → Exc value.

Lemma same_store_only_logged w w' : same_store w w' → only_logged w w'.
Proof. intros (? & ? & ? & ? & ? & ?). by repeat split. Qed.

(** Whatever the URL, sending writes nothing but the log, also when it
    throws. *)
Lemma sendAlertsToWebhook_only_logged (alerts : option (list object)) (w : World) :
  only_logged w (sendAlertsToWebhook webhookUrl axios_post alerts w).2.
Proof.
  destruct (decide (webhookUrl = "")) as [Hurl|Hurl].
  - destruct alerts as [[|a alerts]|]; try apply only_logged_refl.
    unfold sendAlertsToWebhook, send_each, sendAlertToWebhook.
    rewrite Hurl. cbn. apply only_logged_refl.
  - destruct alerts as [alerts|]; [|apply only_logged_refl].
    destruct (sendAlertsToWebhook_run webhookUrl axios_post Hurl alerts w)
      as (rs & w' & -> & _ & Hframe). exact Hframe.
Qed.

Lemma successful_sublist (new : list object) (rs : list SendResult) :
  successful new rs `sublist_of` new.
Proof.
  revert rs. induction new as [|a new IH]; intros [|r rs]; cbn;
    try apply sublist_nil_l.
  destruct (success r); [by apply sublist_skip|by apply sublist_cons].
Qed.

Lemma successful_all (new : list object) (rs : list SendResult) :
  length rs = length new → Forall (fun r => success r = true) rs → successful new rs = new.
Proof.
  revert rs. induction new as [|a new IH]; intros [|r rs]; cbn; try done.
  intros [= Hlen] [Hr Hrs]%Forall_cons. rewrite Hr. f_equal. by apply IH.
Qed.

Lemma successful_none (new : list object) (rs : list SendResult) :
  Forall (fun r => success r = false) rs → successful new rs = [].
Proof.
  revert rs. induction new as [|a new IH]; intros [|r rs]; cbn; try done.
  intros [Hr Hrs]%Forall_cons. rewrite Hr. by apply IH.
Qed.

Lemma markAlertsSent_other_locations loc (alerts : option (list object)) w :
  ∀ loc', loc' ≠ loc →
    stored_ids (exec (markAlertsSent loc alerts) w) loc' = stored_ids w loc'.
Proof.
  intros loc' Hne. destruct alerts as [[|a alerts]|]; try done.
  erewrite stored_ids_insert by (apply (markAlertsSent_lastAlerts loc (a :: alerts) w)).
  by rewrite decide_False by done.
Qed.

Lemma markAlertsSent_settings loc (alerts : option (list object)) w :
  settings (exec (markAlertsSent loc alerts) w) = settings w.
Proof. by destruct alerts as [[|a alerts]|]. Qed.

(** The run for a location that is found, up to the point where the new
    alerts are known. *)
Lemma process_known (locationId : string) (location : object) (raw : value)
    (formatted : list object) (w w1 : World) :
  List.find (has_id locationId) locations = Some location →
  fetchAlertsForLocation location w = Ok raw →
  formatAlerts raw (VObj location) w = (Ok formatted, w1) →
  let name := lookup_field "name" location ||| lookup_field "zipCode" location in
  let new := List.filter (fun a => negb (includes (stored_ids w locationId) (alert_id a)))
               formatted in
  processLocationAlerts webhookUrl axios_post locations fetchAlertsForLocation locationId w =
  match new with
  | [] =>
      (Ok {| lr_success := true; lr_location := name;
             lr_fetched := Some (length formatted); lr_new := Some 0%nat;
             lr_sent := Some 0%nat; lr_failed := None;
             lr_message := Some "No new alerts"; lr_error := None |}, w1)
  | _ =>
      match sendAlertsToWebhook webhookUrl axios_post (Some new) w1 with
      | (Ok sendResult, w2) =>
          (Ok {| lr_success := true; lr_location := name;
                 lr_fetched := Some (length formatted);
                 lr_new := Some (length new);
                 lr_sent := Some (sent sendResult);
                 lr_failed := Some (failed sendResult);
                 lr_message := None; lr_error := None |},
           match successful new (results sendResult) with
           | [] => w2
           | delivered => exec (markAlertsSent locationId (Some delivered)) w2
           end)
      | (Throw e, w2) =>
          (Ok {| lr_success := false; lr_location := name;
                 lr_fetched := None; lr_new := None; lr_sent := None; lr_failed := None;
                 lr_message := None; lr_error := Some (message_of e) |}, w2)
      end
  end.
Proof.
  intros Hfind Hfetch Hformat. cbv zeta.
  unfold processLocationAlerts. rewrite Hfind. unfold try_catchM.
  rewrite (bind_run (read id) _ w w w eq_refl). cbv beta.
  rewrite (bind_run (lift (fetchAlertsForLocation location w)) _ w raw w)
    by (by rewrite Hfetch).
  rewrite (bind_run _ _ _ _ _ Hformat).
  rewrite (bind_run _ _ _ _ _ (filterNewAlerts_run locationId formatted w1)).
  assert (Hsame : stored_ids w1 locationId = stored_ids w locationId).
  { pose proof (read_only_formatAlerts raw (VObj location) w) as Hro.
    rewrite Hformat in Hro. apply stored_ids_ext. by destruct Hro as (_ & ? & _). }
  rewrite Hsame.
  destruct (List.filter _ formatted) as [|a new] eqn:Hnew; [done|].
  cbn [length Nat.eqb]. unfold mbind at 1, M_bind at 1.
  destruct (sendAlertsToWebhook _ _ _ w1) as [[sendResult|e] w2]; [|done].
  destruct (successful (a :: new) (results sendResult)) as [|d ds] eqn:Hdelivered.
  - done.
  - cbn [length Nat.ltb Nat.leb].
    by rewrite (bind_run _ _ _ _ _ (markAlertsSent_run locationId (Some (d :: ds)) w2)).
Qed.

Lemma process_nothing_new (locationId : string) (location : object) (raw : value)
    (formatted : list object) (w w1 : World) :
  List.find (has_id locationId) locations = Some location →
  fetchAlertsForLocation location w = Ok raw →
  formatAlerts raw (VObj location) w = (Ok formatted, w1) →
  List.filter (fun a => negb (includes (stored_ids w locationId) (alert_id a))) formatted
    = [] →
  processLocationAlerts webhookUrl axios_post locations fetchAlertsForLocation locationId w =
  (Ok {| lr_success := true;
         lr_location := lookup_field "name" location ||| lookup_field "zipCode" location;
         lr_fetched := Some (length formatted); lr_new := Some 0%nat;
         lr_sent := Some 0%nat; lr_failed := None;
         lr_message := Some "No new alerts"; lr_error := None |}, w1).
Proof.
  intros Hfind Hfetch Hformat Hnew.
  pose proof (process_known _ _ _ _ _ _ Hfind Hfetch Hformat) as Hrun.
  cbv zeta in Hrun. by rewrite Hnew in Hrun.
Qed.

Lemma process_new (locationId : string) (location : object) (raw : value)
    (formatted new : list object) (w w1 : World) :
  List.find (has_id locationId) locations = Some location →
  fetchAlertsForLocation location w = Ok raw →
  formatAlerts raw (VObj location) w = (Ok formatted, w1) →
  List.filter (fun a => negb (includes (stored_ids w locationId) (alert_id a))) formatted
    = new →
  new ≠ [] →
  processLocationAlerts webhookUrl axios_post locations fetchAlertsForLocation locationId w =
  let name := lookup_field "name" location ||| lookup_field "zipCode" location in
  match sendAlertsToWebhook webhookUrl axios_post (Some new) w1 with
  | (Ok sendResult, w2) =>
      (Ok {| lr_success := true; lr_location := name;
             lr_fetched := Some (length formatted);
             lr_new := Some (length new);
             lr_sent := Some (sent sendResult);
             lr_failed := Some (failed sendResult);
             lr_message := None; lr_error := None |},
       match successful new (results sendResult) with
       | [] => w2
       | delivered => exec (markAlertsSent locationId (Some delivered)) w2
       end)
  | (Throw e, w2) =>
      (Ok {| lr_success := false; lr_location := name;
             lr_fetched := None; lr_new := None; lr_sent := None; lr_failed := None;
             lr_message := None; lr_error := Some (message_of e) |}, w2)
  end.
Proof.
  intros Hfind Hfetch Hformat Hnew Hne.
  pose proof (process_known _ _ _ _ _ _ Hfind Hfetch Hformat) as Hrun.
  cbv zeta in Hrun. rewrite Hnew in Hrun. by destruct new.
Qed.

Lemma nil_or_not {A} (l : list A) : l = [] ∨ l ≠ [].
Proof. destruct l; [by left|by right]. Qed.

End PipelineRuns.

(** X28.  An alert whose delivery failed stays new.  When the location is
    found, the alerts are fetched and formatted, and every request to the
    webhook is rejected, [processLocationAlerts] still reports success, with
    nothing sent; it leaves the ledger exactly as it was, so the same alerts
    are new at the next run. *)
Theorem rejected_posts_leave_alerts_new `{Runtime} (webhookUrl : string)
    (axios_post : string → object → World → PostOutcome) (locations : list object)
    (fetchAlertsForLocation : object → World → Exc value)
    (locationId : string) (location : object) (raw : value) (formatted : list object)
    (w w1 : World) :
  webhookUrl ≠ "" →
  (∀ a wi, is_resolved (axios_post webhookUrl a wi) = false) →
  List.find (has_id locationId) locations = Some location →
  fetchAlertsForLocation location w = Ok raw →
  formatAlerts raw (VObj location) w = (Ok formatted, w1) →
  let new := List.filter (fun a => negb (includes (stored_ids w locationId) (alert_id a)))
               formatted in
  ∃ r w',
    processLocationAlerts webhookUrl axios_post locations fetchAlertsForLocation locationId w
      = (Ok r, w') ∧
    lr_success r = true ∧ lr_sent r = Some 0%nat ∧
    lr_new r = Some (length new) ∧
    lastAlerts w' = lastAlerts w ∧
    eval (filterNewAlerts locationId (Some formatted)) w' = Ok new.
Proof.
  intros Hurl Hrejected Hfind Hfetch Hformat new.
  assert (Hdef : List.filter (fun a => negb (includes (stored_ids w locationId) (alert_id a)))
                   formatted = new) by reflexivity.
  clearbody new.
  assert (Hla1 : lastAlerts w1 = lastAlerts w).
  { pose proof (read_only_formatAlerts raw (VObj location) w) as Hro.
    rewrite Hformat in Hro. by destruct Hro as (_ & ? & _). }
  assert (Hnext : ∀ w', lastAlerts w' = lastAlerts w →
            eval (filterNewAlerts locationId (Some formatted)) w' = Ok new).
  { intros w' Hla. unfold eval. rewrite filterNewAlerts_run. cbn [fst].
    by rewrite (stored_ids_ext w w' locationId Hla), Hdef. }
  destruct (nil_or_not new) as [Hnil|Hne].
  { eexists _, _. split; [eapply process_nothing_new; try done; by rewrite Hdef|].
    cbn [lr_success lr_sent lr_new].
    rewrite Hnil. repeat split; try done. rewrite <- Hnil. by apply Hnext. }
  rewrite (process_new webhookUrl axios_post locations fetchAlertsForLocation locationId
             location raw formatted new w w1 Hfind Hfetch Hformat Hdef Hne). cbv zeta.
  destruct (sendAlertsToWebhook_run webhookUrl axios_post Hurl new w1)
    as (rs & w2 & Hsend & Hall & Hframe).
  rewrite Hsend. cbn [results sent failed].
  pose proof (results_uniform webhookUrl axios_post false new rs Hall Hrejected) as Hfailed.
  rewrite (successful_none new rs Hfailed).
  eexists _, _. split; [reflexivity|]. cbn [lr_success lr_sent lr_new].
  assert (Hla2 : lastAlerts w2 = lastAlerts w).
  { destruct Hframe as (_ & -> & _). done. }
  split; [done|]. split.
  { f_equal. rewrite filter_none; [done|]. eapply Forall_impl; [exact Hfailed|].
    by intros r ->. }
  split; [done|]. split; [done|]. by apply Hnext.
Qed.

Lemma rejected_posts_leave_alerts_new_witness :
  let rt := Reference.runtime in
  let location := [("id", VStr "loc-1"); ("name", VStr "NYC")] in
  let raw := VArr [VObj [("id", VStr "abc");
                         ("details", VObj [("significance", VStr "f")])]] in
  let post := fun (_ : string) (_ : object) (_ : World) =>
                Rejected "timeout of 30000ms exceeded" None in
  let fetch := fun (_ : object) (_ : World) => Ok raw in
  ∃ r w' c,
    processLocationAlerts "https://hooks.example/ghl" post [location] fetch "loc-1"
      Reference.initial_world = (Ok r, w') ∧
    lr_success r = true ∧ lr_sent r = Some 0%nat ∧ lr_new r = Some 1%nat ∧
    lastAlerts w' = lastAlerts Reference.initial_world ∧
    eval (filterNewAlerts "loc-1" (Some [c])) w' = Ok [c].
Proof.
  cbv zeta.
  set (location := [("id", VStr "loc-1"); ("name", VStr "NYC")]).
  set (raw := VArr [VObj [("id", VStr "abc");
                          ("details", VObj [("significance", VStr "f")])]]).
  destruct (formatAlerts (H:=Reference.runtime) raw (VObj location)
              Reference.initial_world) as [[formatted|e] w1] eqn:Hformat;
    [|vm_compute in Hformat; discriminate Hformat].
  destruct (rejected_posts_leave_alerts_new (H:=Reference.runtime)
              "https://hooks.example/ghl"
              (fun _ _ _ => Rejected "timeout of 30000ms exceeded" None)
              [location] (fun _ _ => Ok raw) "loc-1" location raw formatted
              Reference.initial_world w1)
    as (r & w' & Hrun & Hok & Hsent & Hnew & Hla & Hnext);
    [discriminate|done|reflexivity|reflexivity|exact Hformat|].
  vm_compute in Hformat. injection Hformat as <- <-.
  eexists r, w', _. split; [exact Hrun|]. split; [exact Hok|]. split; [exact Hsent|].
  split; [exact Hnew|]. split; [exact Hla|]. exact Hnext.
Defined.

(** X29.  An alert that was delivered is marked.  When every request to the
    webhook resolves, [processLocationAlerts] reports all new alerts as sent
    and adds their ids to the ledger of the location, behind the ids that
    were there, keeping the last 100; when the new alerts are at most 100 and
    have primitive ids, none of them is new afterwards. *)
Theorem resolved_posts_are_marked `{Runtime} (webhookUrl : string)
    (axios_post : string → object → World → PostOutcome) (locations : list object)
    (fetchAlertsForLocation : object → World → Exc value)
    (locationId : string) (location : object) (raw : value) (formatted : list object)
    (w w1 : World) :
  webhookUrl ≠ "" →
  (∀ a wi, is_resolved (axios_post webhookUrl a wi) = true) →
  List.find (has_id locationId) locations = Some location →
  fetchAlertsForLocation location w = Ok raw →
  formatAlerts raw (VObj location) w = (Ok formatted, w1) →
  let new := List.filter (fun a => negb (includes (stored_ids w locationId) (alert_id a)))
               formatted in
  ∃ r w',
    processLocationAlerts webhookUrl axios_post locations fetchAlertsForLocation locationId w
      = (Ok r, w') ∧
    lr_success r = true ∧ lr_sent r = Some (length new) ∧
    stored_ids w' locationId =
      match new with
      | [] => stored_ids w locationId
      | _ => lastn 100 (stored_ids w locationId ++ ids_of new)
      end ∧
    ((length new ≤ 100)%nat → Forall (fun a => primitive (alert_id a) = true) new →
     eval (filterNewAlerts locationId (Some new)) w' = Ok []).
Proof.
  intros Hurl Hresolved Hfind Hfetch Hformat new.
  assert (Hdef : List.filter (fun a => negb (includes (stored_ids w locationId) (alert_id a)))
                   formatted = new) by reflexivity.
  clearbody new.
  assert (Hla1 : lastAlerts w1 = lastAlerts w).
  { pose proof (read_only_formatAlerts raw (VObj location) w) as Hro.
    rewrite Hformat in Hro. by destruct Hro as (_ & ? & _). }
  destruct (nil_or_not new) as [Hnil|Hne].
  { eexists _, _. split; [eapply process_nothing_new; try done; by rewrite Hdef|].
    cbn [lr_success lr_sent].
    rewrite Hnil. repeat split; try done. by apply stored_ids_ext. }
  rewrite (process_new webhookUrl axios_post locations fetchAlertsForLocation locationId
             location raw formatted new w w1 Hfind Hfetch Hformat Hdef Hne). cbv zeta.
  destruct (sendAlertsToWebhook_run webhookUrl axios_post Hurl new w1)
    as (rs & w2 & Hsend & Hall & Hframe).
  rewrite Hsend. cbn [results sent failed].
  pose proof (results_uniform webhookUrl axios_post true new rs Hall Hresolved) as Hsent.
  assert (Hlen : length rs = length new) by (symmetry; by eapply Forall2_length).
  rewrite (successful_all new rs Hlen Hsent).
  assert (Hla2 : lastAlerts w2 = lastAlerts w).
  { destruct Hframe as (_ & -> & _). done. }
  assert (Hstored : stored_ids (exec (markAlertsSent locationId (Some new)) w2) locationId =
                    lastn 100 (stored_ids w locationId ++ ids_of new)).
  { rewrite markAlertsSent_stored, (stored_ids_ext w w2 locationId Hla2).
    by destruct new. }
  exists {| lr_success := true;
            lr_location := lookup_field "name" location ||| lookup_field "zipCode" location;
            lr_fetched := Some (length formatted); lr_new := Some (length new);
            lr_sent := Some (length (List.filter success rs));
            lr_failed := Some (length (List.filter (fun r => negb (success r)) rs));
            lr_message := None; lr_error := None |},
         (exec (markAlertsSent locationId (Some new)) w2).
  split; [by destruct new|]. cbn [lr_success lr_sent].
  split; [done|]. split.
  { f_equal. by rewrite filter_all, Hlen. }
  split.
  { rewrite Hstored. by destruct new. }
  intros Hshort Hprim. unfold eval. rewrite filterNewAlerts_run. cbn [fst]. f_equal.
  apply filter_none, Forall_forall. intros c Hc. apply negb_false_iff.
  apply marked_covers; [done| |].
  - rewrite Forall_forall in Hprim. by apply Hprim.
  - unfold ids_of. by apply list_elem_of_fmap_2.
Qed.

Lemma resolved_posts_are_marked_witness :
  let rt := Reference.runtime in
  let location := [("id", VStr "loc-1"); ("name", VStr "NYC")] in
  let raw := VArr [VObj [("id", VStr "abc");
                         ("details", VObj [("significance", VStr "f")])]] in
  let post := fun (_ : string) (_ : object) (_ : World) => Resolved (VNum 200) in
  let fetch := fun (_ : object) (_ : World) => Ok raw in
  ∃ r w',
    processLocationAlerts "https://hooks.example/ghl" post [location] fetch "loc-1"
      Reference.initial_world = (Ok r, w') ∧
    lr_success r = true ∧ lr_sent r = Some 1%nat ∧
    stored_ids w' "loc-1" = [VStr "abc"].
Proof.
  cbv zeta.
  set (location := [("id", VStr "loc-1"); ("name", VStr "NYC")]).
  set (raw := VArr [VObj [("id", VStr "abc");
                          ("details", VObj [("significance", VStr "f")])]]).
  destruct (formatAlerts (H:=Reference.runtime) raw (VObj location)
              Reference.initial_world) as [[formatted|e] w1] eqn:Hformat;
    [|vm_compute in Hformat; discriminate Hformat].
  destruct (resolved_posts_are_marked (H:=Reference.runtime)
              "https://hooks.example/ghl" (fun _ _ _ => Resolved (VNum 200))
              [location] (fun _ _ => Ok raw) "loc-1" location raw formatted
              Reference.initial_world w1)
    as (r & w' & Hrun & Hok & Hsent & Hstored & _);
    [discriminate|done|reflexivity|reflexivity|exact Hformat|].
  vm_compute in Hformat. injection Hformat as <- <-.
  exists r, w'. split; [exact Hrun|]. split; [exact Hok|]. split; [exact Hsent|].
  exact Hstored.
Defined.

(** X30.  Failures are contained.  For an id that no location has,
    [processLocationAlerts] throws [Location not found] and touches nothing.
    For a location that is found it never throws, whatever the weather API
    and the webhook do: an error of the fetch, of the formatter or of the
    sending is reported in the result, and then the ledger is exactly as it
    was.  In every case the settings and the ledgers of the other locations
    are untouched. *)
Theorem processLocationAlerts_contained `{Runtime} (webhookUrl : string)
    (axios_post : string → object → World → PostOutcome) (locations : list object)
    (fetchAlertsForLocation : object → World → Exc value)
    (locationId : string) (w : World) :
  let run := processLocationAlerts webhookUrl axios_post locations fetchAlertsForLocation
               locationId w in
  match List.find (has_id locationId) locations with
  | None => run = (Throw (Error ("Location not found: " +:+ locationId)), w)
  | Some location =>
      ∃ r w',
        run = (Ok r, w') ∧
        lr_location r = lookup_field "name" location ||| lookup_field "zipCode" location ∧
        (lr_success r = false ↔ is_Some (lr_error r)) ∧
        (lr_success r = false → lastAlerts w' = lastAlerts w) ∧
        settings w' = settings w ∧
        ∀ loc', loc' ≠ locationId → stored_ids w' loc' = stored_ids w loc'
  end.
Proof.
  cbv zeta.
  destruct (List.find (has_id locationId) locations) as [location|] eqn:Hfind.
  2:{ unfold processLocationAlerts. by rewrite Hfind. }
  assert (Hno : ∀ (A : Type), ¬ is_Some (None : option A)) by (by intros A [? ?]).
  destruct (fetchAlertsForLocation location w) as [raw|e] eqn:Hfetch.
  2:{ unfold processLocationAlerts. rewrite Hfind. unfold try_catchM.
      rewrite (bind_run (read id) _ w w w eq_refl). cbv beta.
      unfold mbind at 1, M_bind at 1. unfold lift at 1. rewrite Hfetch.
      eexists _, _. split; [reflexivity|]. cbn. by repeat split; eauto. }
  destruct (formatAlerts raw (VObj location) w) as [[formatted|e] w1] eqn:Hformat.
  2:{ pose proof (read_only_formatAlerts raw (VObj location) w) as Hro.
      rewrite Hformat in Hro. destruct Hro as (Hset & Hla & _). cbn [snd] in *.
      unfold processLocationAlerts. rewrite Hfind. unfold try_catchM.
      rewrite (bind_run (read id) _ w w w eq_refl). cbv beta.
      rewrite (bind_run (lift (fetchAlertsForLocation location w)) _ w raw w)
        by (by rewrite Hfetch).
      unfold mbind at 1, M_bind at 1. rewrite Hformat.
      eexists _, _. split; [reflexivity|]. cbn.
      repeat split; eauto. intros loc' _. by apply stored_ids_ext. }
  pose proof (read_only_formatAlerts raw (VObj location) w) as Hro.
  rewrite Hformat in Hro. destruct Hro as (Hset1 & Hla1 & _). cbn [snd] in *.
  pose proof (process_known webhookUrl axios_post locations fetchAlertsForLocation
                locationId location raw formatted w w1 Hfind Hfetch Hformat) as Hrun.
  cbv zeta in Hrun.
  destruct (List.filter _ formatted) as [|a new].
  { eexists _, _. split; [exact Hrun|]. cbn [lr_location lr_success lr_error].
    split; [done|]. split; [split; [done|by intros ?%Hno]|]. split; [done|].
    split; [done|]. intros loc' _. by apply stored_ids_ext. }
  pose proof (sendAlertsToWebhook_only_logged webhookUrl axios_post (Some (a :: new)) w1)
    as (Hset2 & Hla2 & _).
  destruct (sendAlertsToWebhook _ _ _ w1) as [[sendResult|e] w2]; cbn [snd] in *.
  - eexists _, _. split; [exact Hrun|]. cbn [lr_location lr_success lr_error].
    split; [done|]. split; [split; [done|by intros ?%Hno]|]. split; [done|].
    destruct (successful _ _) as [|d ds].
    + split; [congruence|]. intros loc' _. apply stored_ids_ext. congruence.
    + split; [rewrite markAlertsSent_settings; congruence|].
      intros loc' Hne. rewrite markAlertsSent_other_locations by done.
      apply stored_ids_ext. congruence.
  - eexists _, _. split; [exact Hrun|]. cbn.
    repeat split; eauto; try congruence.
    intros loc' _. apply stored_ids_ext. congruence.
Qed.
